(** * A shallow embedding of the grokysis knowledge base and its doodlers

    The development follows five source files of the UI:
    - the knowledge base ([KnowledgeBase]: [normalizeSymbol],
      [boundsIntersect], [lookupRawSymbol], [ensureSymbolAnalysis],
      [_analyzeSymbol], [ensureFileAnalysis]),
    - [transitive_calls_doodler.js] ([TransitiveCallDoodler.doodleCalls]),
    - [hiernode_generator.js] ([HierNodeGenerator._processDeferredBlock]),
    - [session_track.js] ([SessionTrack], all of its methods),
    - [frontend.js] ([GrokAnalysisFrontend]: the constructor and the
      message bridge, [_sendAndAwaitReply], [_sendNoReply], [_onMessage]).

    JavaScript objects are references: a [SymbolInfo] is modelled as an
    index into a store held by the knowledge base, a [Set] as a list in
    insertion order without repetition, and a [Map] as a finite map.  An
    [async] function is split at its [await]s; the suspended activations
    are kept in the state and resumed by explicit events. *)

From Stdlib Require Import ZArith Lia Bool Ascii.

From stdpp Require Import base option list gmap strings relations.

Local Open Scope Z_scope.

(** * Part I: the program *)

(** ** JavaScript values that reach the hop-budget arithmetic *)

Module JS.

(** The values the code passes as [doAnalyze] / [analyzeHops]: nothing
    ([undefined]), [null], booleans, integral numbers, [NaN], and plain
    objects such as [{ analysisMode: 'context' }]. *)
Inductive value : Type :=
| VUndefined
| VNull
| VBool (b : bool)
| VNum (z : Z)
| VNaN
| VObj.

#[global] Instance value_eq_dec : EqDecision value.
Proof. solve_decision. Defined.

(** [if (v)] *)
Definition truthy (v : value) : bool :=
  match v with
  | VUndefined | VNull | VNaN => false
  | VBool b => b
  | VNum z => negb (z =? 0)
  | VObj => true
  end.

(** ToNumber; [None] stands for [NaN]. *)
Definition toNumber (v : value) : option Z :=
  match v with
  | VUndefined | VNaN | VObj => None
  | VNull => Some 0
  | VBool b => Some (if b then 1 else 0)
  | VNum z => Some z
  end.

Definition ofNumber (n : option Z) : value :=
  match n with Some z => VNum z | None => VNaN end.

(** [Math.min(2, v)] *)
Definition min2 (v : value) : value :=
  ofNumber (Z.min 2 <$> toNumber v).

(** [v - 1] *)
Definition minus1 (v : value) : value :=
  ofNumber ((fun z => z - 1) <$> toNumber v).

(** [a < b]; any comparison with [NaN] is false. *)
Definition lt (a b : value) : bool :=
  match toNumber a, toNumber b with
  | Some x, Some y => x <? y
  | _, _ => false
  end.

(** [v === true] *)
Definition is_true (v : value) : bool :=
  match v with VBool true => true | _ => false end.

(** Truthiness of a string that may be absent: [undefined], [null] and
    the empty string are falsy. *)
Definition truthy_str (s : option string) : bool :=
  match s with
  | None | Some EmptyString => false
  | Some _ => true
  end.

End JS.

(** ** Insertion-ordered sets ([new Set()]) *)

Section OrderedSet.

Context {A : Type} `{EqDecision A}.

(** [s.add(x)] *)
Definition set_add (x : A) (s : list A) : list A :=
  if decide (x ∈ s) then s else s ++ [x].

(** [s.delete(x)] *)
Definition set_delete (x : A) (s : list A) : list A :=
  filter (λ y, y ≠ x) s.

(** [s.has(x)] *)
Definition set_has (x : A) (s : list A) : bool :=
  bool_decide (x ∈ s).

End OrderedSet.

(** ** [normalizeSymbol] *)

Fixpoint has_comma (s : string) : bool :=
  match s with
  | EmptyString => false
  | String c r => if Ascii.eqb c ","%char then true else has_comma r
  end.

(** [symStr.split(',', 1)[0]]: the text before the first comma. *)
Fixpoint first_component (s : string) : string :=
  match s with
  | EmptyString => EmptyString
  | String c r => if Ascii.eqb c ","%char then EmptyString else String c (first_component r)
  end.

(** [normalizeSymbol(symStr, commaExpected)].  [None] is [null] (or, on
    input, [undefined]); [commaExpected] only selects whether the comma
    case is reported on the console, so it is not a parameter here. *)
Definition normalizeSymbol (symStr : option string) : option string :=
  if negb (JS.truthy_str symStr) then None
  else
    match symStr with
    | Some s => if has_comma s then Some (first_component s) else Some s
    | None => None
    end.

(** ** [boundsIntersect] *)

(** A range is the two-element array [[start, end]] of an inclusive start
    offset and an exclusive end offset. *)
Definition boundsIntersect (a b : Z * Z) : bool :=
  if (a.2 <=? b.1) || (a.1 >=? b.2) then false else true.

(** ** The knowledge base *)

Module KnowledgeBase.

(** A [SymbolInfo] or [FileInfo] object is the index of its record in the
    store; a promise is a number. *)
Abbreviation Sym := nat (only parsing).

Abbreviation FileId := nat (only parsing).

Abbreviation Promise := nat (only parsing).

(** The [opts] argument of [lookupRawSymbol]. *)
Record Opts : Type := mkOpts {
  o_somePath : option string;
  o_headerPath : option string;
  o_sourcePath : option string;
  o_syntaxKind : option string;
}.

(** Modelled from the spec: the [SymbolInfo] class ([kb/symbol_info.js])
    is not among the sources.  The record has the attributes the spec
    lists (raw name, pretty name, syntax kind, analysis state, edge sets,
    file back-references, dirty serial) under the field names the
    knowledge base uses; a fresh symbol is unanalyzed with empty edge
    sets. *)
Record SymbolInfo : Type := mkSymbolInfo {
  rawName : option string;
  prettyName : option string;
  syntaxKind : option string;
  pathHints : option string * option string * option string;
  analyzed : JS.value;
  analyzing : option Promise;
  outEdges : list Sym;
  inEdges : list Sym;
  sourceFileInfo : option FileId;
  declFileInfo : option FileId;
  serial : nat;
}.

Definition new_SymbolInfo (raw pretty : option string) (opts : option Opts) : SymbolInfo :=
  {| rawName := raw;
     prettyName := pretty;
     syntaxKind := opts ≫= o_syntaxKind;
     pathHints := (opts ≫= o_somePath, opts ≫= o_headerPath, opts ≫= o_sourcePath);
     analyzed := JS.VBool false;
     analyzing := None;
     outEdges := [];
     inEdges := [];
     sourceFileInfo := None;
     declFileInfo := None;
     serial := 0 |}.

Definition upd_pretty (p : option string) (s : SymbolInfo) : SymbolInfo :=
  mkSymbolInfo (rawName s) p (syntaxKind s) (pathHints s) (analyzed s) (analyzing s)
               (outEdges s) (inEdges s) (sourceFileInfo s) (declFileInfo s) (serial s).

Definition upd_syntax (k : option string) (s : SymbolInfo) : SymbolInfo :=
  mkSymbolInfo (rawName s) (prettyName s) k (pathHints s) (analyzed s) (analyzing s)
               (outEdges s) (inEdges s) (sourceFileInfo s) (declFileInfo s) (serial s).

Definition upd_analyzed (v : JS.value) (s : SymbolInfo) : SymbolInfo :=
  mkSymbolInfo (rawName s) (prettyName s) (syntaxKind s) (pathHints s) v (analyzing s)
               (outEdges s) (inEdges s) (sourceFileInfo s) (declFileInfo s) (serial s).

Definition upd_analyzing (p : option Promise) (s : SymbolInfo) : SymbolInfo :=
  mkSymbolInfo (rawName s) (prettyName s) (syntaxKind s) (pathHints s) (analyzed s) p
               (outEdges s) (inEdges s) (sourceFileInfo s) (declFileInfo s) (serial s).

Definition upd_out (f : list Sym → list Sym) (s : SymbolInfo) : SymbolInfo :=
  mkSymbolInfo (rawName s) (prettyName s) (syntaxKind s) (pathHints s) (analyzed s) (analyzing s)
               (f (outEdges s)) (inEdges s) (sourceFileInfo s) (declFileInfo s) (serial s).

Definition upd_in (f : list Sym → list Sym) (s : SymbolInfo) : SymbolInfo :=
  mkSymbolInfo (rawName s) (prettyName s) (syntaxKind s) (pathHints s) (analyzed s) (analyzing s)
               (outEdges s) (f (inEdges s)) (sourceFileInfo s) (declFileInfo s) (serial s).

Definition upd_sourceFile (f : option FileId) (s : SymbolInfo) : SymbolInfo :=
  mkSymbolInfo (rawName s) (prettyName s) (syntaxKind s) (pathHints s) (analyzed s) (analyzing s)
               (outEdges s) (inEdges s) f (declFileInfo s) (serial s).

Definition upd_declFile (f : option FileId) (s : SymbolInfo) : SymbolInfo :=
  mkSymbolInfo (rawName s) (prettyName s) (syntaxKind s) (pathHints s) (analyzed s) (analyzing s)
               (outEdges s) (inEdges s) (sourceFileInfo s) f (serial s).

(** [markDirty()] bumps the serial the rendering layer watches. *)
Definition bump_serial (s : SymbolInfo) : SymbolInfo :=
  mkSymbolInfo (rawName s) (prettyName s) (syntaxKind s) (pathHints s) (analyzed s) (analyzing s)
               (outEdges s) (inEdges s) (sourceFileInfo s) (declFileInfo s) (S (serial s)).

(** Modelled from the spec: the [FileInfo] class ([kb/file_info.js]) is
    not among the sources.  [fi.analyzing] is never given a truthy value
    by the knowledge base, so only the [analyzed] flag is kept. *)
Record FileInfo : Type := mkFileInfo {
  path : string;
  fi_analyzed : bool;
  fileSymbolDefs : list Sym;
  fileSymbolDecls : list Sym;
  fi_serial : nat;
}.

Definition new_FileInfo (p : string) : FileInfo :=
  {| path := p; fi_analyzed := false; fileSymbolDefs := []; fileSymbolDecls := []; fi_serial := 0 |}.

(** *** Search results, as [_analyzeSymbol] reads them *)

Record Consumed : Type := mkConsumed {
  c_sym : option string;
  c_pretty : option string;
  c_syntax : option string;
}.

Record LineResult : Type := mkLineResult {
  contextsym : option string;
  context : option string;
}.

Record PathLines : Type := mkPathLines {
  pl_path : string;
  pl_lines : list LineResult;
}.

Record RawSymInfo : Type := mkRawSymInfo {
  rs_symbol : string;
  rs_meta : option (option string);          (* [meta.syntax] when [meta] is there *)
  rs_consumes : option (list Consumed);
  rs_hits : option (list (string * list (string * list PathLines)));
}.

(** [raw.semantic || {}], as the list [Object.entries] walks. *)
Definition SearchResults : Type := list (string * RawSymInfo).

(** *** Suspended activations of the two [async] methods *)

Inductive task : Type :=
| AnalyzeAwaitingSearch (p : Promise) (sym : Sym) (analyzeHops : JS.value)
    (* [_analyzeSymbol] at [await this.grokCtx.performSearch(...)] *)
| EnsureAwaitingAnalysis (p : Promise) (sym : Sym) (clampedLevel : JS.value).
    (* [ensureSymbolAnalysis] at [await symInfo.analyzing] *)

Record KB : Type := mkKB {
  symbolsByRawName : gmap (option string) Sym;
  syms : list SymbolInfo;
  analyzingSymbols : list Sym;
  filesByPath : gmap string FileId;
  files : list FileInfo;
  tasks : list task;
  nextPromise : Promise;
  settled : list Promise;
  (* Ghost history: every [performSearch] call (for which symbol, with
     which query) and every call of [ensureSymbolAnalysis]. *)
  searches : list (Sym * string);
  ensureCalls : list (Sym * JS.value);
}.

Definition EDGE_SANITY_LIMIT : nat := 32.

(** [new KnowledgeBase(...)] *)
Definition empty : KB :=
  {| symbolsByRawName := ∅; syms := []; analyzingSymbols := [];
     filesByPath := ∅; files := []; tasks := []; nextPromise := 0%nat;
     settled := []; searches := []; ensureCalls := [] |}.

(** *** Field updates *)

Definition set_symbolsByRawName (v : gmap (option string) Sym) (kb : KB) : KB :=
  mkKB v (syms kb) (analyzingSymbols kb) (filesByPath kb) (files kb) (tasks kb)
       (nextPromise kb) (settled kb) (searches kb) (ensureCalls kb).

Definition set_syms (v : list SymbolInfo) (kb : KB) : KB :=
  mkKB (symbolsByRawName kb) v (analyzingSymbols kb) (filesByPath kb) (files kb) (tasks kb)
       (nextPromise kb) (settled kb) (searches kb) (ensureCalls kb).

Definition set_analyzingSymbols (v : list Sym) (kb : KB) : KB :=
  mkKB (symbolsByRawName kb) (syms kb) v (filesByPath kb) (files kb) (tasks kb)
       (nextPromise kb) (settled kb) (searches kb) (ensureCalls kb).

Definition set_filesByPath (v : gmap string FileId) (kb : KB) : KB :=
  mkKB (symbolsByRawName kb) (syms kb) (analyzingSymbols kb) v (files kb) (tasks kb)
       (nextPromise kb) (settled kb) (searches kb) (ensureCalls kb).

Definition set_files (v : list FileInfo) (kb : KB) : KB :=
  mkKB (symbolsByRawName kb) (syms kb) (analyzingSymbols kb) (filesByPath kb) v (tasks kb)
       (nextPromise kb) (settled kb) (searches kb) (ensureCalls kb).

Definition set_tasks (v : list task) (kb : KB) : KB :=
  mkKB (symbolsByRawName kb) (syms kb) (analyzingSymbols kb) (filesByPath kb) (files kb) v
       (nextPromise kb) (settled kb) (searches kb) (ensureCalls kb).

Definition set_nextPromise (v : Promise) (kb : KB) : KB :=
  mkKB (symbolsByRawName kb) (syms kb) (analyzingSymbols kb) (filesByPath kb) (files kb) (tasks kb)
       v (settled kb) (searches kb) (ensureCalls kb).

Definition set_settled (v : list Promise) (kb : KB) : KB :=
  mkKB (symbolsByRawName kb) (syms kb) (analyzingSymbols kb) (filesByPath kb) (files kb) (tasks kb)
       (nextPromise kb) v (searches kb) (ensureCalls kb).

Definition set_searches (v : list (Sym * string)) (kb : KB) : KB :=
  mkKB (symbolsByRawName kb) (syms kb) (analyzingSymbols kb) (filesByPath kb) (files kb) (tasks kb)
       (nextPromise kb) (settled kb) v (ensureCalls kb).

Definition set_ensureCalls (v : list (Sym * JS.value)) (kb : KB) : KB :=
  mkKB (symbolsByRawName kb) (syms kb) (analyzingSymbols kb) (filesByPath kb) (files kb) (tasks kb)
       (nextPromise kb) (settled kb) (searches kb) v.

(** *** The state monad of the synchronous code

    A computation fails ([None]) only on a dangling reference or when the
    recursion budget of the cascade is used up; neither happens from a
    well-formed state (see [ensureSymbolAnalysis_total] and
    [step_total]). *)

Definition M (A : Type) : Type := KB → option (A * KB).

Definition ret {A} (a : A) : M A := λ kb, Some (a, kb).

Definition bind {A B} (m : M A) (f : A → M B) : M B :=
  λ kb, match m kb with Some (a, kb') => f a kb' | None => None end.

Definition fail {A} : M A := λ _, None.

Definition gets {A} (f : KB → A) : M A := λ kb, Some (f kb, kb).

Definition modify (f : KB → KB) : M unit := λ kb, Some (tt, f kb).

Definition lift_opt {A} (f : KB → option A) : M A :=
  λ kb, match f kb with Some a => Some (a, kb) | None => None end.

Notation "x <- c1 ;; c2" := (bind c1 (λ x, c2))
  (at level 100, c1 at next level, right associativity).

Notation "c1 ;; c2" := (bind c1 (λ _, c2))
  (at level 100, right associativity).

Definition when (b : bool) (m : M unit) : M unit := if b then m else ret tt.

(** [for (const x of l) body(x)] *)
Fixpoint forM_ {A} (l : list A) (body : A → M unit) : M unit :=
  match l with
  | [] => ret tt
  | x :: l' => body x ;; forM_ l' body
  end.

(** Reading and writing through a reference. *)
Definition get_sym (i : Sym) : M SymbolInfo := lift_opt (λ kb, syms kb !! i).

Definition modify_sym (i : Sym) (f : SymbolInfo → SymbolInfo) : M unit :=
  _ <- get_sym i ;; modify (λ kb, set_syms (alter f i (syms kb)) kb).

Definition get_file (i : FileId) : M FileInfo := lift_opt (λ kb, files kb !! i).

Definition modify_file (i : FileId) (f : FileInfo → FileInfo) : M unit :=
  _ <- get_file i ;; modify (λ kb, set_files (alter f i (files kb)) kb).

(** [new SymbolInfo(...)] / [new FileInfo(...)]: a fresh reference. *)
Definition alloc_sym (s : SymbolInfo) : M Sym :=
  λ kb, Some (length (syms kb), set_syms (syms kb ++ [s]) kb).

Definition alloc_file (f : FileInfo) : M FileId :=
  λ kb, Some (length (files kb), set_files (files kb ++ [f]) kb).

Definition markDirty (i : Sym) : M unit := modify_sym i bump_serial.

Definition file_markDirty (i : FileId) : M unit :=
  modify_file i (λ f, mkFileInfo (path f) (fi_analyzed f) (fileSymbolDefs f)
                                 (fileSymbolDecls f) (S (fi_serial f))).

(** Modelled from the spec: [SymbolInfo.updatePrettyNameFrom] and
    [SymbolInfo.updateSyntaxKindFrom] are not among the sources; they
    back-fill the pretty name and record the syntax kind. *)
Definition updatePrettyNameFrom (i : Sym) (p : option string) : M unit :=
  modify_sym i (upd_pretty p).

Definition updateSyntaxKindFrom (i : Sym) (k : option string) : M unit :=
  modify_sym i (upd_syntax k).

(** *** [_analyzeSymbol], up to its first [await] *)

(** The template string [`symbol:${symInfo.rawName}`]. *)
Definition search_query (raw : option string) : string :=
  String.append "symbol:" (default "null" raw).

(** Calling [_analyzeSymbol] issues the search at once and leaves the
    activation suspended; the call evaluates to the activation's promise. *)
Definition analyzeSymbol_start (symInfo : Sym) (analyzeHops : JS.value) : M Promise :=
  s <- get_sym symInfo ;;
  modify (λ kb, set_searches (searches kb ++ [(symInfo, search_query (rawName s))]) kb) ;;
  p <- gets nextPromise ;;
  modify (λ kb, set_nextPromise (S p) kb) ;;
  modify (λ kb, set_tasks (tasks kb ++ [AnalyzeAwaitingSearch p symInfo analyzeHops]) kb) ;;
  ret p.

(** *** [ensureSymbolAnalysis] *)

(** What the call hands back at once: the promise of an [async] function
    that has returned [symInfo], one that has returned the pending
    [symInfo.analyzing], or one that is suspended at its [await]. *)
Inductive ensure_result : Type :=
| Returned (symInfo : Sym)
| ReturnedPending (p : Promise)
| Suspended (p : Promise).

Fixpoint ensure_rec (fuel : nat) (symInfo : Sym) (analyzeHops : JS.value) : M ensure_result :=
  match fuel with
  | O => fail
  | S fuel' =>
    modify (λ kb, set_ensureCalls (ensureCalls kb ++ [(symInfo, analyzeHops)]) kb) ;;
    let clampedLevel := JS.min2 analyzeHops in
    s <- get_sym symInfo ;;
    if JS.truthy (analyzed s) then
      when (JS.lt (analyzed s) clampedLevel) (
        modify_sym symInfo (upd_analyzed clampedLevel) ;;
        (* we need to trigger analysis for all symbols in the graph. *)
        s1 <- get_sym symInfo ;;
        when (length (outEdges s1) <? EDGE_SANITY_LIMIT)%nat
          (forM_ (outEdges s1) (λ otherSym,
             _ <- ensure_rec fuel' otherSym (JS.minus1 analyzeHops) ;; ret tt)) ;;
        s2 <- get_sym symInfo ;;
        when (length (inEdges s2) <? EDGE_SANITY_LIMIT)%nat
          (forM_ (inEdges s2) (λ otherSym,
             _ <- ensure_rec fuel' otherSym (JS.minus1 analyzeHops) ;; ret tt))) ;;
      ret (Returned symInfo)
    else
      match analyzing s with
      | Some p => ret (ReturnedPending p)
      | None =>
        p <- analyzeSymbol_start symInfo analyzeHops ;;
        modify_sym symInfo (upd_analyzing (Some p)) ;;
        modify (λ kb, set_analyzingSymbols (set_add symInfo (analyzingSymbols kb)) kb) ;;
        (* await symInfo.analyzing *)
        modify (λ kb, set_tasks (tasks kb ++ [EnsureAwaitingAnalysis p symInfo clampedLevel]) kb) ;;
        ret (Suspended p)
      end
  end.

(** The cascade over known edges recurses with [analyzeHops - 1] and only
    through symbols whose level is a number below the budget, so its
    depth is bounded by the distance from the lowest recorded level to
    the budget. *)
Definition lowest_level (h : Z) (l : list SymbolInfo) : Z :=
  foldr (λ s acc, match JS.toNumber (analyzed s) with
                  | Some z => Z.min z acc
                  | None => acc
                  end) h l.

Definition cascade_fuel (kb : KB) (analyzeHops : JS.value) : nat :=
  match JS.toNumber analyzeHops with
  | Some h => S (Z.to_nat (h - lowest_level h (syms kb)))
  | None => 1
  end.

Definition ensureSymbolAnalysis (symInfo : Sym) (analyzeHops : JS.value) : M ensure_result :=
  λ kb, ensure_rec (cascade_fuel kb analyzeHops) symInfo analyzeHops kb.

(** The rest of [ensureSymbolAnalysis] after [await symInfo.analyzing]. *)
Definition ensure_resume (symInfo : Sym) (clampedLevel : JS.value) : M unit :=
  modify_sym symInfo (upd_analyzing None) ;;
  modify_sym symInfo (upd_analyzed clampedLevel) ;;
  modify (λ kb, set_analyzingSymbols (set_delete symInfo (analyzingSymbols kb)) kb) ;;
  markDirty symInfo.

(** *** [lookupRawSymbol] *)

Definition lookupRawSymbol (raw : option string) (doAnalyze : JS.value)
    (pretty : option string) (opts : option Opts) : M Sym :=
  let raw := normalizeSymbol raw in (* deal with comma-delimited symbols. *)
  cached <- gets (λ kb, symbolsByRawName kb !! raw) ;;
  match cached with
  | Some symInfo =>
    s <- get_sym symInfo ;;
    when (JS.truthy_str pretty && negb (JS.truthy_str (prettyName s)))
      (updatePrettyNameFrom symInfo pretty) ;;
    when (JS.truthy doAnalyze)
      (_ <- ensureSymbolAnalysis symInfo JS.VUndefined ;; ret tt) ;;
    ret symInfo
  | None =>
    symInfo <- alloc_sym (new_SymbolInfo raw pretty opts) ;;
    modify (λ kb, set_symbolsByRawName (<[raw := symInfo]> (symbolsByRawName kb)) kb) ;;
    when (JS.truthy doAnalyze) (
      let hops := if JS.is_true doAnalyze then JS.VNum 1 else doAnalyze in
      _ <- ensureSymbolAnalysis symInfo hops ;; ret tt) ;;
    ret symInfo
  end.

(** *** [ensureFileAnalysis] *)

Definition ensureFileAnalysis (p : string) : M FileId :=
  known <- gets (λ kb, filesByPath kb !! p) ;;
  hit <- match known with
         | Some fi => f <- get_file fi ;; ret (if fi_analyzed f then Some fi else None)
         | None => ret None
         end ;;
  match hit with
  | Some fi => ret fi
  | None =>
    fi <- alloc_file (new_FileInfo p) ;;
    modify (λ kb, set_filesByPath (<[p := fi]> (filesByPath kb)) kb) ;;
    modify_file fi (λ f, mkFileInfo (path f) true (fileSymbolDefs f) (fileSymbolDecls f) (fi_serial f)) ;;
    file_markDirty fi ;;
    ret fi
  end.

(** *** [_analyzeSymbol], after the search has answered *)

Definition consume_consumes (symInfo : Sym) (analyzeHops : JS.value) (consumedInfo : Consumed) : M unit :=
  consumedSym <- lookupRawSymbol (normalizeSymbol (c_sym consumedInfo)) (JS.minus1 analyzeHops)
                   (c_pretty consumedInfo)
                   (Some (mkOpts None None None (c_syntax consumedInfo))) ;;
  modify_sym symInfo (upd_out (set_add consumedSym)) ;;
  markDirty symInfo ;;
  modify_sym consumedSym (upd_in (set_add symInfo)) ;;
  markDirty consumedSym.

Definition consume_use (symInfo : Sym) (analyzeHops : JS.value) (pathLines : PathLines)
    (lineResult : LineResult) : M unit :=
  when (JS.truthy_str (contextsym lineResult)) (
    contextSym <- lookupRawSymbol (normalizeSymbol (contextsym lineResult)) (JS.minus1 analyzeHops)
                    (context lineResult)
                    (Some (mkOpts (Some (pl_path pathLines)) None None (Some "function"))) ;;
    modify_sym symInfo (upd_in (set_add contextSym)) ;;
    markDirty symInfo ;;
    modify_sym contextSym (upd_out (set_add symInfo)) ;;
    markDirty contextSym).

Definition consume_useGroup (symInfo : Sym) (analyzeHops : JS.value)
    (useType : string) (pathLinesArray : list PathLines) : M unit :=
  if bool_decide (useType = "defs") then
    s <- get_sym symInfo ;;
    match pathLinesArray, sourceFileInfo s with
    | [pl], None =>
      fi <- ensureFileAnalysis (pl_path pl) ;;
      modify_sym symInfo (upd_sourceFile (Some fi)) ;;
      modify_file fi (λ f, mkFileInfo (path f) (fi_analyzed f) (set_add symInfo (fileSymbolDefs f))
                                      (fileSymbolDecls f) (fi_serial f)) ;;
      file_markDirty fi
    | _, _ => ret tt
    end
  else if bool_decide (useType = "decls") then
    s <- get_sym symInfo ;;
    match pathLinesArray, declFileInfo s with
    | [pl], None =>
      fi <- ensureFileAnalysis (pl_path pl) ;;
      modify_sym symInfo (upd_declFile (Some fi)) ;;
      modify_file fi (λ f, mkFileInfo (path f) (fi_analyzed f) (fileSymbolDefs f)
                                      (set_add symInfo (fileSymbolDecls f)) (fi_serial f)) ;;
      file_markDirty fi
    | _, _ => ret tt
    end
  else if bool_decide (useType = "uses") then
    forM_ pathLinesArray (λ pathLines,
      forM_ (pl_lines pathLines) (consume_use symInfo analyzeHops pathLines))
  else ret tt.

Definition consume_result (symInfo : Sym) (analyzeHops : JS.value) (rawSymInfo : RawSymInfo) : M unit :=
  s <- get_sym symInfo ;;
  if negb (bool_decide (Some (rs_symbol rawSymInfo) = rawName s)) then
    ret tt (* ignoring search result ... received from lookup of ... *)
  else
    match rs_meta rawSymInfo with
    | Some syntax => updateSyntaxKindFrom symInfo syntax
    | None => ret tt
    end ;;
    match rs_consumes rawSymInfo with
    | Some consumes => forM_ consumes (consume_consumes symInfo analyzeHops)
    | None => ret tt
    end ;;
    match rs_hits rawSymInfo with
    | Some hits =>
      forM_ hits (λ '(pathKind, useGroups),
        forM_ useGroups (λ '(useType, pathLinesArray),
          consume_useGroup symInfo analyzeHops useType pathLinesArray))
    | None => ret tt
    end.

Definition analyzeSymbol_resume (symInfo : Sym) (analyzeHops : JS.value)
    (semantic : SearchResults) : M unit :=
  forM_ semantic (λ '(rawSym, rawSymInfo), consume_result symInfo analyzeHops rawSymInfo).

(** *** The event loop

    Between two suspension points the code runs to completion.  What can
    happen next is a call from the UI, the answer of a search, or the
    resumption of an [ensureSymbolAnalysis] whose awaited analysis has
    finished. *)

Inductive event : Type :=
| CallLookupRawSymbol (raw : option string) (doAnalyze : JS.value)
    (pretty : option string) (opts : option Opts)
| CallEnsureSymbolAnalysis (symInfo : Sym) (analyzeHops : JS.value)
| CallEnsureFileAnalysis (p : string)
| SearchReply (p : Promise) (semantic : SearchResults)
| Resume (p : Promise).

Fixpoint take_analyze (p : Promise) (ts : list task) : option (Sym * JS.value * list task) :=
  match ts with
  | [] => None
  | AnalyzeAwaitingSearch q sym hops :: ts' =>
    if decide (p = q) then Some (sym, hops, ts')
    else '(r, ts'') ← take_analyze p ts'; Some (r, AnalyzeAwaitingSearch q sym hops :: ts'')
  | t :: ts' => '(r, ts'') ← take_analyze p ts'; Some (r, t :: ts'')
  end.

Fixpoint take_ensure (p : Promise) (ts : list task) : option (Sym * JS.value * list task) :=
  match ts with
  | [] => None
  | EnsureAwaitingAnalysis q sym lvl :: ts' =>
    if decide (p = q) then Some (sym, lvl, ts')
    else '(r, ts'') ← take_ensure p ts'; Some (r, EnsureAwaitingAnalysis q sym lvl :: ts'')
  | t :: ts' => '(r, ts'') ← take_ensure p ts'; Some (r, t :: ts'')
  end.

Definition step (ev : event) : M unit :=
  match ev with
  | CallLookupRawSymbol raw doAnalyze pretty opts =>
    _ <- lookupRawSymbol raw doAnalyze pretty opts ;; ret tt
  | CallEnsureSymbolAnalysis symInfo analyzeHops =>
    _ <- ensureSymbolAnalysis symInfo analyzeHops ;; ret tt
  | CallEnsureFileAnalysis p =>
    _ <- ensureFileAnalysis p ;; ret tt
  | SearchReply p semantic =>
    t <- lift_opt (λ kb, take_analyze p (tasks kb)) ;;
    let '(symInfo, analyzeHops, rest) := t in
    modify (set_tasks rest) ;;
    analyzeSymbol_resume symInfo analyzeHops semantic ;;
    modify (λ kb, set_settled (p :: settled kb) kb)
  | Resume p =>
    t <- lift_opt (λ kb, take_ensure p (tasks kb)) ;;
    let '(symInfo, clampedLevel, rest) := t in
    ok <- gets (λ kb, bool_decide (p ∈ settled kb)) ;;
    if ok : bool then modify (set_tasks rest) ;; ensure_resume symInfo clampedLevel
    else fail
  end.

Fixpoint run (evs : list event) : M unit :=
  match evs with
  | [] => ret tt
  | ev :: evs' => step ev ;; run evs'
  end.

(** The states a knowledge base can be in. *)
Definition reachable (kb : KB) : Prop :=
  ∃ evs, run evs empty = Some (tt, kb).

End KnowledgeBase.

Import KnowledgeBase.

(** ** [TransitiveCallDoodler.doodleCalls] *)

Module TransitiveCallDoodler.

Definition MAX_CALL_BRANCHING : nat := 12.

(** The styling string [color="red"]. *)
Definition dquote : string := String (Ascii.ascii_of_nat 34) EmptyString.

Definition color_red : string :=
  String.append "color=" (String.append dquote (String.append "red" dquote)).

(** What the doodler asks of its collaborators: analysis requests to the
    knowledge base and drawing requests to the diagram, in order. *)
Inductive request : Type :=
| EnsureSymbolAnalysis (sym : nat) (analysisMode : string)
| StyleNode (sym : nat) (styling : string)
| EnsureEdge (from to : nat).

#[global] Instance request_eq_dec : EqDecision request.
Proof. solve_decision. Defined.

Record state : Type := mkState {
  considered : list nat;
  toTraverse : list nat;
  overloadBailed : list nat;
  requests : list request;
  (* Ghost history: every symbol put in [toTraverse], in order. *)
  enqueued : list nat;
}.

Section Doodle.

(** The [SymbolInfo] members the doodler reads are not among the
    sources; they are parameters.  The call-edge sets are read after an
    [await], so what a visit sees may depend on when it happens: the
    sets are indexed by the number of the visit. *)
Variable isSameDirectoryAs : nat → nat → bool.

Variable isHackGeneratedIPC : nat → bool.

Variable callsOutTo : nat → nat → list nat.

Variable receivesCallsFrom : nat → nat → list nat.

Variables (rootSym : nat) (callsOut limitToModule : bool).

Definition analysisMode : string := if callsOut then "calls-out" else "calls-in".

(** [Array.from(curSym[callsPropName])] *)
Definition calls_of (visitNo curSym : nat) : list nat :=
  if callsOut then callsOutTo visitNo curSym else receivesCallsFrom visitNo curSym.

(** The [calls.filter(...)] of the [limitToModule] case: what it keeps,
    and what its callback pushes on [leafCalls]. *)
Definition in_module_calls (calls : list nat) : list nat :=
  if limitToModule then filter (λ otherSym, isSameDirectoryAs rootSym otherSym = true) calls
  else calls.

Definition leaf_calls (calls : list nat) : list nat :=
  if limitToModule then
    filter (λ otherSym, isSameDirectoryAs rootSym otherSym = false
                        ∧ isHackGeneratedIPC otherSym = true) calls
  else [].

(** [diagram.ensureEdge(curSym, nextSym)] or the reverse. *)
Definition edge_request (curSym nextSym : nat) : request :=
  if callsOut then EnsureEdge curSym nextSym else EnsureEdge nextSym curSym.

(** One round of [for (const nextSym of calls)]. *)
Definition follow_call (curSym : nat) (st : state) (nextSym : nat) : state :=
  let st := mkState (considered st) (toTraverse st) (overloadBailed st)
                    (requests st ++ [edge_request curSym nextSym]) (enqueued st) in
  if set_has nextSym (considered st) then st
  else mkState (set_add nextSym (considered st)) (toTraverse st ++ [nextSym])
               (overloadBailed st) (requests st) (enqueued st ++ [nextSym]).

(** One round of [for (const nextSym of leafCalls)]. *)
Definition draw_leaf (curSym : nat) (st : state) (nextSym : nat) : state :=
  mkState (considered st) (toTraverse st) (overloadBailed st)
          (requests st ++ [edge_request curSym nextSym]) (enqueued st).

(** The body of [while (toTraverse.length)] for the visit numbered
    [visitNo], once [curSym] has been shifted off the worklist. *)
Definition visit (visitNo curSym : nat) (st : state) : state :=
  let st := mkState (considered st) (toTraverse st) (overloadBailed st)
                    (requests st ++ [EnsureSymbolAnalysis curSym analysisMode]) (enqueued st) in
  let calls := in_module_calls (calls_of visitNo curSym) in
  let leafCalls := leaf_calls (calls_of visitNo curSym) in
  if (MAX_CALL_BRANCHING <? length calls)%nat then
    mkState (considered st) (toTraverse st) (set_add curSym (overloadBailed st))
            (requests st ++ [StyleNode curSym color_red]) (enqueued st)
  else
    foldl (draw_leaf curSym) (foldl (follow_call curSym) st calls) leafCalls.

Definition initial : state :=
  {| considered := []; toTraverse := [rootSym]; overloadBailed := [];
     requests := [EnsureSymbolAnalysis rootSym "context"];
     enqueued := [rootSym] |}.

(** The [while] loop; [None] when the budget of rounds runs out first. *)
Fixpoint traverse (fuel visitNo : nat) (st : state) : option state :=
  match toTraverse st with
  | [] => Some st
  | curSym :: rest =>
    match fuel with
    | O => None
    | S fuel' =>
      traverse fuel' (S visitNo)
        (visit visitNo curSym
           (mkState (considered st) rest (overloadBailed st) (requests st) (enqueued st)))
    end
  end.

Definition doodleCalls (fuel : nat) : option state := traverse fuel 0 initial.

End Doodle.

End TransitiveCallDoodler.

Import TransitiveCallDoodler.

(** ** [HierNodeGenerator._processDeferredBlock] *)

Module HierNodeGenerator.

(** A [HierNode] is named by its path from the root: children are keyed by
    name under their parent ([getOrCreateKid]), and the generator builds
    one tree, from [this.root]. *)
Abbreviation NodeId := (list string) (only parsing).

Record Edge : Type := mkEdge {
  from : NodeId;
  to : option NodeId;       (* [otherNode], which may be [undefined] *)
  kind : string;
}.

(** Modelled from the spec: the [HierNode] class ([core_diagram.js]) is not
    among the sources.  The record keeps the attributes the generator
    writes: kinds, the bound symbol, the instance-group tag (a group is
    identified by its name) and the edges anchored at the node. *)
Record HierNode : Type := mkHierNode {
  nodeKind : string;
  semanticKind : string;
  sym : option nat;
  instanceGroup : option string;
  edges : list Edge;
}.

Record InstanceGroupInfo : Type := mkInstanceGroupInfo {
  groupName : string;
  fillColor : option string;
  ig_symToNode : gmap nat NodeId;
}.

(** A deferred block, by its [type] and the two fields the third pass
    reads. *)
Record Block : Type := mkBlock {
  type : string;
  CALLS_WHAT : string;
  INST_NAME : string;
}.

Inductive warning : Type :=
| FailedToResolveCallId (callName : string)
| UnableToFindCallTarget (callSym : nat)
| SkippingEdge (parentNode : NodeId) (otherNode : option NodeId).

Record Gen : Type := mkGen {
  varMap : gmap string string;               (* variable id ↦ variable name *)
  idToSym : gmap string nat;
  symToNode : gmap nat NodeId;               (* global, non-instanced *)
  instanceGroupsByName : gmap string InstanceGroupInfo;
  nodes : gmap NodeId HierNode;
  console : list warning;
}.

Definition warn (w : warning) (g : Gen) : Gen :=
  mkGen (varMap g) (idToSym g) (symToNode g) (instanceGroupsByName g) (nodes g)
        (console g ++ [w]).

Definition push_edge (anchor : NodeId) (e : Edge) (g : Gen) : Gen :=
  mkGen (varMap g) (idToSym g) (symToNode g) (instanceGroupsByName g)
        (alter (λ n, mkHierNode (nodeKind n) (semanticKind n) (sym n) (instanceGroup n)
                                (edges n ++ [e])) anchor (nodes g))
        (console g).

(** The longest common prefix of two paths. *)
Fixpoint common_prefix (a b : NodeId) : NodeId :=
  match a, b with
  | x :: a', y :: b' => if decide (x = y) then x :: common_prefix a' b' else []
  | _, _ => []
  end.

(** Modelled from the spec: [HierNode.findCommonAncestor] ([core_diagram.js])
    is not among the sources.  It walks the ancestor chains to the lowest
    node that dominates both nodes and returns [null] when there is none;
    a missing node has no ancestor chain. *)
Definition findCommonAncestor (nodeA : NodeId) (nodeB : option NodeId) : option NodeId :=
  match nodeB with
  | Some b => Some (common_prefix nodeA b)
  | None => None
  end.

(** The outcome of a call that may [throw]. *)
Inductive result (A : Type) : Type :=
| Ok (a : A)
| Throw (message : string).

Arguments Ok {A} a.

Arguments Throw {A} message.

(** Lines 321-329: where the call target is looked for. *)
Definition lookup_target (g : Gen) (explicitInstanceGroup : option InstanceGroupInfo)
    (parentGroup : option string) (callSym : nat) : option NodeId :=
  let otherNode :=
    match explicitInstanceGroup with
    | Some ig => ig_symToNode ig !! callSym
    | None =>
      match parentGroup with
      | Some name => instanceGroupsByName g !! name ≫= λ ig, ig_symToNode ig !! callSym
      | None => None
      end
    end in
  match explicitInstanceGroup, otherNode with
  | None, None => symToNode g !! callSym
  | _, _ => otherNode
  end.

(** The closure [edgeCommon]. *)
Definition edgeCommon (block : Block) (parentNode : NodeId)
    (explicitInstanceGroup : option InstanceGroupInfo) (g : Gen) : result Gen :=
  match varMap g !! CALLS_WHAT block with
  | None => Throw "callVar is null"
  | Some callName =>
    match idToSym g !! callName with
    | None => Ok (warn (FailedToResolveCallId callName) g)
    | Some callSym =>
      let parentGroup := nodes g !! parentNode ≫= instanceGroup in
      let otherNode := lookup_target g explicitInstanceGroup parentGroup callSym in
      let g := match otherNode with
               | None => warn (UnableToFindCallTarget callSym) g
               | Some _ => g
               end in
      match findCommonAncestor parentNode otherNode with
      | Some ancestorNode =>
        Ok (push_edge ancestorNode (mkEdge parentNode otherNode "call") g)
      | None => Ok (warn (SkippingEdge parentNode otherNode) g)
      end
    end
  end.

Definition _processDeferredBlock (block : Block) (parentNode : NodeId) (g : Gen) : result Gen :=
  if decide (type block = "edge_instance_call") then
    match varMap g !! INST_NAME block with
    | None => Throw "igVar is null"
    | Some igName => edgeCommon block parentNode (instanceGroupsByName g !! igName) g
    end
  else if decide (type block = "edge_call") then
    edgeCommon block parentNode None g
  else Throw (String.append "unsupported block type: " (type block)).

End HierNodeGenerator.

Import HierNodeGenerator.

(** ** [SessionTrack] *)

Module SessionTrack.

(** A [SessionThing] and a session-meta object are references into the
    heap; the track holds references. *)
Abbreviation ThingRef := nat (only parsing).

Abbreviation MetaRef := nat (only parsing).

(** The one attribute of a session-meta object the track reads and writes. *)
Record SessionMeta : Type := mkSessionMeta {
  selected : bool;
}.

(** [new SessionThing(track, id, type, binding, persisted, sessionMeta)]:
    the class lives in [session_thing.js]; the record keeps the
    constructor's arguments [id], [type], [persisted] and [sessionMeta], the
    last two being what the track reads back as [thing.persisted] and
    [thing.sessionMeta]. *)
Record SessionThing : Type := mkSessionThing {
  id : Z;
  type : string;
  persisted : option string;
  sessionMeta : MetaRef;
}.

(** What [typeof] and a property read tell about [manager.bindings[type]]. *)
Inductive Binding : Type :=
| NotAnObject                       (* [typeof binding !== 'object'] *)
| NullBinding                       (* [null], whose [typeof] is ['object'] *)
| ObjectBinding (makeModelIsFunction : bool).

(** The calls the track makes on its collaborators (the manager, the
    things, its own listeners, the console), in order. *)
Inductive effect : Type :=
| UpdatePersistedState (thing : ThingRef) (newState : option string) (meta : MetaRef)
| StoreUpdatedSessionMeta (thing : ThingRef)
| SessionThingAdded (thing : ThingRef)
| SessionThingRemoved (thing : ThingRef)
| EmitDirty (withTrack : bool)
| AllocId
| MakeDefaultSessionMeta
| ConsoleWarn (message : string).

#[global] Instance effect_eq_dec : EqDecision effect.
Proof. solve_decision. Defined.

(** The track, the part of the heap it reaches, and the history of its
    calls. *)
Record Track : Type := mkTrack {
  things : list ThingRef;
  selectedThing : option ThingRef;
  temporarilySelectedThing : option ThingRef;
  serial : nat;
  heap : list SessionThing;
  metas : list SessionMeta;
  log : list effect;
}.

(** [new SessionTrack(manager, name, trackSettings)] *)
Definition new_SessionTrack (metas : list SessionMeta) : Track :=
  {| things := []; selectedThing := None; temporarilySelectedThing := None;
     serial := 0; heap := []; metas := metas; log := [] |}.

Definition set_things (v : list ThingRef) (t : Track) : Track :=
  mkTrack v (selectedThing t) (temporarilySelectedThing t) (serial t) (heap t) (metas t) (log t).

Definition set_selectedThing (v : option ThingRef) (t : Track) : Track :=
  mkTrack (things t) v (temporarilySelectedThing t) (serial t) (heap t) (metas t) (log t).

Definition set_temporarilySelectedThing (v : option ThingRef) (t : Track) : Track :=
  mkTrack (things t) (selectedThing t) v (serial t) (heap t) (metas t) (log t).

Definition set_serial (v : nat) (t : Track) : Track :=
  mkTrack (things t) (selectedThing t) (temporarilySelectedThing t) v (heap t) (metas t) (log t).

Definition set_heap (v : list SessionThing) (t : Track) : Track :=
  mkTrack (things t) (selectedThing t) (temporarilySelectedThing t) (serial t) v (metas t) (log t).

Definition set_metas (v : list SessionMeta) (t : Track) : Track :=
  mkTrack (things t) (selectedThing t) (temporarilySelectedThing t) (serial t) (heap t) v (log t).

Definition emit (e : effect) (t : Track) : Track :=
  mkTrack (things t) (selectedThing t) (temporarilySelectedThing t) (serial t) (heap t) (metas t)
          (log t ++ [e]).

(** How a call ends: it returns, it throws (the state is what the call
    had done by then), or it reads through a reference that is not in the
    heap. *)
Inductive outcome (A : Type) : Type :=
| Returns (a : A) (t : Track)
| Throws (message : string) (t : Track)
| Dangling.

Arguments Returns {A} a t.

Arguments Throws {A} message t.

Arguments Dangling {A}.

(** [this.things.indexOf(thing)]; [None] is [-1]. *)
Definition indexOf (thing : ThingRef) (l : list ThingRef) : option nat :=
  fst <$> list_find (λ y, y = thing) l.

(** [l.splice(idx, 0, x)] *)
Definition splice_in (idx : nat) (x : ThingRef) (l : list ThingRef) : list ThingRef :=
  take idx l ++ x :: drop idx l.

(** [updatePersistedState(thing, newState, sessionMeta)] *)
Definition updatePersistedState (thing : ThingRef) (newState : option string) (meta : MetaRef)
    (t : Track) : Track :=
  emit (UpdatePersistedState thing newState meta) t.

(** [_updatePersistedThingsBecauseOfOrderingChange(newThingToIgnore)] *)
Definition _updatePersistedThingsBecauseOfOrderingChange (newThingToIgnore : option ThingRef)
    (t : Track) : option Track :=
  foldl (λ acc thing,
           t' ← acc;
           (* We can skip the thing we just wrote. *)
           if decide (Some thing = newThingToIgnore) then Some t'
           else x ← heap t' !! thing;
                Some (updatePersistedState thing (persisted x) (sessionMeta x) t'))
        (Some t) (things t).

(** [computeTabbedThingToDisplay()] *)
Definition computeTabbedThingToDisplay (t : Track) : option ThingRef * Track :=
  let thing := match temporarilySelectedThing t with
               | Some x => Some x
               | None => selectedThing t
               end in
  let t := match thing, things t with
           | None, first :: _ => set_selectedThing (Some first) t
           | _, _ => t
           end in
  (thing, t).

(** [computeTabbedOccludedThing()] *)
Definition computeTabbedOccludedThing (t : Track) : option ThingRef :=
  match temporarilySelectedThing t, selectedThing t with
  | Some _, Some s => Some s
  | _, _ => None
  end.

(** [thing.sessionMeta.selected = v] *)
Definition set_selected (thing : ThingRef) (v : bool) (t : Track) : option Track :=
  x ← heap t !! thing;
  _ ← metas t !! sessionMeta x;
  Some (set_metas (<[sessionMeta x := mkSessionMeta v]> (metas t)) t).

(** [selectThing(thing)] *)
Definition selectThing (thing : ThingRef) (t : Track) : outcome unit :=
  if decide (selectedThing t = Some thing) then Returns tt t
  else
    let unselected :=
      match selectedThing t with
      | Some oldThing =>
        emit (StoreUpdatedSessionMeta oldThing) <$> set_selected oldThing false t
      | None => Some t
      end in
    match unselected ≫= λ t, set_selected thing true (set_selectedThing (Some thing) t) with
    | Some t =>
      let t := emit (StoreUpdatedSessionMeta thing) t in
      Returns tt (emit (EmitDirty true) (set_serial (S (serial t)) t))
    | None => Dangling
    end.

(** [temporarilySelectThing(thing)] *)
Definition temporarilySelectThing (thing : option ThingRef) (t : Track) : Track :=
  let t := set_temporarilySelectedThing thing t in
  emit (EmitDirty true) (set_serial (S (serial t)) t).

(** The argument object of [addThing]. *)
Record Params : Type := mkParams {
  position : option string;
  p_type : string;
  p_persisted : option string;
  p_sessionMeta : option MetaRef;
  restored : bool;
}.

(** What the manager answers when [addThing] asks it: the id [allocId()]
    returns, the object [makeDefaultSessionMeta()] returns, and its
    [bindings]. *)
Record Manager : Type := mkManager {
  allocId : Z;
  makeDefaultSessionMeta : MetaRef;
  bindings : gmap string Binding;
}.

(** [!useId]: [null], [undefined] and [0] are falsy. *)
Definition falsy_id (useId : option Z) : bool :=
  match useId with
  | None => true
  | Some z => z =? 0
  end.

Definition targetIdx (relThing : option ThingRef) (position : option string)
    (l : list ThingRef) : nat :=
  if decide (position = Some "end"%string) then length l
  else if decide (position = Some "start"%string) then 0%nat
  else match relThing with
       | None => length l
       | Some r =>
         match indexOf r l with
         | None => length l
         | Some idx =>
           (* otherwise we're placing it before by using the existing sheet's index. *)
           if decide (position = Some "after"%string) then S idx else idx
         end
       end.

(** [addThing(relThing, useId, { position, type, persisted, sessionMeta, restored })] *)
Definition addThing (manager : Manager) (relThing : option ThingRef) (useId : option Z)
    (params : Params) (t : Track) : outcome ThingRef :=
  let t := if falsy_id useId then emit AllocId t else t in
  let useId := if falsy_id useId then allocId manager else default 0 useId in
  let t := match p_sessionMeta params with
           | Some _ => t
           | None => emit MakeDefaultSessionMeta t
           end in
  let sessionMeta := default (makeDefaultSessionMeta manager) (p_sessionMeta params) in
  let targetIdx := targetIdx relThing (position params) (things t) in
  let orderingChange := (targetIdx <? length (things t))%nat in
  match bindings manager !! p_type params with
  | None | Some NotAnObject =>
    Throws "binding wasn't an object" (emit (ConsoleWarn "binding not a dictionary for type:") t)
  | Some NullBinding => Throws "TypeError" t
  | Some (ObjectBinding false) =>
    Throws "binding makeModel wasn't a function" (emit (ConsoleWarn "makeModel not a function:") t)
  | Some (ObjectBinding true) =>
    let thing := length (heap t) in
    let t := set_heap (heap t ++ [mkSessionThing useId (p_type params) (p_persisted params)
                                     sessionMeta]) t in
    let t := set_things (splice_in targetIdx thing (things t)) t in
    (* Write-through to the database if this didn't come from the database. *)
    let t := if restored params then t
             else updatePersistedState thing (p_persisted params) sessionMeta t in
    let swept := if orderingChange then _updatePersistedThingsBecauseOfOrderingChange None t
                 else Some t in
    match swept, metas t !! sessionMeta with
    | Some t, Some meta =>
      let t := if selected meta then set_selectedThing (Some thing) t else t in
      let t := emit (SessionThingAdded thing) t in
      Returns thing (emit (EmitDirty true) (set_serial (S (serial t)) t))
    | _, _ => Dangling
    end
  end.

(** [ensureThing(params)] *)
Definition ensureThing (manager : Manager) (params : Params) (t : Track) : outcome ThingRef :=
  match things t with
  | first :: _ => Returns first t
  | [] => addThing manager None None params t
  end.

(** [removeThing(thing)] *)
Definition removeThing (thing : ThingRef) (t : Track) : Track :=
  match indexOf thing (things t) with
  | Some idx =>
    let t := set_things (delete idx (things t)) t in
    let t := emit (SessionThingRemoved thing) t in
    emit (EmitDirty true) (set_serial (S (serial t)) t)
  | None => t
  end.

(** [sessionThingReplaced()] *)
Definition sessionThingReplaced (t : Track) : Track :=
  emit (EmitDirty false) (set_serial (S (serial t)) t).

End SessionTrack.


(** ** [GrokAnalysisFrontend]: the message bridge to the backend *)

Module Frontend.

(** Payloads cross the bridge untouched; the bridge never looks inside. *)
Abbreviation Payload := string (only parsing).

(** A promise made by [_sendAndAwaitReply].  Its [resolve] and [reject]
    are what the table of awaited replies keeps. *)
Inductive PromiseState : Type :=
| Pending
| Fulfilled (value : Payload)
| Rejected (reason : Payload).

#[global] Instance PromiseState_eq_dec : EqDecision PromiseState.
Proof. solve_decision. Defined.

(** The argument of [this._port.postMessage]. *)
Record Message : Type := mkMessage {
  type : string;
  msgId : Z;
  payload : Payload;
}.

(** [evt.data] of a message event of the port. *)
Record Data : Type := mkData {
  d_type : string;
  d_msgId : Z;
  d_payload : Payload;
  success : bool;
}.

Inductive ConsoleLine : Type :=
| LogRequest (msgId : Z) (type : string) (payload : Payload)
| LogReply (msgId : Z) (type : string) (payload : Payload)
| WarnNoEntry (data : Data)         (* "Got reply without map entry:" *)
| ErrorProcessing (data : Data).    (* "Problem processing message of type ..." *)

(** The bridge's part of the frontend object, the promises it has made,
    and what it has sent, printed and handed on. *)
Record Frontend : Type := mkFrontend {
  _awaitingReplies : gmap Z nat;
  _nextMsgId : Z;
  promises : list PromiseState;
  posted : list Message;
  console : list ConsoleLine;
  initCompleted : list Payload;     (* the calls of [_initCompleted] *)
}.

Definition set_awaitingReplies (v : gmap Z nat) (fe : Frontend) : Frontend :=
  mkFrontend v (_nextMsgId fe) (promises fe) (posted fe) (console fe) (initCompleted fe).

Definition set_nextMsgId (v : Z) (fe : Frontend) : Frontend :=
  mkFrontend (_awaitingReplies fe) v (promises fe) (posted fe) (console fe) (initCompleted fe).

Definition set_promises (v : list PromiseState) (fe : Frontend) : Frontend :=
  mkFrontend (_awaitingReplies fe) (_nextMsgId fe) v (posted fe) (console fe) (initCompleted fe).

Definition postMessage (m : Message) (fe : Frontend) : Frontend :=
  mkFrontend (_awaitingReplies fe) (_nextMsgId fe) (promises fe) (posted fe ++ [m]) (console fe)
             (initCompleted fe).

Definition print (l : ConsoleLine) (fe : Frontend) : Frontend :=
  mkFrontend (_awaitingReplies fe) (_nextMsgId fe) (promises fe) (posted fe) (console fe ++ [l])
             (initCompleted fe).

Definition _initCompleted (initData : Payload) (fe : Frontend) : Frontend :=
  mkFrontend (_awaitingReplies fe) (_nextMsgId fe) (promises fe) (posted fe) (console fe)
             (initCompleted fe ++ [initData]).

(** [n++] on a number: exact below [2^53], where adding one is lost to
    rounding. *)
Definition incr (n : Z) : Z := if n <? 2 ^ 53 then n + 1 else n.

(** The promise of the constructor's ["init"] request, the first one made;
    it is the one promise the bridge itself has put a reaction on:
    [.then((initData) => { this._initCompleted(initData); })]. *)
Definition init_promise : nat := 0.

(** [resolve(payload)] and [reject(payload)]: a promise settles once.  The
    reaction on the init promise is a job of its own, run when the listener
    that resolved the promise has returned and before the next message is
    handled; it is recorded here where it is scheduled. *)
Definition resolve (p : nat) (value : Payload) (fe : Frontend) : Frontend :=
  match promises fe !! p with
  | Some Pending =>
    let fe := set_promises (<[p := Fulfilled value]> (promises fe)) fe in
    if decide (p = init_promise) then _initCompleted value fe else fe
  | _ => fe
  end.

Definition reject (p : nat) (reason : Payload) (fe : Frontend) : Frontend :=
  match promises fe !! p with
  | Some Pending => set_promises (<[p := Rejected reason]> (promises fe)) fe
  | _ => fe
  end.

(** [_sendAndAwaitReply(type, payload)], with the value of
    [window.DEBUG_GROKYSIS_BRIDGE] at the call; the result is the promise. *)
Definition _sendAndAwaitReply (debug : bool) (type : string) (payload : Payload)
    (fe : Frontend) : nat * Frontend :=
  let msgId := _nextMsgId fe in
  let fe := set_nextMsgId (incr msgId) fe in
  let fe := if debug then print (LogRequest msgId type payload) fe else fe in
  let fe := postMessage (mkMessage type msgId payload) fe in
  let promise := length (promises fe) in
  let fe := set_promises (promises fe ++ [Pending]) fe in
  (promise, set_awaitingReplies (<[msgId := promise]> (_awaitingReplies fe)) fe).

(** [_sendNoReply(type, payload)] *)
Definition _sendNoReply (type : string) (payload : Payload) (fe : Frontend) : Frontend :=
  postMessage (mkMessage type 0 payload) fe.

(** [_onMessage(evt)].  A message that is not a reply goes to
    [this["msg_" + type]]; the class has no property of such a name, so the
    call throws and the [catch] prints. *)
Definition _onMessage (debug : bool) (data : Data) (fe : Frontend) : Frontend :=
  (* -- Replies *)
  if decide (d_type data = "reply"%string) then
    match _awaitingReplies fe !! d_msgId data with
    | None => print (WarnNoEntry data) fe
    | Some promise =>
      let fe := if debug then print (LogReply (d_msgId data) (d_type data) (d_payload data)) fe
                else fe in
      if success data then resolve promise (d_payload data) fe
      else reject promise (d_payload data) fe
    end
  (* -- Everything else, none of which can be expecting a reply. *)
  else print (ErrorProcessing data) fe.

(** The bridge as the constructor leaves it: the table is empty, the next
    id is 1, and the ["init"] request is sent. *)
Definition new_GrokAnalysisFrontend (debug : bool) (treeName : Payload) : Frontend :=
  (_sendAndAwaitReply debug "init" treeName
     {| _awaitingReplies := ∅; _nextMsgId := 1; promises := []; posted := []; console := [];
        initCompleted := [] |}).2.

End Frontend.

(** * Part II: the vocabulary of the statements

    Weakest preconditions for the state monad, well-formed states, the
    relations between an earlier and a later state, and the concrete
    knowledge bases, call graphs and diagrams the statements are tried on. *)

(** ** Weakest preconditions for total correctness *)

Definition wp {A} (m : M A) (Q : A → KB → Prop) (kb : KB) : Prop :=
  ∃ a kb', m kb = Some (a, kb') ∧ Q a kb'.

(** ** Well-formed knowledge bases *)

(** A level is in order when, read as a number, it is at most 2. *)
Definition level_ok (v : JS.value) : Prop :=
  ∀ z, JS.toNumber v = Some z → z ≤ 2.

Definition task_sym (t : task) : Sym :=
  match t with
  | AnalyzeAwaitingSearch _ sym _ | EnsureAwaitingAnalysis _ sym _ => sym
  end.

Definition task_promise (t : task) : Promise :=
  match t with
  | AnalyzeAwaitingSearch p _ _ | EnsureAwaitingAnalysis p _ _ => p
  end.

(** A suspended activation refers to a live symbol and to a promise that
    has been handed out. *)
Definition task_ok (n : nat) (np : Promise) (t : task) : Prop :=
  (task_sym t < n)%nat ∧ (task_promise t < np)%nat ∧
  match t with
  | EnsureAwaitingAnalysis _ _ clampedLevel => level_ok clampedLevel
  | AnalyzeAwaitingSearch _ _ _ => True
  end.

Record wf_syms (m : gmap (option string) Sym) (ss : list SymbolInfo) : Prop := mk_wf_syms {
  (* the cache only holds live symbols, under their own raw name *)
  wf_map_valid : ∀ k i, m !! k = Some i → ∃ s, ss !! i = Some s ∧ rawName s = k;
  (* every symbol is the one the cache holds for its raw name *)
  wf_registered : ∀ i s, ss !! i = Some s → m !! rawName s = Some i;
  wf_edges_valid : ∀ i s j, ss !! i = Some s →
    j ∈ outEdges s ∨ j ∈ inEdges s → (j < length ss)%nat;
  (* edge mirroring *)
  wf_mirrored : ∀ i j si sj, ss !! i = Some si → ss !! j = Some sj →
    (j ∈ outEdges si ↔ i ∈ inEdges sj);
  wf_levels : ∀ i s, ss !! i = Some s → level_ok (analyzed s);
}.

Definition wf_tasks (n : nat) (np : Promise) (ts : list task) : Prop :=
  ∀ t, t ∈ ts → task_ok n np t.

Definition wf_files (fm : gmap string FileId) (n : nat) : Prop :=
  ∀ p f, fm !! p = Some f → (f < n)%nat.

Definition WF (kb : KB) : Prop :=
  wf_syms (symbolsByRawName kb) (syms kb) ∧
  wf_tasks (length (syms kb)) (nextPromise kb) (tasks kb) ∧
  wf_files (filesByPath kb) (length (files kb)).

(** Every numeric level is at least [L]. *)
Definition levels_ge (L : Z) (kb : KB) : Prop :=
  ∀ i s z, syms kb !! i = Some s → JS.toNumber (analyzed s) = Some z → L ≤ z.

(** The budget [n] covers a cascade started with [hops]. *)
Definition fuel_ok (L : Z) (hops : JS.value) (n : nat) : Prop :=
  (1 ≤ n)%nat ∧ ∀ h, JS.toNumber hops = Some h → h - L < Z.of_nat n.

(** The mirror law: [b] is among [a]'s out-edges exactly when [a] is among
    [b]'s in-edges. *)
Definition mirrored (kb : KB) : Prop :=
  ∀ a b sa sb, syms kb !! a = Some sa → syms kb !! b = Some sb →
    (a ∈ outEdges sb ↔ b ∈ inEdges sa).

(** The edge [a → b] is recorded on both sides. *)
Definition has_edge (kb : KB) (a b : Sym) : Prop :=
  ∃ sa sb, syms kb !! a = Some sa ∧ syms kb !! b = Some sb ∧
           b ∈ outEdges sa ∧ a ∈ inEdges sb.

(** ** Earlier and later states *)

(** Synchronous code only adds suspended activations, at the end. *)
Definition tasks_grow (kb kb' : KB) : Prop := ∃ more, tasks kb' = tasks kb ++ more.

(** What a state reached by synchronous code keeps of the state it started
    from: references stay live, a cached raw name keeps its symbol, and the
    suspended activations are still there. *)
Record ext (kb kb' : KB) : Prop := mk_ext {
  ext_syms : (length (syms kb) ≤ length (syms kb'))%nat;
  ext_map : ∀ k i, symbolsByRawName kb !! k = Some i → symbolsByRawName kb' !! k = Some i;
  ext_files : (length (files kb) ≤ length (files kb'))%nat;
  ext_tasks : tasks_grow kb kb';
}.

(** What any later state keeps, also across resumptions (which take their
    activation off the list). *)
Record later (kb kb' : KB) : Prop := mk_later {
  later_syms : (length (syms kb) ≤ length (syms kb'))%nat;
  later_map : ∀ k i, symbolsByRawName kb !! k = Some i → symbolsByRawName kb' !! k = Some i;
  later_files : (length (files kb) ≤ length (files kb'))%nat;
}.

(** A state reached by synchronous code from [kb0], with the lower bound
    on levels the cascade relies on. *)
Definition good (L : Z) (kb0 kb : KB) : Prop :=
  WF kb ∧ ext kb0 kb ∧ levels_ge L kb.

(** A well-formed state that extends [kb0]. *)
Definition ok (kb0 kb : KB) : Prop := WF kb ∧ ext kb0 kb.

(** A well-formed state that comes after [kb0]. *)
Definition ok_later (kb0 kb : KB) : Prop := WF kb ∧ later kb0 kb.

(** When an event can happen: a call passes a live symbol, a search
    answer or a resumption finds its suspended activation. *)
Definition enabled (ev : event) (kb : KB) : Prop :=
  match ev with
  | CallLookupRawSymbol _ _ _ _ | CallEnsureFileAnalysis _ => True
  | CallEnsureSymbolAnalysis symInfo _ => (symInfo < length (syms kb))%nat
  | SearchReply p _ => is_Some (take_analyze p (tasks kb))
  | Resume p => is_Some (take_ensure p (tasks kb)) ∧ p ∈ settled kb
  end.

(** The two orders in which [_analyzeSymbol] writes a mirrored pair. *)
Definition add_out_then_in (a b : Sym) (ss : list SymbolInfo) : list SymbolInfo :=
  alter bump_serial b (alter (upd_in (set_add a)) b
    (alter bump_serial a (alter (upd_out (set_add b)) a ss))).

Definition add_in_then_out (a b : Sym) (ss : list SymbolInfo) : list SymbolInfo :=
  alter bump_serial a (alter (upd_out (set_add b)) a
    (alter bump_serial b (alter (upd_in (set_add a)) b ss))).

(** ** What one call schedules, searches and records *)

(** The state a run of events leaves, when the run goes through. *)
Definition after (evs : list event) : KB :=
  match run evs empty with
  | Some (_, kb) => kb
  | None => empty
  end.

(** The calls of [ensureSymbolAnalysis] that one [lookupRawSymbol] makes. *)
Definition scheduled (kb : KB) (raw : option string) (doAnalyze : JS.value)
    (pretty : option string) (opts : option Opts) : option (nat * list (nat * JS.value)) :=
  match lookupRawSymbol raw doAnalyze pretty opts kb with
  | Some (i, kb') => Some (i, drop (length (ensureCalls kb)) (ensureCalls kb'))
  | None => None
  end.

(** The calls of [ensureSymbolAnalysis] made by one call from outside. *)
Definition cascade (kb : KB) (symInfo : nat) (hops : JS.value) : option (list (nat * JS.value)) :=
  match ensureSymbolAnalysis symInfo hops kb with
  | Some (_, kb') => Some (drop (length (ensureCalls kb)) (ensureCalls kb'))
  | None => None
  end.

(** The searches issued for symbol [i] so far. *)
Definition searches_for (i : nat) (kb : KB) : list string :=
  snd <$> filter (λ c, c.1 = i) (searches kb).

Definition level_of (i : nat) (kb : KB) : option JS.value :=
  analyzed <$> syms kb !! i.

(** ** The worklist of the doodler *)

(** After the root, the symbols enqueued are exactly the symbols marked as
    considered, in the same order and without repetition. *)
Definition enqueue_inv (rootSym : nat) (st : state) : Prop :=
  enqueued st = rootSym :: considered st ∧ NoDup (considered st).

(** All symbols in sight are below [N], and the rounds still to come are
    bounded by [m]: one per symbol waiting, one per symbol not yet
    considered. *)
Definition bounded_by (N m : nat) (st : state) : Prop :=
  (∀ x, x ∈ considered st → (x < N)%nat) ∧
  (length (toTraverse st) + N ≤ m + length (considered st))%nat.

(** The worklist is first in, first out: the symbols visited in the first
    [visitNo] rounds are the first [visitNo] symbols enqueued, in order.
    [cutoff_inv] says what these rounds have left: a visit over the cutoff
    has marked and styled its symbol; every symbol enqueued after the root
    was a kept call of an earlier visit that was not over the cutoff; and
    every edge drawn is a kept call or a leaf call of such a visit. *)
Definition cutoff_inv (isSameDirectoryAs : nat → nat → bool) (isHackGeneratedIPC : nat → bool)
    (callsOutTo receivesCallsFrom : nat → nat → list nat)
    (rootSym : nat) (callsOut limitToModule : bool) (visitNo : nat) (st : state) : Prop :=
  let kept k c := in_module_calls isSameDirectoryAs rootSym limitToModule
                    (calls_of callsOutTo receivesCallsFrom callsOut k c) in
  let leaves k c := leaf_calls isSameDirectoryAs isHackGeneratedIPC rootSym limitToModule
                      (calls_of callsOutTo receivesCallsFrom callsOut k c) in
  (∃ visited, enqueued st = visited ++ toTraverse st ∧ length visited = visitNo) ∧
  (∀ k c, (k < visitNo)%nat → enqueued st !! k = Some c →
     (MAX_CALL_BRANCHING < length (kept k c))%nat →
     c ∈ overloadBailed st ∧ StyleNode c color_red ∈ requests st) ∧
  (∀ j x, (0 < j)%nat → enqueued st !! j = Some x →
     ∃ k c, (k < j)%nat ∧ (k < visitNo)%nat ∧ enqueued st !! k = Some c ∧
            (length (kept k c) ≤ MAX_CALL_BRANCHING)%nat ∧ x ∈ kept k c) ∧
  (∀ a b, EnsureEdge a b ∈ requests st →
     ∃ k c x, (k < visitNo)%nat ∧ enqueued st !! k = Some c ∧
              (length (kept k c) ≤ MAX_CALL_BRANCHING)%nat ∧
              x ∈ kept k c ++ leaves k c ∧ EnsureEdge a b = edge_request callsOut c x).

(** ** Deferred call blocks *)

(** The instance group a deferred block names itself, if any. *)
Definition explicit_group (g : Gen) (block : Block) : option InstanceGroupInfo :=
  if decide (type block = "edge_instance_call"%string) then
    varMap g !! INST_NAME block ≫= λ igName, instanceGroupsByName g !! igName
  else None.

(** A deferred call block whose fields name variables of the workspace. *)
Definition call_block (g : Gen) (block : Block) : Prop :=
  (type block = "edge_instance_call"%string ∨ type block = "edge_call"%string) ∧
  is_Some (varMap g !! CALLS_WHAT block) ∧
  (type block = "edge_instance_call"%string → is_Some (varMap g !! INST_NAME block)).

(** The symbol a deferred block calls, when its identifier resolved. *)
Definition call_sym (g : Gen) (block : Block) : option nat :=
  varMap g !! CALLS_WHAT block ≫= λ callName, idToSym g !! callName.

(** The edge the third pass draws from [parentNode] to [otherNode]. *)
Definition call_edge (parentNode otherNode : list string) (g : Gen) : Gen :=
  push_edge (common_prefix parentNode otherNode)
            (mkEdge parentNode (Some otherNode) "call") g.

(** What the third pass does for a target it cannot find. *)
Definition dropped (parentNode : list string) (callSym : nat) (g : Gen) : Gen :=
  warn (SkippingEdge parentNode None) (warn (UnableToFindCallTarget callSym) g).

(** The look-up in the map of the group inherited from the parent node. *)
Definition inherited_lookup (g : Gen) (parentGroup : option string) (callSym : nat)
    : option (list string) :=
  match parentGroup with
  | Some name =>
    match instanceGroupsByName g !! name with
    | Some ig => ig_symToNode ig !! callSym
    | None => None
    end
  | None => None
  end.

(** ** The claims that fail, as they are stated *)


(** [C10], as the claim has it: the group's map first (explicit or
    inherited group alike), the global map as a fallback. *)
Definition group_then_global (g : Gen) (explicitInstanceGroup : option InstanceGroupInfo)
    (parentGroup : option string) (callSym : nat) : option (list string) :=
  let group :=
    match explicitInstanceGroup with
    | Some ig => Some ig
    | None => parentGroup ≫= λ name, instanceGroupsByName g !! name
    end in
  match group ≫= λ ig, ig_symToNode ig !! callSym with
  | Some node => Some node
  | None => symToNode g !! callSym
  end.

Definition lookup_falls_back_to_global : Prop :=
  ∀ g explicitInstanceGroup parentGroup callSym,
    lookup_target g explicitInstanceGroup parentGroup callSym
    = group_then_global g explicitInstanceGroup parentGroup callSym.

(** ** Knowledge bases, call graphs and diagrams to evaluate on *)

(** A knowledge base in which ["f"] was looked up with analysis and the
    search has answered with one consumed symbol and one use site. *)
Definition demo_events : list event :=
  [ CallLookupRawSymbol (Some "f"%string) (JS.VBool true) None None;
    SearchReply 0
      [ ("f"%string,
         mkRawSymInfo "f" (Some (Some "function"%string))
           (Some [mkConsumed (Some "g"%string) (Some "ns::g"%string) None])
           (Some [("normal"%string,
                   [("uses"%string,
                     [mkPathLines "dom/a.cpp"
                        [mkLineResult (Some "h,h2"%string) (Some "ns::h"%string)]])])])) ];
    Resume 0 ].

Definition demo_kb : KB := after demo_events.

(** ["f"] is cached but was never analyzed (looked up without [doAnalyze],
    as the diagram sheet does when it styles a node). *)
Definition cached_kb : KB :=
  after [CallLookupRawSymbol (Some "f"%string) JS.VUndefined None None].

(** The one-letter names [A], [B], ... *)
Definition letter (n : nat) : string := String (Ascii.ascii_of_nat (65 + n)) EmptyString.

(** ["f"] analyzed at level 1 with [n] consumed symbols, hence [n]
    out-edges. *)
Definition fan_out (n : nat) : KB :=
  after [ CallLookupRawSymbol (Some "f"%string) (JS.VBool true) None None;
          SearchReply 0
            [("f"%string,
              mkRawSymInfo "f" None
                (Some ((λ k, mkConsumed (Some (letter k)) None None) <$> seq 0 n)) None)];
          Resume 0 ].

(** ["f"] analyzed at level 1 with [n] calling contexts, hence [n]
    in-edges. *)
Definition fan_in (n : nat) : KB :=
  after [ CallLookupRawSymbol (Some "f"%string) (JS.VBool true) None None;
          SearchReply 0
            [("f"%string,
              mkRawSymInfo "f" None None
                (Some [("normal"%string,
                        [("uses"%string,
                          [mkPathLines "a.cpp"
                             ((λ k, mkLineResult (Some (letter k)) None) <$> seq 0 n)])])]))];
          Resume 0 ].

(** A hub: symbol 0 calls symbols 1 to 13, all in the root's directory, and
    symbol 14, a generated IPC method elsewhere. *)
Definition hub_sameDir (_ otherSym : nat) : bool := (otherSym <=? 13)%nat.

Definition hub_isIPC (otherSym : nat) : bool := (otherSym =? 14)%nat.

Definition hub_callsOutTo (_ curSym : nat) : list nat :=
  if (curSym =? 0)%nat then seq 1 14 else [].

Definition hub_callsIn (_ _ : nat) : list nat := [].


(** Two functions that call each other. *)
Definition cycle_callsOutTo (_ curSym : nat) : list nat :=
  if (curSym =? 0)%nat then [1%nat] else if (curSym =? 1)%nat then [0%nat] else [].

(** A diagram with a process holding class [Foo] (symbol 7, global) and the
    instance group [ui], which has no node for symbol 7. *)
Definition ui_group : InstanceGroupInfo := mkInstanceGroupInfo "ui" None ∅.

Definition demo_gen : Gen :=
  {| varMap := {[ "v1"%string := "Foo"%string; "v2"%string := "ui"%string ]};
     idToSym := {[ "Foo"%string := 7%nat ]};
     symToNode := {[ 7%nat := ["Proc"; "Foo"]%string ]};
     instanceGroupsByName := {[ "ui"%string := ui_group ]};
     nodes := {[ [] := mkHierNode "group" "root" None None [];
                 ["Proc"%string] := mkHierNode "group" "process" None None [];
                 ["Proc"; "Foo"]%string := mkHierNode "node" "class" (Some 7%nat) None [];
                 ["Proc"; "Bar"]%string := mkHierNode "node" "class" None None [] ]};
     console := [] |}.

(** A diagram where class [Foo] (symbol 7) has a node in the group [ui] and
    another, global one. *)
Definition ui_group_foo : InstanceGroupInfo :=
  mkInstanceGroupInfo "ui" None {[ 7%nat := ["Proc"; "ui Foo"]%string ]}.

Definition two_foo_gen : Gen :=
  {| varMap := {[ "v1"%string := "Foo"%string; "v2"%string := "ui"%string ]};
     idToSym := {[ "Foo"%string := 7%nat ]};
     symToNode := {[ 7%nat := ["Proc"; "Foo"]%string ]};
     instanceGroupsByName := {[ "ui"%string := ui_group_foo ]};
     nodes := {[ [] := mkHierNode "group" "root" None None [];
                 ["Proc"%string] := mkHierNode "group" "process" None None [];
                 ["Proc"; "Foo"]%string := mkHierNode "node" "class" (Some 7%nat) None [];
                 ["Proc"; "ui Foo"]%string
                   := mkHierNode "node" "instance" (Some 7%nat) (Some "ui"%string) [];
                 ["Proc"; "Bar"]%string
                   := mkHierNode "node" "instance" None (Some "ui"%string) [] ]};
     console := [] |}.

(** ** The updates the synchronous code makes *)

(** The state [ensureSymbolAnalysis] leaves when it starts the analysis of
    symbol [i]: the search is out, both activations are suspended. *)
Definition started (i : nat) (s : SymbolInfo) (hops : JS.value) (kb : KB) : KB :=
  let p := nextPromise kb in
  let kb1 := set_tasks (tasks kb ++ [AnalyzeAwaitingSearch p i hops])
               (set_nextPromise (S p)
                  (set_searches (searches kb ++ [(i, search_query (rawName s))]) kb)) in
  let kb2 := set_syms (alter (upd_analyzing (Some p)) i (syms kb1)) kb1 in
  let kb3 := set_analyzingSymbols (set_add i (analyzingSymbols kb2)) kb2 in
  set_tasks (tasks kb3 ++ [EnsureAwaitingAnalysis p i (JS.min2 hops)]) kb3.

(** The state the rest of [ensureSymbolAnalysis] leaves after its [await]. *)
Definition finished (i : nat) (clampedLevel : JS.value) (kb : KB) : KB :=
  let kb1 := set_syms (alter (upd_analyzing None) i (syms kb)) kb in
  let kb2 := set_syms (alter (upd_analyzed clampedLevel) i (syms kb1)) kb1 in
  let kb3 := set_analyzingSymbols (set_delete i (analyzingSymbols kb2)) kb2 in
  set_syms (alter bump_serial i (syms kb3)) kb3.

(** [new SymbolInfo(...)] cached under its raw name. *)
Definition created (raw pretty : option string) (opts : option Opts) (kb : KB) : KB :=
  let kb1 := set_syms (syms kb ++ [new_SymbolInfo raw pretty opts]) kb in
  set_symbolsByRawName (<[raw := length (syms kb)]> (symbolsByRawName kb1)) kb1.

(** [new FileInfo({ path })] cached under its path and marked analyzed. *)
Definition file_created (p : string) (kb : KB) : KB :=
  let fi := length (files kb) in
  let kb1 := set_files (files kb ++ [new_FileInfo p]) kb in
  let kb2 := set_filesByPath (<[p := fi]> (filesByPath kb1)) kb1 in
  let kb3 := set_files (alter (λ f, mkFileInfo (path f) true (fileSymbolDefs f)
                                       (fileSymbolDecls f) (fi_serial f)) fi (files kb2)) kb2 in
  set_files (alter (λ f, mkFileInfo (path f) (fi_analyzed f) (fileSymbolDefs f)
                           (fileSymbolDecls f) (S (fi_serial f))) fi (files kb3)) kb3.

(** The symbol is bound to the file of its one definition. *)
Definition source_bound (i fi : nat) (kb : KB) : KB :=
  let kb1 := set_syms (alter (upd_sourceFile (Some fi)) i (syms kb)) kb in
  let kb2 := set_files (alter (λ f, mkFileInfo (path f) (fi_analyzed f)
                                       (set_add i (fileSymbolDefs f))
                                       (fileSymbolDecls f) (fi_serial f)) fi (files kb1)) kb1 in
  set_files (alter (λ f, mkFileInfo (path f) (fi_analyzed f) (fileSymbolDefs f)
                           (fileSymbolDecls f) (S (fi_serial f))) fi (files kb2)) kb2.

(** The symbol is bound to the file of its one declaration. *)
Definition decl_bound (i fi : nat) (kb : KB) : KB :=
  let kb1 := set_syms (alter (upd_declFile (Some fi)) i (syms kb)) kb in
  let kb2 := set_files (alter (λ f, mkFileInfo (path f) (fi_analyzed f) (fileSymbolDefs f)
                                       (set_add i (fileSymbolDecls f)) (fi_serial f))
                          fi (files kb1)) kb1 in
  set_files (alter (λ f, mkFileInfo (path f) (fi_analyzed f) (fileSymbolDefs f)
                           (fileSymbolDecls f) (S (fi_serial f))) fi (files kb2)) kb2.

(** Every change the synchronous code makes to the knowledge base is one
    of these, made under the condition the code tests first. *)
Inductive update : KB → KB → Prop :=
| U_called kb i hops :
    update kb (set_ensureCalls (ensureCalls kb ++ [(i, hops)]) kb)
| U_raised kb i s hops :
    syms kb !! i = Some s → JS.truthy (analyzed s) = true →
    JS.lt (analyzed s) (JS.min2 hops) = true →
    update kb (set_syms (alter (upd_analyzed (JS.min2 hops)) i (syms kb)) kb)
| U_started kb i s hops :
    syms kb !! i = Some s → JS.truthy (analyzed s) = false → analyzing s = None →
    update kb (started i s hops kb)
| U_pretty kb i s pretty :
    syms kb !! i = Some s → JS.truthy_str pretty = true →
    JS.truthy_str (prettyName s) = false →
    update kb (set_syms (alter (upd_pretty pretty) i (syms kb)) kb)
| U_created kb raw pretty opts :
    symbolsByRawName kb !! raw = None →
    update kb (created raw pretty opts kb)
| U_file kb p :
    (∀ fi f, filesByPath kb !! p = Some fi → files kb !! fi = Some f → fi_analyzed f = false) →
    update kb (file_created p kb)
| U_consumed kb a b :
    (a < length (syms kb))%nat → (b < length (syms kb))%nat →
    update kb (set_syms (add_out_then_in a b (syms kb)) kb)
| U_used kb a b :
    (a < length (syms kb))%nat → (b < length (syms kb))%nat →
    update kb (set_syms (add_in_then_out a b (syms kb)) kb)
| U_syntax kb i k :
    (i < length (syms kb))%nat →
    update kb (set_syms (alter (upd_syntax k) i (syms kb)) kb)
| U_source kb i s p fi f :
    syms kb !! i = Some s → sourceFileInfo s = None →
    filesByPath kb !! p = Some fi → files kb !! fi = Some f →
    update kb (source_bound i fi kb)
| U_decl kb i s p fi f :
    syms kb !! i = Some s → declFileInfo s = None →
    filesByPath kb !! p = Some fi → files kb !! fi = Some f →
    update kb (decl_bound i fi kb).

(** What every update keeps: references stay live and cached names keep
    their symbol. *)
Definition grows (kb kb' : KB) : Prop :=
  (length (syms kb) ≤ length (syms kb'))%nat ∧
  (length (files kb) ≤ length (files kb'))%nat ∧
  (∀ k i, symbolsByRawName kb !! k = Some i → symbolsByRawName kb' !! k = Some i).

(** ** Analyses in flight *)

(** The promise symbol [i] is waiting for, if its analysis is in flight. *)
Definition flight (kb : KB) (i : nat) : option nat := syms kb !! i ≫= analyzing.

(** [symInfo.analyzed], read as a condition. *)
Definition is_analyzed (kb : KB) (i : nat) : bool :=
  default false (JS.truthy ∘ analyzed <$> syms kb !! i).

Definition is_search (t : task) : bool :=
  match t with AnalyzeAwaitingSearch _ _ _ => true | EnsureAwaitingAnalysis _ _ _ => false end.

(** A suspended activation is identified by its method and its symbol. *)
Definition task_key (t : task) : bool * nat := (is_search t, task_sym t).

(** The searches that are out for symbol [i]. *)
Definition outstanding (i : nat) (kb : KB) : list task :=
  filter (λ t, is_search t = true ∧ task_sym t = i) (tasks kb).

(** The bookkeeping of the analyses in flight. *)
Record flights (kb : KB) : Prop := mk_flights {
  fl_falsy : ∀ i p, flight kb i = Some p → is_analyzed kb i = false;
  fl_set : ∀ i, i ∈ analyzingSymbols kb ↔ is_Some (flight kb i);
  fl_task : ∀ t, t ∈ tasks kb → flight kb (task_sym t) = Some (task_promise t);
  fl_ensure : ∀ i p, flight kb i = Some p →
    ∃ lvl, EnsureAwaitingAnalysis p i lvl ∈ tasks kb;
  fl_nodup : NoDup (task_key <$> tasks kb);
  fl_inj : ∀ i j p, flight kb i = Some p → flight kb j = Some p → i = j;
  fl_fresh : ∀ i p, flight kb i = Some p → (p < nextPromise kb)%nat;
  fl_unsettled : ∀ p i hops, AnalyzeAwaitingSearch p i hops ∈ tasks kb → p ∉ settled kb;
  fl_old : ∀ p, p ∈ settled kb → (p < nextPromise kb)%nat;
}.

(** The bookkeeping while the answer to search [p] is being processed. *)
Definition answering (p : nat) (kb : KB) : Prop :=
  flights kb ∧ (p < nextPromise kb)%nat ∧
  ∀ t, t ∈ tasks kb → is_search t = true → task_promise t ≠ p.


(** ** The file cache *)

(** Every cached path leads to an analyzed [FileInfo] of that path, and
    every [FileInfo] is the one cached under its path. *)
Definition files_ok (kb : KB) : Prop :=
  (∀ p f, filesByPath kb !! p = Some f →
     ∃ fi, files kb !! f = Some fi ∧ path fi = p ∧ fi_analyzed fi = true) ∧
  (∀ f fi, files kb !! f = Some fi → filesByPath kb !! path fi = Some f).

(** The file a symbol is bound to as its definition / declaration site,
    and the symbols a file lists. *)
Definition src (kb : KB) (i : nat) : option nat := syms kb !! i ≫= sourceFileInfo.

Definition dcl (kb : KB) (i : nat) : option nat := syms kb !! i ≫= declFileInfo.

Definition defs_of (kb : KB) (f : nat) : list nat :=
  default [] (fileSymbolDefs <$> files kb !! f).

Definition decls_of (kb : KB) (f : nat) : list nat :=
  default [] (fileSymbolDecls <$> files kb !! f).

(** A file lists exactly the symbols that are bound to it. *)
Definition backrefs (kb : KB) : Prop :=
  (∀ i f, src kb i = Some f ↔ i ∈ defs_of kb f) ∧
  (∀ i f, dcl kb i = Some f ↔ i ∈ decls_of kb f).

(** ** What the knowledge base never forgets *)

Definition keeps_sym (s0 s : SymbolInfo) : Prop :=
  rawName s = rawName s0 ∧
  outEdges s0 ⊆ outEdges s ∧ inEdges s0 ⊆ inEdges s ∧
  (is_Some (sourceFileInfo s0) → sourceFileInfo s = sourceFileInfo s0) ∧
  (is_Some (declFileInfo s0) → declFileInfo s = declFileInfo s0) ∧
  (JS.truthy_str (prettyName s0) = true → prettyName s = prettyName s0).

Definition keeps_file (f0 f : FileInfo) : Prop :=
  path f = path f0 ∧
  fileSymbolDefs f0 ⊆ fileSymbolDefs f ∧ fileSymbolDecls f0 ⊆ fileSymbolDecls f ∧
  (fi_analyzed f0 = true → fi_analyzed f = true).

Definition remembers (kb0 kb : KB) : Prop :=
  (∀ i s0, syms kb0 !! i = Some s0 → ∃ s, syms kb !! i = Some s ∧ keeps_sym s0 s) ∧
  (∀ f x0, files kb0 !! f = Some x0 → ∃ x, files kb !! f = Some x ∧ keeps_file x0 x) ∧
  (∀ k i, symbolsByRawName kb0 !! k = Some i → symbolsByRawName kb !! k = Some i).

(** Symbol [i] is analyzed at a level of at least [z]. *)
Definition level_at_least (i : nat) (z : Z) (kb : KB) : Prop :=
  ∃ s z', syms kb !! i = Some s ∧ analyzed s = JS.VNum z' ∧ z ≤ z'.

(** ** What an analysis request leaves alone *)

(** Everything about a symbol but its analysis state and dirty serial. *)
Definition static (s : SymbolInfo) :=
  (rawName s, prettyName s, syntaxKind s, pathHints s,
   outEdges s, inEdges s, sourceFileInfo s, declFileInfo s).

(** The same symbols, names, edges, file bindings and caches. *)
Definition same_static (kb kb' : KB) : Prop :=
  static <$> syms kb' = static <$> syms kb ∧
  symbolsByRawName kb' = symbolsByRawName kb ∧
  filesByPath kb' = filesByPath kb ∧ files kb' = files kb.

(** No search issued, no activation suspended, no analysis state changed. *)
Definition quiet (kb kb' : KB) : Prop :=
  searches kb' = searches kb ∧ tasks kb' = tasks kb ∧
  analyzingSymbols kb' = analyzingSymbols kb ∧ ensureCalls kb' = ensureCalls kb ∧
  nextPromise kb' = nextPromise kb ∧ settled kb' = settled kb ∧
  ∀ j s, syms kb !! j = Some s →
    ∃ s', syms kb' !! j = Some s' ∧ analyzed s' = analyzed s ∧ analyzing s' = analyzing s.

(** ["f"] has been looked up with analysis and its search is still out. *)
Definition searching_kb : KB :=
  after [CallLookupRawSymbol (Some "f"%string) (JS.VBool true) None None].

(** A search answer for ["f"] that binds it to a definition and a
    declaration site. *)
Definition sited_events : list event :=
  [ CallLookupRawSymbol (Some "f"%string) (JS.VBool true) None None;
    SearchReply 0
      [ ("f"%string,
         mkRawSymInfo "f" None None
           (Some [("normal"%string,
                   [("defs"%string, [mkPathLines "dom/a.cpp" []]);
                    ("decls"%string, [mkPathLines "dom/a.h" []])])])) ];
    Resume 0 ].

(** ** What the doodler asks of the knowledge base *)

(** The analysis requests among the doodler's requests, in order. *)
Definition analysis_requests (rs : list request) : list (nat * string) :=
  omap (λ r, match r with
             | EnsureSymbolAnalysis sym mode => Some (sym, mode)
             | _ => None
             end) rs.

(** One analysis request per symbol of the worklist. *)
Definition visits_of (callsOut : bool) (l : list nat) : list (nat * string) :=
  (λ sym, (sym, analysisMode callsOut)) <$> l.

Definition is_edge (r : request) : Prop :=
  match r with EnsureEdge _ _ => True | _ => False end.

(** A module of three functions in one directory, calling in a ring, with
    one call from the second out to a generated IPC method elsewhere. *)
Definition ring_callsOutTo (_ curSym : nat) : list nat :=
  if (curSym =? 0)%nat then [1%nat]
  else if (curSym =? 1)%nat then [2; 14]%nat
  else if (curSym =? 2)%nat then [0%nat]
  else [].

(** ** Session tracks *)

Section SessionTrackVocabulary.

Import SessionTrack.

(** No thing is in the track twice, and every thing in it is a live
    object with a live session-meta object. *)
Definition live_track (t : Track) : Prop :=
  NoDup (things t) ∧
  ∀ x, x ∈ things t → ∃ th, heap t !! x = Some th ∧ is_Some (metas t !! sessionMeta th).

(** The write of one thing's state to the database. *)
Definition write_of (h : list SessionThing) (x : nat) : option effect :=
  th ← h !! x; Some (UpdatePersistedState x (persisted th) (sessionMeta th)).

(** What [addThing] asks of the manager before it looks at the binding. *)
Definition asked (useId : option Z) (params : Params) : list effect :=
  (if falsy_id useId then [AllocId] else []) ++
  (match p_sessionMeta params with Some _ => [] | None => [MakeDefaultSessionMeta] end).

(** The calls other than to the console and for an id or a default. *)
Definition is_quiet (e : effect) : Prop :=
  match e with
  | AllocId | MakeDefaultSessionMeta | ConsoleWarn _ => True
  | _ => False
  end.

(** A track with two sheets, the second one selected. *)
Definition sheet_binding : gmap string Binding := {[ "diagram"%string := ObjectBinding true ]}.

Definition two_sheets : Track :=
  {| things := [0; 1]%nat; selectedThing := Some 1%nat; temporarilySelectedThing := None;
     serial := 2;
     heap := [mkSessionThing 1 "diagram" (Some "a"%string) 0;
              mkSessionThing 2 "diagram" (Some "b"%string) 1];
     metas := [mkSessionMeta false; mkSessionMeta true; mkSessionMeta false];
     log := [] |}.

(** A manager that knows the diagram sheet; its default session-meta
    object is the third one of the heap. *)
Definition sheet_manager : Manager := mkManager 7 2 sheet_binding.

Definition after_first : Params :=
  mkParams (Some "after"%string) "diagram" (Some "c"%string) None false.

End SessionTrackVocabulary.

(** ** The message bridge *)

Section FrontendVocabulary.

Import Frontend.

(** What happens to a frontend after its construction: its methods are
    called, and messages arrive from the port. *)
Inductive call : Type :=
| SendAndAwaitReply (debug : bool) (type : string) (payload : string)
| SendNoReply (type : string) (payload : string)
| OnMessage (debug : bool) (data : Data).

Definition do_call (fe : Frontend) (c : call) : Frontend :=
  match c with
  | SendAndAwaitReply debug type payload => (_sendAndAwaitReply debug type payload fe).2
  | SendNoReply type payload => _sendNoReply type payload fe
  | OnMessage debug data => _onMessage debug data fe
  end.

Definition after_calls (cs : list call) (fe : Frontend) : Frontend := foldl do_call fe cs.

(** The ids of the requests sent, in the order of sending. *)
Definition request_ids (fe : Frontend) : list Z :=
  filter (λ i, i ≠ 0) (msgId <$> posted fe).

Definition is_reply_to (i : Z) (c : call) : Prop :=
  ∃ debug data, c = OnMessage debug data ∧ d_type data = "reply"%string ∧ d_msgId data = i.

Definition settled_as (ok : bool) (v : string) : PromiseState :=
  if ok then Fulfilled v else Rejected v.

(** A frontend with one request out and one reply in. *)
Definition served : Frontend :=
  after_calls [SendAndAwaitReply false "search" "symbol:f";
               OnMessage false (mkData "reply" 2 "hits" true)]
              (new_GrokAnalysisFrontend false "mozilla-central").

End FrontendVocabulary.

Section FrontendVocabulary2.

Import Frontend.

(** The bookkeeping of the bridge: ids are handed out from 1 upwards, the
    table has an entry for each id handed out, and the promise of id [i]
    is the [i]-th promise made. *)
Definition bridge_ok (fe : Frontend) : Prop :=
  2 ≤ _nextMsgId fe ≤ 2 ^ 53 ∧
  Z.of_nat (length (promises fe)) = _nextMsgId fe - 1 ∧
  (∀ i, _awaitingReplies fe !! i
        = if decide (1 ≤ i < _nextMsgId fe) then Some (Z.to_nat (i - 1)) else None) ∧
  request_ids fe = Z.of_nat <$> seq 1 (length (promises fe)).

(** Request [i] is awaited with promise [p], and with no other id. *)
Definition awaited (i : Z) (p : nat) (fe : Frontend) : Prop :=
  i < 2 ^ 53 ∧ i < _nextMsgId fe ∧
  _awaitingReplies fe !! i = Some p ∧ (p < length (promises fe))%nat ∧
  ∀ j q, _awaitingReplies fe !! j = Some q →
    (q < length (promises fe))%nat ∧ (q = p → j = i).

(** The session data is handed on when, and only when, the promise of the
    init request is fulfilled. *)
Definition init_in_step (fe : Frontend) : Prop :=
  (0 < length (promises fe))%nat ∧
  initCompleted fe = match promises fe !! init_promise with
                     | Some (Fulfilled v) => [v]
                     | _ => []
                     end.

End FrontendVocabulary2.

(** * Part III: facts and the claims *)

(** ** Insertion-ordered sets *)

Section OrderedSetFacts.

Context {A : Type} `{EqDecision A}.

Lemma elem_of_set_add (x y : A) (s : list A) :
  y ∈ set_add x s ↔ y = x ∨ y ∈ s.
Proof.
  unfold set_add. case_decide.
  - split; [tauto|]. intros [->|]; done.
  - rewrite elem_of_app, list_elem_of_singleton. tauto.
Qed.

Lemma set_add_NoDup (x : A) (s : list A) : NoDup s → NoDup (set_add x s).
Proof.
  intros Hs. unfold set_add. case_decide; [done|].
  apply NoDup_app. split_and!; [done| |apply NoDup_singleton].
  intros y Hy Hx. apply list_elem_of_singleton in Hx. congruence.
Qed.

End OrderedSetFacts.

(** ** Rules of the weakest precondition *)

Lemma wp_ret {A} (a : A) Q kb : Q a kb → wp (ret a) Q kb.
Proof. intros. by exists a, kb. Qed.

Lemma wp_bind {A B} (m : M A) (f : A → M B) Q kb :
  wp m (λ a kb', wp (f a) Q kb') kb → wp (bind m f) Q kb.
Proof.
  intros (a & kb' & Hm & b & kb'' & Hf & HQ).
  exists b, kb''. unfold bind. by rewrite Hm.
Qed.

Lemma wp_mono {A} (m : M A) (Q Q' : A → KB → Prop) kb :
  wp m Q kb → (∀ a kb', Q a kb' → Q' a kb') → wp m Q' kb.
Proof. intros (a & kb' & ? & ?) HQ. exists a, kb'. eauto. Qed.

Lemma wp_gets {A} (f : KB → A) Q kb : Q (f kb) kb → wp (gets f) Q kb.
Proof. intros. by exists (f kb), kb. Qed.

Lemma wp_modify (f : KB → KB) Q kb : Q tt (f kb) → wp (modify f) Q kb.
Proof. intros. by exists tt, (f kb). Qed.

Lemma wp_lift_opt {A} (f : KB → option A) Q kb a :
  f kb = Some a → Q a kb → wp (lift_opt f) Q kb.
Proof. intros Hf ?. exists a, kb. unfold lift_opt. by rewrite Hf. Qed.

Lemma wp_get_sym i s Q kb : syms kb !! i = Some s → Q s kb → wp (get_sym i) Q kb.
Proof. apply (wp_lift_opt (λ kb, syms kb !! i)). Qed.

Lemma wp_modify_sym i f Q kb :
  (i < length (syms kb))%nat →
  Q tt (set_syms (alter f i (syms kb)) kb) →
  wp (modify_sym i f) Q kb.
Proof.
  intros Hi HQ. destruct (lookup_lt_is_Some_2 _ _ Hi) as [s Hs].
  apply wp_bind. eapply wp_get_sym; [done|]. by apply wp_modify.
Qed.

Lemma wp_get_file i f Q kb : files kb !! i = Some f → Q f kb → wp (get_file i) Q kb.
Proof. apply (wp_lift_opt (λ kb, files kb !! i)). Qed.

Lemma wp_modify_file i f Q kb :
  (i < length (files kb))%nat →
  Q tt (set_files (alter f i (files kb)) kb) →
  wp (modify_file i f) Q kb.
Proof.
  intros Hi HQ. destruct (lookup_lt_is_Some_2 _ _ Hi) as [s Hs].
  apply wp_bind. eapply wp_get_file; [done|]. by apply wp_modify.
Qed.

Lemma wp_when (b : bool) m Q kb :
  (b = true → wp m Q kb) → (b = false → Q tt kb) → wp (when b m) Q kb.
Proof. destruct b; simpl; intros H1 H2; [by apply H1|]. apply wp_ret. by apply H2. Qed.

(** A loop keeps an invariant that each round keeps. *)
Lemma wp_forM {A} (I : KB → Prop) (l : list A) (body : A → M unit) :
  (∀ x kb, x ∈ l → I kb → wp (body x) (λ _ kb', I kb') kb) →
  ∀ kb, I kb → wp (forM_ l body) (λ _ kb', I kb') kb.
Proof.
  induction l as [|x l IH]; intros Hbody kb HI; simpl.
  - by apply wp_ret.
  - apply wp_bind. eapply wp_mono; [apply Hbody; [left|done]|].
    intros [] kb' HI'. apply IH; [|done].
    intros y kb'' Hy. apply Hbody. by right.
Qed.

(** ** Well-formedness is kept by every update the code makes *)

Lemma tasks_grow_same kb kb' : tasks kb' = tasks kb → tasks_grow kb kb'.
Proof. intros H. exists []. by rewrite app_nil_r. Qed.

Lemma tasks_grow_trans kb1 kb2 kb3 :
  tasks_grow kb1 kb2 → tasks_grow kb2 kb3 → tasks_grow kb1 kb3.
Proof. intros [m1 H1] [m2 H2]. exists (m1 ++ m2). by rewrite H2, H1, app_assoc. Qed.

Lemma ext_refl kb : ext kb kb.
Proof. split; [done|done|done|by apply tasks_grow_same]. Qed.

Lemma ext_trans kb1 kb2 kb3 : ext kb1 kb2 → ext kb2 kb3 → ext kb1 kb3.
Proof. intros [] []. split; [lia|eauto|lia|by eapply tasks_grow_trans]. Qed.

Lemma ext_later kb kb' : ext kb kb' → later kb kb'.
Proof. intros []. by split. Qed.

Lemma later_refl kb : later kb kb.
Proof. by split. Qed.

Lemma later_trans kb1 kb2 kb3 : later kb1 kb2 → later kb2 kb3 → later kb1 kb3.
Proof. intros [] []. split; [lia|eauto|lia]. Qed.

(** An extension that leaves the list of suspended activations alone. *)
Lemma ext_same_tasks kb kb' :
  (length (syms kb) ≤ length (syms kb'))%nat →
  (∀ k i, symbolsByRawName kb !! k = Some i → symbolsByRawName kb' !! k = Some i) →
  (length (files kb) ≤ length (files kb'))%nat →
  tasks kb' = tasks kb →
  ext kb kb'.
Proof. intros. split; [done|done|done|by apply tasks_grow_same]. Qed.

Lemma level_ok_min2 v : level_ok (JS.min2 v).
Proof.
  intros z. unfold JS.min2. destruct (JS.toNumber v); simpl; [|done].
  intros [= <-]. lia.
Qed.

Lemma level_ok_false : level_ok (JS.VBool false).
Proof. intros z [= <-]. lia. Qed.

Lemma wf_tasks_mono n n' np np' ts :
  (n ≤ n')%nat → (np ≤ np')%nat → wf_tasks n np ts → wf_tasks n' np' ts.
Proof. intros Hn Hp H t Ht. destruct (H t Ht) as (? & ? & ?). split_and!; [lia|lia|done]. Qed.

Lemma wf_tasks_snoc n np ts t :
  wf_tasks n np ts → task_ok n np t → wf_tasks n np (ts ++ [t]).
Proof.
  intros H Ht t' [?|Hin%list_elem_of_singleton]%elem_of_app; [by apply H|by subst].
Qed.

Lemma lookup_alter_dec {A} (f : A → A) (i k : nat) (l : list A) :
  alter f i l !! k = (if decide (k = i) then f else id) <$> l !! k.
Proof.
  rewrite list_lookup_alter. repeat case_decide; subst; try done.
  by destruct (l !! k).
Qed.

(** Rewriting every symbol in place keeps the store well-formed as long as
    raw names stay, levels stay in order, and the edge sets stay live and
    mirrored. *)
Lemma wf_syms_pointwise m ss ss' (F : Sym → SymbolInfo → SymbolInfo) :
  wf_syms m ss →
  length ss' = length ss →
  (∀ i, ss' !! i = F i <$> ss !! i) →
  (∀ i s, ss !! i = Some s → rawName (F i s) = rawName s) →
  (∀ i s, ss !! i = Some s → level_ok (analyzed (F i s))) →
  (∀ i s j, ss !! i = Some s →
     j ∈ outEdges (F i s) ∨ j ∈ inEdges (F i s) → (j < length ss)%nat) →
  (∀ i j si sj, ss !! i = Some si → ss !! j = Some sj →
     (j ∈ outEdges (F i si) ↔ i ∈ inEdges (F j sj))) →
  wf_syms m ss'.
Proof.
  intros [Hv Hr He Hm Hl] Hlen Hlk Hraw Hlev Hedge Hmir.
  assert (Hinv : ∀ i s', ss' !! i = Some s' → ∃ s, ss !! i = Some s ∧ s' = F i s).
  { intros i s'. rewrite Hlk. destruct (ss !! i) as [s|]; [|done].
    intros [= <-]. eauto. }
  split.
  - intros k i Hk. destruct (Hv k i Hk) as (s & Hs & Hrs).
    exists (F i s). rewrite Hlk, Hs. split; [done|]. rewrite <- Hrs. eauto.
  - intros i s' (s & Hs & ->)%Hinv. rewrite (Hraw i s Hs). eauto.
  - intros i s' j (s & Hs & ->)%Hinv. rewrite Hlen. eauto.
  - intros i j si' sj' (si & Hsi & ->)%Hinv (sj & Hsj & ->)%Hinv. eauto.
  - intros i s' (s & Hs & ->)%Hinv. eauto.
Qed.

(** An update of one symbol that leaves its raw name and edges alone. *)
Lemma wf_syms_alter m ss i (f : SymbolInfo → SymbolInfo) :
  wf_syms m ss →
  (∀ s, rawName (f s) = rawName s) →
  (∀ s, outEdges (f s) = outEdges s) →
  (∀ s, inEdges (f s) = inEdges s) →
  (∀ s, ss !! i = Some s → level_ok (analyzed (f s))) →
  wf_syms m (alter f i ss).
Proof.
  intros Hwf Hraw Hout Hin Hlev.
  set (F := λ k : Sym, if decide (k = i) then f else id).
  assert (HFout : ∀ k s, outEdges (F k s) = outEdges s).
  { intros k s. unfold F. case_decide; [apply Hout|done]. }
  assert (HFin : ∀ k s, inEdges (F k s) = inEdges s).
  { intros k s. unfold F. case_decide; [apply Hin|done]. }
  apply (wf_syms_pointwise m ss _ F);
    [done|apply length_alter|intros; apply lookup_alter_dec|..].
  - intros k s _. unfold F. case_decide; [apply Hraw|done].
  - intros k s Hs. unfold F. case_decide; [subst; by apply Hlev|].
    by apply (wf_levels _ _ Hwf k).
  - intros k s j Hs. rewrite HFout, HFin. apply (wf_edges_valid _ _ Hwf k s j Hs).
  - intros k j sk sj Hk Hj. rewrite HFout, HFin. apply (wf_mirrored _ _ Hwf k j sk sj Hk Hj).
Qed.

Lemma lookup_snoc_inv {A} (l : list A) (x y : A) (i : nat) :
  (l ++ [x]) !! i = Some y → l !! i = Some y ∨ (i = length l ∧ y = x).
Proof.
  intros H. destruct (decide (i < length l)%nat).
  - left. by rewrite lookup_app_l in H.
  - right. rewrite lookup_app_r in H by lia.
    destruct (i - length l)%nat as [|k] eqn:Hk; simpl in H; [|done].
    split; [lia|congruence].
Qed.

(** [new SymbolInfo(...)] followed by [symbolsByRawName.set(rawName, symInfo)],
    for a raw name the cache does not hold yet. *)
Lemma wf_syms_alloc m ss raw pretty opts :
  wf_syms m ss → m !! raw = None →
  wf_syms (<[raw := length ss]> m) (ss ++ [new_SymbolInfo raw pretty opts]).
Proof.
  intros [Hv Hr He Hm Hl] Hnone. split.
  - intros k i. rewrite lookup_insert. case_decide as Hk.
    + intros [= <-]. subst k. eexists. split; [apply list_lookup_middle; done|done].
    + intros (s & Hs & <-)%Hv. exists s. split; [|done].
      by apply lookup_app_l_Some.
  - intros i s [Hs|[-> ->]]%lookup_snoc_inv; simpl.
    + rewrite lookup_insert_ne; [by apply Hr|].
      intros Heq. apply Hr in Hs. by rewrite <- Heq, Hnone in Hs.
    + apply lookup_insert_eq.
  - intros i s j [Hs|[-> ->]]%lookup_snoc_inv; simpl.
    + intros Hj. rewrite length_app. pose proof (He i s j Hs Hj). lia.
    + intros [Hj|Hj]; by apply elem_of_nil in Hj.
  - intros i j si sj [Hi|[-> ->]]%lookup_snoc_inv [Hj|[-> ->]]%lookup_snoc_inv; simpl.
    + by apply Hm.
    + split; [|by intros ?%elem_of_nil].
      intros Hin. pose proof (He i si _ Hi (or_introl Hin)). lia.
    + split; [by intros ?%elem_of_nil|].
      intros Hin. pose proof (He j sj _ Hj (or_intror Hin)). lia.
    + done.
  - intros i s [Hs|[-> ->]]%lookup_snoc_inv; [by eapply Hl|apply level_ok_false].
Qed.

(** Adding the edge [a → b] on both sides at once. *)
Lemma wf_syms_add_edge m ss ss' a b :
  wf_syms m ss → (a < length ss)%nat → (b < length ss)%nat →
  length ss' = length ss →
  (∀ k s', ss' !! k = Some s' → ∃ s, ss !! k = Some s ∧
     rawName s' = rawName s ∧ analyzed s' = analyzed s ∧
     (∀ j, j ∈ outEdges s' ↔ j ∈ outEdges s ∨ (k = a ∧ j = b)) ∧
     (∀ j, j ∈ inEdges s' ↔ j ∈ inEdges s ∨ (k = b ∧ j = a))) →
  (∀ k, is_Some (ss !! k) → is_Some (ss' !! k)) →
  wf_syms m ss'.
Proof.
  intros [Hv Hr He Hm Hl] Ha Hb Hlen Hrel Hsome. split.
  - intros k i (s & Hs & <-)%Hv.
    destruct (Hsome i) as [s' Hs']; [by eexists|].
    destruct (Hrel i s' Hs') as (s0 & Hs0 & Hraw & _).
    exists s'. split; [done|]. congruence.
  - intros i s' Hs'. destruct (Hrel i s' Hs') as (s & Hs & -> & _). by apply Hr.
  - intros i s' j Hs'. destruct (Hrel i s' Hs') as (s & Hs & _ & _ & Ho & Hi).
    rewrite Ho, Hi, Hlen. pose proof (He i s j Hs). intuition lia.
  - intros i j si' sj' Hi Hj.
    destruct (Hrel i si' Hi) as (si & Hsi & _ & _ & Ho & _).
    destruct (Hrel j sj' Hj) as (sj & Hsj & _ & _ & _ & Hin).
    rewrite Ho, Hin. pose proof (Hm i j si sj Hsi Hsj). tauto.
  - intros i s' Hs'. destruct (Hrel i s' Hs') as (s & Hs & _ & -> & _). by eapply Hl.
Qed.

Lemma wf_syms_add_out_then_in m ss a b :
  wf_syms m ss → (a < length ss)%nat → (b < length ss)%nat →
  wf_syms m (add_out_then_in a b ss).
Proof.
  intros Hwf Ha Hb. apply (wf_syms_add_edge m ss _ a b); try done.
  - unfold add_out_then_in. by rewrite !length_alter.
  - intros k s'. unfold add_out_then_in. rewrite !lookup_alter_dec.
    destruct (ss !! k) as [s|]; [|done]. simpl. intros [= <-].
    exists s. split; [done|].
    repeat case_decide; subst; simpl; split_and!; try done;
      intros j; rewrite ?elem_of_set_add; intuition congruence.
  - intros k [s Hs]. unfold add_out_then_in. rewrite !lookup_alter_dec, Hs. by eexists.
Qed.

Lemma wf_syms_add_in_then_out m ss a b :
  wf_syms m ss → (a < length ss)%nat → (b < length ss)%nat →
  wf_syms m (add_in_then_out a b ss).
Proof.
  intros Hwf Ha Hb. apply (wf_syms_add_edge m ss _ a b); try done.
  - unfold add_in_then_out. by rewrite !length_alter.
  - intros k s'. unfold add_in_then_out. rewrite !lookup_alter_dec.
    destruct (ss !! k) as [s|]; [|done]. simpl. intros [= <-].
    exists s. split; [done|].
    repeat case_decide; subst; simpl; split_and!; try done;
      intros j; rewrite ?elem_of_set_add; intuition congruence.
  - intros k [s Hs]. unfold add_in_then_out. rewrite !lookup_alter_dec, Hs. by eexists.
Qed.

Lemma WF_ghost kb kb' :
  WF kb →
  symbolsByRawName kb' = symbolsByRawName kb → syms kb' = syms kb →
  tasks kb' = tasks kb → filesByPath kb' = filesByPath kb → files kb' = files kb →
  nextPromise kb' = nextPromise kb →
  WF kb'.
Proof. unfold WF. by intros H -> -> -> -> -> ->. Qed.

Lemma WF_alter_sym kb i (f : SymbolInfo → SymbolInfo) :
  WF kb →
  (∀ s, rawName (f s) = rawName s) →
  (∀ s, outEdges (f s) = outEdges s) →
  (∀ s, inEdges (f s) = inEdges s) →
  (∀ s, syms kb !! i = Some s → level_ok (analyzed (f s))) →
  WF (set_syms (alter f i (syms kb)) kb).
Proof.
  intros (Hs & Ht & Hf) ????. unfold WF; simpl. rewrite length_alter.
  split_and!; [by apply wf_syms_alter|done|done].
Qed.

Lemma WF_benign kb i (f : SymbolInfo → SymbolInfo) :
  WF kb →
  (∀ s, rawName (f s) = rawName s) →
  (∀ s, outEdges (f s) = outEdges s) →
  (∀ s, inEdges (f s) = inEdges s) →
  (∀ s, analyzed (f s) = analyzed s) →
  WF (set_syms (alter f i (syms kb)) kb).
Proof.
  intros Hwf ??? Hlev. apply WF_alter_sym; try done.
  intros s Hs. rewrite Hlev. by apply (wf_levels _ _ (proj1 Hwf) i).
Qed.

Lemma WF_add_task kb kb' t :
  WF kb → task_ok (length (syms kb)) (nextPromise kb') t →
  (nextPromise kb ≤ nextPromise kb')%nat →
  tasks kb' = tasks kb ++ [t] →
  symbolsByRawName kb' = symbolsByRawName kb → syms kb' = syms kb →
  filesByPath kb' = filesByPath kb → files kb' = files kb →
  WF kb'.
Proof.
  intros (Hs & Ht & Hf) Hok Hnp. unfold WF. intros -> -> -> -> ->.
  split_and!; [done| |done]. apply wf_tasks_snoc; [|done].
  by eapply wf_tasks_mono; [| |exact Ht].
Qed.

Lemma WF_sub_tasks kb ts :
  WF kb → (∀ t, t ∈ ts → t ∈ tasks kb) → WF (set_tasks ts kb).
Proof.
  intros (Hs & Ht & Hf) Hsub. unfold WF; simpl.
  split_and!; [done| |done]. intros t Hin. apply Ht, Hsub, Hin.
Qed.

Lemma WF_alloc_sym kb raw pretty opts :
  WF kb → symbolsByRawName kb !! raw = None →
  let kb1 := set_syms (syms kb ++ [new_SymbolInfo raw pretty opts]) kb in
  WF (set_symbolsByRawName (<[raw := length (syms kb)]> (symbolsByRawName kb1)) kb1).
Proof.
  intros (Hs & Ht & Hf) Hnone. unfold WF; simpl.
  split_and!; [by apply wf_syms_alloc| |done].
  eapply wf_tasks_mono; [| |done]; [rewrite length_app; lia|done].
Qed.

Lemma WF_add_out_then_in kb a b :
  WF kb → (a < length (syms kb))%nat → (b < length (syms kb))%nat →
  WF (set_syms (add_out_then_in a b (syms kb)) kb).
Proof.
  intros (Hs & Ht & Hf) Ha Hb. unfold WF; simpl.
  split_and!; [by apply wf_syms_add_out_then_in| |done].
  unfold add_out_then_in. by rewrite !length_alter.
Qed.

Lemma WF_add_in_then_out kb a b :
  WF kb → (a < length (syms kb))%nat → (b < length (syms kb))%nat →
  WF (set_syms (add_in_then_out a b (syms kb)) kb).
Proof.
  intros (Hs & Ht & Hf) Ha Hb. unfold WF; simpl.
  split_and!; [by apply wf_syms_add_in_then_out| |done].
  unfold add_in_then_out. by rewrite !length_alter.
Qed.

Lemma WF_alter_file kb i (f : FileInfo → FileInfo) :
  WF kb → WF (set_files (alter f i (files kb)) kb).
Proof.
  intros (Hs & Ht & Hf). unfold WF; simpl. by rewrite length_alter.
Qed.

Lemma WF_alloc_file kb p fi :
  WF kb →
  let kb1 := set_files (files kb ++ [fi]) kb in
  WF (set_filesByPath (<[p := length (files kb)]> (filesByPath kb1)) kb1).
Proof.
  intros (Hs & Ht & Hf). unfold WF; simpl. split_and!; [done|done|].
  intros q f. rewrite length_app, lookup_insert. simpl. case_decide.
  - intros [= <-]. lia.
  - intros ?%Hf. lia.
Qed.

Lemma WF_empty : WF empty.
Proof.
  unfold WF, empty; simpl. split_and!.
  - split; intros *; rewrite ?lookup_empty, ?lookup_nil; done.
  - intros t Ht. by apply elem_of_nil in Ht.
  - intros p f. by rewrite lookup_empty.
Qed.

(** ** The synchronous methods return and keep the invariant *)

Lemma lowest_level_le h l : lowest_level h l ≤ h.
Proof. induction l as [|s l IH]; simpl; [lia|]. destruct (JS.toNumber _); lia. Qed.

Lemma lowest_level_lower h kb : levels_ge (lowest_level h (syms kb)) kb.
Proof.
  unfold levels_ge. induction (syms kb) as [|s0 l IH]; intros i s z Hs Hz.
  - by rewrite lookup_nil in Hs.
  - destruct i as [|i]; simpl in *.
    + injection Hs as ->. rewrite Hz. lia.
    + specialize (IH i s z Hs Hz). destruct (JS.toNumber (analyzed s0)); lia.
Qed.

Lemma cascade_fuel_ok kb hops :
  ∃ L, levels_ge L kb ∧ fuel_ok L hops (cascade_fuel kb hops).
Proof.
  unfold cascade_fuel, fuel_ok. destruct (JS.toNumber hops) as [h|] eqn:Hh.
  - exists (lowest_level h (syms kb)). split; [apply lowest_level_lower|].
    split; [lia|]. intros h' [= <-]. pose proof (lowest_level_le h (syms kb)). lia.
  - exists (lowest_level 0 (syms kb)). split; [apply lowest_level_lower|].
    split; [lia|done].
Qed.

Lemma levels_ge_alter L kb i (f : SymbolInfo → SymbolInfo) :
  levels_ge L kb →
  (∀ s z, syms kb !! i = Some s → JS.toNumber (analyzed (f s)) = Some z → L ≤ z) →
  levels_ge L (set_syms (alter f i (syms kb)) kb).
Proof.
  intros Hge Hf k s' z. simpl. rewrite lookup_alter_dec.
  destruct (syms kb !! k) as [s|] eqn:Hs; [|done]. simpl. intros [= <-].
  case_decide; [subst; by apply Hf|]. by apply (Hge k).
Qed.

Lemma ext_alter_sym kb0 kb i (f : SymbolInfo → SymbolInfo) :
  ext kb0 kb → ext kb0 (set_syms (alter f i (syms kb)) kb).
Proof. intros []. split; simpl; [by rewrite length_alter|done|done|done]. Qed.

Lemma lt_min2_inv a hops :
  JS.lt a (JS.min2 hops) = true →
  ∃ l h, JS.toNumber a = Some l ∧ JS.toNumber hops = Some h ∧ l < Z.min 2 h.
Proof.
  unfold JS.lt, JS.min2. destruct (JS.toNumber a) as [l|]; [|done].
  destruct (JS.toNumber hops) as [h|]; simpl; [|done].
  intros ?%Z.ltb_lt. eauto.
Qed.

Lemma toNumber_minus1 hops h :
  JS.toNumber hops = Some h → JS.toNumber (JS.minus1 hops) = Some (h - 1).
Proof. unfold JS.minus1. by intros ->. Qed.

Lemma cascade_loop_spec L (rec : Sym → JS.value → M ensure_result) hops' :
  (∀ sym kb, WF kb → levels_ge L kb → (sym < length (syms kb))%nat →
     wp (rec sym hops') (λ _ kb', good L kb kb') kb) →
  ∀ l kb, WF kb → levels_ge L kb → (∀ x, x ∈ l → (x < length (syms kb))%nat) →
  wp (forM_ l (λ otherSym, _ <- rec otherSym hops' ;; ret tt)) (λ _ kb', good L kb kb') kb.
Proof.
  intros Hrec l kb Hwf Hge Hl.
  apply (wp_forM (good L kb)); [|by split_and!; [|apply ext_refl|]].
  intros x kb1 Hx (Hwf1 & Hext1 & Hge1).
  apply wp_bind. eapply wp_mono.
  { apply Hrec; [done|done|]. pose proof (Hl x Hx). destruct Hext1. lia. }
  intros _ kb2 (Hwf2 & Hext2 & Hge2). apply wp_ret.
  split_and!; [done|by eapply ext_trans|done].
Qed.

Lemma analyzeSymbol_start_spec symInfo hops kb (Q : Promise → KB → Prop) :
  (symInfo < length (syms kb))%nat →
  (∀ s, syms kb !! symInfo = Some s →
     Q (nextPromise kb)
       (set_tasks (tasks kb ++ [AnalyzeAwaitingSearch (nextPromise kb) symInfo hops])
          (set_nextPromise (S (nextPromise kb))
             (set_searches (searches kb ++ [(symInfo, search_query (rawName s))]) kb)))) →
  wp (analyzeSymbol_start symInfo hops) Q kb.
Proof.
  intros Hsym HQ. destruct (lookup_lt_is_Some_2 _ _ Hsym) as [s Hs].
  unfold analyzeSymbol_start.
  apply wp_bind. eapply wp_get_sym; [done|].
  apply wp_bind, wp_modify. apply wp_bind, wp_gets.
  apply wp_bind, wp_modify. apply wp_bind, wp_modify. apply wp_ret.
  by apply HQ.
Qed.

Lemma good_refl L kb : WF kb → levels_ge L kb → good L kb kb.
Proof. intros. by split_and!; [|apply ext_refl|]. Qed.

Lemma good_trans L kb1 kb2 kb3 : good L kb1 kb2 → good L kb2 kb3 → good L kb1 kb3.
Proof. intros (? & ? & ?) (? & ? & ?). split_and!; eauto using ext_trans. Qed.

Lemma ensure_rec_spec L n : ∀ symInfo hops kb,
  WF kb → levels_ge L kb → (symInfo < length (syms kb))%nat → fuel_ok L hops n →
  wp (ensure_rec n symInfo hops) (λ _ kb', good L kb kb') kb.
Proof.
  induction n as [|n IH]; intros symInfo hops kb Hwf Hge Hsym [Hn Hfuel]; [lia|].
  destruct (lookup_lt_is_Some_2 _ _ Hsym) as [s Hs].
  simpl. apply wp_bind, wp_modify.
  match goal with |- wp _ _ ?k => set (kbA := k) end.
  assert (HgA : good L kb kbA) by (by split_and!; [|apply ext_same_tasks|]).
  eapply (wp_mono _ (λ _ kb', good L kbA kb')); [|intros; by eapply good_trans].
  destruct HgA as (HwfA & _ & HgeA). clear Hwf Hge.
  apply wp_bind. eapply wp_get_sym; [exact Hs|].
  destruct (JS.truthy (analyzed s)) eqn:Htr.
  - apply wp_bind.
    eapply (wp_mono _ (λ _ kb', good L kbA kb')); [|intros [] kb' HQ; apply wp_ret; exact HQ].
    apply wp_when; [|intros _; by apply good_refl].
    intros (l & h & Hl & Hh & Hlh)%lt_min2_inv.
    assert (Hlow : L ≤ l) by (by eapply (HgeA symInfo)).
    assert (Hfuel' : fuel_ok L (JS.minus1 hops) n).
    { specialize (Hfuel h Hh). split; [lia|].
      intros h'. rewrite (toNumber_minus1 _ _ Hh). intros [= <-]. lia. }
    apply wp_bind, wp_modify_sym; [done|].
    match goal with |- wp _ _ ?k => set (kb1 := k) end.
    assert (Hg1 : good L kbA kb1).
    { split_and!.
      - apply WF_alter_sym; try done. intros; apply level_ok_min2.
      - apply ext_alter_sym, ext_refl.
      - apply levels_ge_alter; [done|].
        intros s' z _. simpl. unfold JS.min2. rewrite Hh. simpl. intros [= <-]. lia. }
    eapply (wp_mono _ (λ _ kb', good L kb1 kb')); [|intros; by eapply good_trans].
    destruct Hg1 as (Hwf1 & Hext1 & Hge1).
    assert (Hsym1 : (symInfo < length (syms kb1))%nat) by (destruct Hext1; simpl in *; lia).
    destruct (lookup_lt_is_Some_2 _ _ Hsym1) as [s1 Hs1].
    apply wp_bind. eapply wp_get_sym; [exact Hs1|].
    apply wp_bind.
    eapply (wp_mono _ (λ _ kb', good L kb1 kb')).
    { apply wp_when; [|intros _; by apply good_refl].
      intros _. apply cascade_loop_spec; try done.
      - intros sym kb' ???. by apply IH.
      - intros x Hx. apply (wf_edges_valid _ _ (proj1 Hwf1) symInfo s1 x Hs1). by left. }
    intros [] kb2 Hg2.
    eapply (wp_mono _ (λ _ kb', good L kb2 kb')); [|intros; by eapply good_trans].
    destruct Hg2 as (Hwf2 & Hext2 & Hge2).
    assert (Hsym2 : (symInfo < length (syms kb2))%nat) by (destruct Hext2; lia).
    destruct (lookup_lt_is_Some_2 _ _ Hsym2) as [s2 Hs2].
    apply wp_bind. eapply wp_get_sym; [exact Hs2|].
    apply wp_when; [|intros _; by apply good_refl].
    intros _. apply cascade_loop_spec; try done.
    + intros sym kb' ???. by apply IH.
    + intros x Hx. apply (wf_edges_valid _ _ (proj1 Hwf2) symInfo s2 x Hs2). by right.
  - destruct (analyzing s) as [p|] eqn:Hp.
    + apply wp_ret. by apply good_refl.
    + apply wp_bind. apply analyzeSymbol_start_spec; [done|]. intros s' _.
      match goal with |- wp _ _ ?k => set (kbB := k) end.
      assert (HgB : good L kbA kbB).
      { split_and!; [|split; [done|done|done|by eexists]|done].
        apply (WF_add_task kbA _ (AnalyzeAwaitingSearch (nextPromise kbA) symInfo hops));
          try done; [|simpl; lia].
        split_and!; [done|simpl; lia|done]. }
      eapply (wp_mono _ (λ _ kb', good L kbB kb')); [|intros; by eapply good_trans].
      destruct HgB as (HwfB & _ & HgeB).
      apply wp_bind, wp_modify_sym; [done|].
      apply wp_bind, wp_modify. apply wp_bind, wp_modify. apply wp_ret.
      match goal with |- good _ _ (set_tasks _ (set_analyzingSymbols _ ?k)) => set (kbC := k) end.
      assert (HgC : good L kbB kbC).
      { split_and!.
        - by apply WF_benign.
        - apply ext_alter_sym, ext_refl.
        - apply levels_ge_alter; [done|]. intros s0 z Hs0. simpl. by apply (HgeB symInfo). }
      destruct HgC as (HwfC & HextC & HgeC).
      split_and!; [|destruct HextC; split; [done|done|done|by eexists]|done].
      apply (WF_add_task kbC _ (EnsureAwaitingAnalysis (nextPromise kbA) symInfo (JS.min2 hops)));
        try done.
      split_and!; [simpl; by rewrite length_alter|simpl; lia|apply level_ok_min2].
Qed.

Lemma ok_refl kb : WF kb → ok kb kb.
Proof. intros. split; [done|apply ext_refl]. Qed.

Lemma ok_trans kb1 kb2 kb3 : ok kb1 kb2 → ok kb2 kb3 → ok kb1 kb3.
Proof. intros [] []. split; eauto using ext_trans. Qed.

(** [ensureSymbolAnalysis] returns for every live symbol and every budget. *)
Lemma ensureSymbolAnalysis_total symInfo hops kb :
  WF kb → (symInfo < length (syms kb))%nat →
  wp (ensureSymbolAnalysis symInfo hops) (λ _ kb', ok kb kb') kb.
Proof.
  intros Hwf Hsym. destruct (cascade_fuel_ok kb hops) as (L & Hge & Hfuel).
  unfold ensureSymbolAnalysis.
  eapply wp_mono; [by apply (ensure_rec_spec L)|].
  intros ? kb' (? & ? & _). by split.
Qed.

Lemma wp_alloc_sym s Q kb :
  Q (length (syms kb)) (set_syms (syms kb ++ [s]) kb) → wp (alloc_sym s) Q kb.
Proof. intros. by eexists _, _. Qed.

Lemma wp_alloc_file f Q kb :
  Q (length (files kb)) (set_files (files kb ++ [f]) kb) → wp (alloc_file f) Q kb.
Proof. intros. by eexists _, _. Qed.

Lemma lookupRawSymbol_spec raw doAnalyze pretty opts kb :
  WF kb →
  wp (lookupRawSymbol raw doAnalyze pretty opts)
     (λ i kb', ok kb kb' ∧
               symbolsByRawName kb' !! normalizeSymbol raw = Some i ∧
               symbolsByRawName kb !! normalizeSymbol raw = Some i ∨
               ok kb kb' ∧
               symbolsByRawName kb' !! normalizeSymbol raw = Some i ∧
               symbolsByRawName kb !! normalizeSymbol raw = None ∧ i = length (syms kb)) kb.
Proof.
  intros Hwf. unfold lookupRawSymbol. set (key := normalizeSymbol raw).
  apply wp_bind, wp_gets.
  destruct (symbolsByRawName kb !! key) as [i|] eqn:Hkey.
  - destruct (wf_map_valid _ _ (proj1 Hwf) key i Hkey) as (s & Hs & Hraw).
    assert (Hi : (i < length (syms kb))%nat) by (by eapply lookup_lt_Some).
    apply wp_bind. eapply wp_get_sym; [done|].
    apply wp_bind. eapply (wp_mono _ (λ _ kb', ok kb kb')).
    { apply wp_when; [|intros _; by apply ok_refl].
      intros _. apply wp_modify_sym; [done|].
      split; [by apply WF_benign|apply ext_alter_sym, ext_refl]. }
    intros [] kb1 Hok1.
    apply wp_bind. eapply (wp_mono _ (λ _ kb', ok kb kb')).
    { apply wp_when; [|done].
      intros _. apply wp_bind. eapply wp_mono.
      - apply ensureSymbolAnalysis_total; [apply Hok1|]. destruct Hok1 as [_ []]. lia.
      - intros ? kb2 Hok2. apply wp_ret. by eapply ok_trans. }
    intros [] kb2 Hok2. apply wp_ret. left.
    split_and!; [done| |done]. by apply (ext_map _ _ (proj2 Hok2)).
  - apply wp_bind, wp_alloc_sym. apply wp_bind, wp_modify.
    match goal with |- wp _ _ ?k => set (kb1 := k) end.
    assert (Hok1 : ok kb kb1).
    { split; [by apply WF_alloc_sym|].
      split; simpl; [rewrite length_app; lia| |done|by apply tasks_grow_same].
      intros k i Hk. rewrite lookup_insert_ne; [done|]. intros ->.
      by rewrite Hkey in Hk. }
    assert (Hkey1 : symbolsByRawName kb1 !! key = Some (length (syms kb))).
    { simpl. apply lookup_insert_eq. }
    apply wp_bind. eapply (wp_mono _ (λ _ kb', ok kb1 kb')).
    { apply wp_when; [|intros _; apply ok_refl, Hok1].
      intros _. apply wp_bind. eapply wp_mono.
      - apply ensureSymbolAnalysis_total; [apply Hok1|]. simpl. rewrite length_app. simpl. lia.
      - intros ? kb2 Hok2. by apply wp_ret. }
    intros [] kb2 Hok2. apply wp_ret. right.
    split_and!; [by eapply ok_trans| |done|done].
    by apply (ext_map _ _ (proj2 Hok2)).
Qed.

(** [lookupRawSymbol] returns, with a live symbol cached under the
    normalized name. *)
Lemma lookupRawSymbol_total raw doAnalyze pretty opts kb :
  WF kb →
  wp (lookupRawSymbol raw doAnalyze pretty opts)
     (λ i kb', ok kb kb' ∧ symbolsByRawName kb' !! normalizeSymbol raw = Some i ∧
               (i < length (syms kb'))%nat) kb.
Proof.
  intros Hwf. eapply wp_mono; [by apply lookupRawSymbol_spec|].
  intros i kb' [(Hok & Hk & _)|(Hok & Hk & _)]; (split_and!; [done|done|]);
    destruct (wf_map_valid _ _ (proj1 (proj1 Hok)) _ _ Hk) as (s & Hs & _);
    by eapply lookup_lt_Some.
Qed.

Lemma ensureFileAnalysis_spec p kb :
  WF kb →
  wp (ensureFileAnalysis p)
     (λ fi kb', ok kb kb' ∧ (fi < length (files kb'))%nat) kb.
Proof.
  intros Hwf. unfold ensureFileAnalysis. apply wp_bind, wp_gets.
  assert (Hfresh :
    wp (fi <- alloc_file (new_FileInfo p) ;;
        modify (λ kb0, set_filesByPath (<[p:=fi]> (filesByPath kb0)) kb0) ;;
        modify_file fi (λ f, mkFileInfo (path f) true (fileSymbolDefs f) (fileSymbolDecls f) (fi_serial f)) ;;
        file_markDirty fi ;; ret fi)
       (λ fi kb', ok kb kb' ∧ (fi < length (files kb'))%nat) kb).
  { apply wp_bind, wp_alloc_file. apply wp_bind, wp_modify.
    match goal with |- wp _ _ ?k => set (kb1 := k) end.
    assert (Hwf1 : WF kb1) by (by apply WF_alloc_file).
    assert (Hlen1 : length (files kb1) = S (length (files kb))).
    { simpl. rewrite length_app. simpl. lia. }
    apply wp_bind, wp_modify_file; [lia|].
    apply wp_bind, wp_modify_file; [simpl; rewrite length_alter; simpl in Hlen1; lia|].
    apply wp_ret. split; [split|].
    - by apply WF_alter_file, (WF_alter_file kb1).
    - split; simpl; [done|done| |by apply tasks_grow_same].
      rewrite !length_alter, length_app. lia.
    - simpl. rewrite !length_alter, length_app. simpl. lia. }
  destruct (filesByPath kb !! p) as [fi|] eqn:Hp.
  - pose proof (proj2 (proj2 Hwf) p fi Hp) as Hfi.
    destruct (lookup_lt_is_Some_2 _ _ Hfi) as [f Hf].
    apply wp_bind. apply wp_bind. eapply wp_get_file; [done|]. apply wp_ret.
    destruct (fi_analyzed f); [|done].
    apply wp_ret. split; [by apply ok_refl|done].
  - apply wp_bind, wp_ret. done.
Qed.

Lemma add_out_then_in_edge ss a b :
  (a < length ss)%nat → (b < length ss)%nat →
  ∃ sa sb, add_out_then_in a b ss !! a = Some sa ∧ add_out_then_in a b ss !! b = Some sb ∧
           b ∈ outEdges sa ∧ a ∈ inEdges sb.
Proof.
  intros [sa Ha]%lookup_lt_is_Some_2 [sb Hb]%lookup_lt_is_Some_2.
  unfold add_out_then_in. rewrite !lookup_alter_dec, Ha, Hb. simpl.
  eexists _, _. split_and!; [done|done|..];
    repeat case_decide; simpl; rewrite ?elem_of_set_add; try tauto; congruence.
Qed.

Lemma add_in_then_out_edge ss a b :
  (a < length ss)%nat → (b < length ss)%nat →
  ∃ sa sb, add_in_then_out a b ss !! a = Some sa ∧ add_in_then_out a b ss !! b = Some sb ∧
           b ∈ outEdges sa ∧ a ∈ inEdges sb.
Proof.
  intros [sa Ha]%lookup_lt_is_Some_2 [sb Hb]%lookup_lt_is_Some_2.
  unfold add_in_then_out. rewrite !lookup_alter_dec, Ha, Hb. simpl.
  eexists _, _. split_and!; [done|done|..];
    repeat case_decide; simpl; rewrite ?elem_of_set_add; try tauto; congruence.
Qed.

Lemma consume_consumes_spec symInfo hops consumedInfo kb :
  WF kb → (symInfo < length (syms kb))%nat →
  wp (consume_consumes symInfo hops consumedInfo)
     (λ _ kb', ok kb kb' ∧
        ∃ consumedSym,
          symbolsByRawName kb' !! normalizeSymbol (normalizeSymbol (c_sym consumedInfo))
            = Some consumedSym ∧
          has_edge kb' symInfo consumedSym) kb.
Proof.
  intros Hwf Hsym. unfold consume_consumes.
  apply wp_bind. eapply wp_mono; [by apply lookupRawSymbol_total|].
  intros c kb1 (Hok1 & Hkey & Hc).
  assert (Hsym1 : (symInfo < length (syms kb1))%nat) by (destruct Hok1 as [_ []]; lia).
  apply wp_bind, wp_modify_sym; [done|].
  apply wp_bind, wp_modify_sym; [simpl; by rewrite !length_alter|].
  apply wp_bind, wp_modify_sym; [simpl; by rewrite !length_alter|].
  apply wp_modify_sym; [simpl; by rewrite !length_alter|].
  match goal with |- _ ∧ (∃ _, _ ∧ has_edge ?k _ _) => set (kb2 := k) end.
  assert (Hsyms : syms kb2 = add_out_then_in symInfo c (syms kb1)) by done.
  assert (Hok2 : ok kb1 kb2).
  { split.
    - by apply (WF_ghost (set_syms (add_out_then_in symInfo c (syms kb1)) kb1));
        [apply WF_add_out_then_in; [apply Hok1|done|done]|..].
    - split; [|done|done|by apply tasks_grow_same].
      rewrite Hsyms. unfold add_out_then_in. by rewrite !length_alter. }
  split; [by eapply ok_trans|]. exists c. split; [done|].
  unfold has_edge. rewrite Hsyms. by apply add_out_then_in_edge.
Qed.

Lemma consume_use_spec symInfo hops pathLines lineResult kb :
  WF kb → (symInfo < length (syms kb))%nat →
  wp (consume_use symInfo hops pathLines lineResult)
     (λ _ kb', ok kb kb' ∧
        (JS.truthy_str (contextsym lineResult) = true →
         ∃ contextSym,
           symbolsByRawName kb' !! normalizeSymbol (normalizeSymbol (contextsym lineResult))
             = Some contextSym ∧
           has_edge kb' contextSym symInfo)) kb.
Proof.
  intros Hwf Hsym. unfold consume_use.
  apply wp_when; [intros Htr|intros ->; split; [by apply ok_refl|done]].
  apply wp_bind. eapply wp_mono; [by apply lookupRawSymbol_total|].
  intros c kb1 (Hok1 & Hkey & Hc).
  assert (Hsym1 : (symInfo < length (syms kb1))%nat) by (destruct Hok1 as [_ []]; lia).
  apply wp_bind, wp_modify_sym; [done|].
  apply wp_bind, wp_modify_sym; [simpl; by rewrite !length_alter|].
  apply wp_bind, wp_modify_sym; [simpl; by rewrite !length_alter|].
  apply wp_modify_sym; [simpl; by rewrite !length_alter|].
  match goal with |- _ ∧ (_ → ∃ _, _ ∧ has_edge ?k _ _) => set (kb2 := k) end.
  assert (Hsyms : syms kb2 = add_in_then_out c symInfo (syms kb1)) by done.
  assert (Hok2 : ok kb1 kb2).
  { split.
    - by apply (WF_ghost (set_syms (add_in_then_out c symInfo (syms kb1)) kb1));
        [apply WF_add_in_then_out; [apply Hok1|done|done]|..].
    - split; [|done|done|by apply tasks_grow_same].
      rewrite Hsyms. unfold add_in_then_out. by rewrite !length_alter. }
  split; [by eapply ok_trans|]. intros _. exists c. split; [done|].
  unfold has_edge. rewrite Hsyms. by apply add_in_then_out_edge.
Qed.

Lemma bind_file_spec symInfo fi (g : option FileId → SymbolInfo → SymbolInfo)
    (h : FileInfo → FileInfo) kb :
  WF kb → (symInfo < length (syms kb))%nat → (fi < length (files kb))%nat →
  (∀ s, rawName (g (Some fi) s) = rawName s) →
  (∀ s, outEdges (g (Some fi) s) = outEdges s) →
  (∀ s, inEdges (g (Some fi) s) = inEdges s) →
  (∀ s, analyzed (g (Some fi) s) = analyzed s) →
  wp (modify_sym symInfo (g (Some fi)) ;; modify_file fi h ;; file_markDirty fi)
     (λ _ kb', ok kb kb') kb.
Proof.
  intros Hwf Hsym Hfi ????.
  apply wp_bind, wp_modify_sym; [done|].
  apply wp_bind, wp_modify_file; [done|].
  apply wp_modify_file; [simpl; by rewrite length_alter|].
  split.
  - apply WF_alter_file, (WF_alter_file (set_syms _ kb)). by apply WF_benign.
  - split; simpl; [by rewrite length_alter|done|by rewrite !length_alter|by apply tasks_grow_same].
Qed.

Lemma consume_useGroup_spec symInfo hops useType pathLinesArray kb :
  WF kb → (symInfo < length (syms kb))%nat →
  wp (consume_useGroup symInfo hops useType pathLinesArray) (λ _ kb', ok kb kb') kb.
Proof.
  intros Hwf Hsym. destruct (lookup_lt_is_Some_2 _ _ Hsym) as [s Hs].
  unfold consume_useGroup. repeat case_bool_decide.
  - apply wp_bind. eapply wp_get_sym; [done|].
    destruct pathLinesArray as [|pl [|]]; try (apply wp_ret; by apply ok_refl).
    destruct (sourceFileInfo s); [apply wp_ret; by apply ok_refl|].
    apply wp_bind. eapply wp_mono; [by apply ensureFileAnalysis_spec|].
    intros fi kb1 (Hok1 & Hfi). eapply wp_mono.
    + apply (bind_file_spec symInfo fi upd_sourceFile); try done; [apply Hok1|].
      destruct Hok1 as [_ []]; lia.
    + intros ? kb2 Hok2. by eapply ok_trans.
  - apply wp_bind. eapply wp_get_sym; [done|].
    destruct pathLinesArray as [|pl [|]]; try (apply wp_ret; by apply ok_refl).
    destruct (declFileInfo s); [apply wp_ret; by apply ok_refl|].
    apply wp_bind. eapply wp_mono; [by apply ensureFileAnalysis_spec|].
    intros fi kb1 (Hok1 & Hfi). eapply wp_mono.
    + apply (bind_file_spec symInfo fi upd_declFile); try done; [apply Hok1|].
      destruct Hok1 as [_ []]; lia.
    + intros ? kb2 Hok2. by eapply ok_trans.
  - apply (wp_forM (ok kb)); [|by apply ok_refl].
    intros pathLines kb1 _ Hok1. eapply wp_mono.
    + apply (wp_forM (ok kb1)); [|apply ok_refl, Hok1].
      intros lineResult kb2 _ Hok2. eapply wp_mono.
      * apply consume_use_spec; [apply Hok2|].
        destruct Hok1 as [_ []], Hok2 as [_ []]. lia.
      * intros ? kb3 [Hok3 _]. by eapply ok_trans.
    + intros ? kb2 Hok2. by eapply ok_trans.
  - apply wp_ret. by apply ok_refl.
Qed.

Lemma consume_result_spec symInfo hops rawSymInfo kb :
  WF kb → (symInfo < length (syms kb))%nat →
  wp (consume_result symInfo hops rawSymInfo) (λ _ kb', ok kb kb') kb.
Proof.
  intros Hwf Hsym. destruct (lookup_lt_is_Some_2 _ _ Hsym) as [s Hs].
  unfold consume_result. apply wp_bind. eapply wp_get_sym; [done|].
  destruct (negb _); [apply wp_ret; by apply ok_refl|].
  apply wp_bind. eapply (wp_mono _ (λ _ kb', ok kb kb')).
  { destruct (rs_meta rawSymInfo); [|apply wp_ret; by apply ok_refl].
    apply wp_modify_sym; [done|].
    split; [by apply WF_benign|apply ext_alter_sym, ext_refl]. }
  intros [] kb1 Hok1.
  assert (Hsym1 : (symInfo < length (syms kb1))%nat) by (destruct Hok1 as [_ []]; lia).
  eapply (wp_mono _ (λ _ kb', ok kb1 kb')); [|intros; by eapply ok_trans].
  apply wp_bind. eapply (wp_mono _ (λ _ kb', ok kb1 kb')).
  { destruct (rs_consumes rawSymInfo) as [consumes|]; [|apply wp_ret; apply ok_refl, Hok1].
    apply (wp_forM (ok kb1)); [|apply ok_refl, Hok1].
    intros c kb2 _ Hok2. eapply wp_mono.
    - apply consume_consumes_spec; [apply Hok2|]. destruct Hok2 as [_ []]. lia.
    - intros ? kb3 [Hok3 _]. by eapply ok_trans. }
  intros [] kb2 Hok2.
  assert (Hsym2 : (symInfo < length (syms kb2))%nat) by (destruct Hok2 as [_ []]; lia).
  destruct (rs_hits rawSymInfo) as [hits|]; [|by apply wp_ret].
  eapply (wp_mono _ (λ _ kb', ok kb2 kb')); [|intros; by eapply ok_trans].
  apply (wp_forM (ok kb2)); [|apply ok_refl, Hok2].
  intros [pathKind useGroups] kb3 _ Hok3. eapply wp_mono.
  - apply (wp_forM (ok kb3)); [|apply ok_refl, Hok3].
    intros [useType pathLinesArray] kb4 _ Hok4. eapply wp_mono.
    + apply consume_useGroup_spec; [apply Hok4|].
      destruct Hok3 as [_ []], Hok4 as [_ []]. lia.
    + intros ? kb5 Hok5. by eapply ok_trans.
  - intros ? kb4 Hok4. by eapply ok_trans.
Qed.

Lemma analyzeSymbol_resume_spec symInfo hops semantic kb :
  WF kb → (symInfo < length (syms kb))%nat →
  wp (analyzeSymbol_resume symInfo hops semantic) (λ _ kb', ok kb kb') kb.
Proof.
  intros Hwf Hsym. unfold analyzeSymbol_resume.
  apply (wp_forM (ok kb)); [|by apply ok_refl].
  intros [rawSym rawSymInfo] kb1 _ Hok1. eapply wp_mono.
  - apply consume_result_spec; [apply Hok1|]. destruct Hok1 as [_ []]. lia.
  - intros ? kb2 Hok2. by eapply ok_trans.
Qed.

Lemma ensure_resume_spec symInfo clampedLevel kb :
  WF kb → (symInfo < length (syms kb))%nat → level_ok clampedLevel →
  wp (ensure_resume symInfo clampedLevel)
     (λ _ kb', ok kb kb' ∧
               ∃ s, syms kb' !! symInfo = Some s ∧
                    analyzed s = clampedLevel ∧ analyzing s = None) kb.
Proof.
  intros Hwf Hsym Hlvl. destruct (lookup_lt_is_Some_2 _ _ Hsym) as [s Hs].
  unfold ensure_resume.
  apply wp_bind, wp_modify_sym; [done|].
  apply wp_bind, wp_modify_sym; [simpl; by rewrite length_alter|].
  apply wp_bind, wp_modify.
  apply wp_modify_sym; [simpl; by rewrite !length_alter|].
  split; [split|].
  - apply (WF_benign (set_analyzingSymbols _ _)); try done.
    apply (WF_ghost (set_syms (alter (upd_analyzed clampedLevel) symInfo
             (syms (set_syms (alter (upd_analyzing None) symInfo (syms kb)) kb)))
             (set_syms (alter (upd_analyzing None) symInfo (syms kb)) kb))); try done.
    apply WF_alter_sym; try done. by apply WF_benign.
  - split; simpl; [by rewrite !length_alter|done|done|by apply tasks_grow_same].
  - simpl. rewrite !lookup_alter_dec, Hs. simpl. eexists. split; [done|].
    by rewrite !decide_True.
Qed.

(** ** Every reachable state is well-formed *)

Lemma take_analyze_spec p ts sym hops rest :
  take_analyze p ts = Some (sym, hops, rest) →
  AnalyzeAwaitingSearch p sym hops ∈ ts ∧ ∀ t, t ∈ rest → t ∈ ts.
Proof.
  revert rest. induction ts as [|t ts IH]; intros rest; simpl; [done|].
  destruct t as [q sym' hops'|q sym' lvl].
  - case_decide as Hq.
    + intros [= -> -> ->]. subst. split; [by left|]. intros t ?. by right.
    + destruct (take_analyze p ts) as [[[sym0 hops0] rest0]|]; simpl; [|done].
      intros [= -> -> <-]. destruct (IH rest0 eq_refl) as [Hin Hsub].
      split; [by right|]. intros t [->|?]%elem_of_cons; [by left|right; auto].
  - destruct (take_analyze p ts) as [[[sym0 hops0] rest0]|]; simpl; [|done].
    intros [= -> -> <-]. destruct (IH rest0 eq_refl) as [Hin Hsub].
    split; [by right|]. intros t [->|?]%elem_of_cons; [by left|right; auto].
Qed.

Lemma take_ensure_spec p ts sym lvl rest :
  take_ensure p ts = Some (sym, lvl, rest) →
  EnsureAwaitingAnalysis p sym lvl ∈ ts ∧ ∀ t, t ∈ rest → t ∈ ts.
Proof.
  revert rest. induction ts as [|t ts IH]; intros rest; simpl; [done|].
  destruct t as [q sym' hops'|q sym' lvl'].
  - destruct (take_ensure p ts) as [[[sym0 lvl0] rest0]|]; simpl; [|done].
    intros [= -> -> <-]. destruct (IH rest0 eq_refl) as [Hin Hsub].
    split; [by right|]. intros t [->|?]%elem_of_cons; [by left|right; auto].
  - case_decide as Hq.
    + intros [= -> -> ->]. subst. split; [by left|]. intros t ?. by right.
    + destruct (take_ensure p ts) as [[[sym0 lvl0] rest0]|]; simpl; [|done].
      intros [= -> -> <-]. destruct (IH rest0 eq_refl) as [Hin Hsub].
      split; [by right|]. intros t [->|?]%elem_of_cons; [by left|right; auto].
Qed.

Lemma ok_ok_later kb0 kb : ok kb0 kb → ok_later kb0 kb.
Proof. intros [? ?]. split; [done|by apply ext_later]. Qed.

(** Every enabled event runs to completion. *)
Lemma step_total ev kb :
  WF kb → enabled ev kb → wp (step ev) (λ _ kb', ok_later kb kb') kb.
Proof.
  intros Hwf Hen. destruct ev as [raw d pretty opts|sym hops|p|p semantic|p]; simpl in *.
  - apply wp_bind. eapply wp_mono; [by apply lookupRawSymbol_total|].
    intros i kb' (Hok & _). by apply wp_ret, ok_ok_later.
  - apply wp_bind. eapply wp_mono; [by apply ensureSymbolAnalysis_total|].
    intros ? kb' Hok. by apply wp_ret, ok_ok_later.
  - apply wp_bind. eapply wp_mono; [by apply ensureFileAnalysis_spec|].
    intros ? kb' [Hok _]. by apply wp_ret, ok_ok_later.
  - destruct Hen as [[[sym hops] rest] Htake].
    destruct (take_analyze_spec _ _ _ _ _ Htake) as [Hin Hsub].
    apply wp_bind. eapply (wp_lift_opt (λ kb, take_analyze p (tasks kb))); [done|].
    apply wp_bind, wp_modify.
    assert (Hwf1 : WF (set_tasks rest kb)) by (by apply WF_sub_tasks).
    destruct (proj1 (proj2 Hwf) _ Hin) as (Hsym & _ & _).
    apply wp_bind. eapply wp_mono.
    + by apply analyzeSymbol_resume_spec.
    + intros ? kb' [Hwf' Hext']. apply wp_modify. split; [by apply (WF_ghost kb')|].
      destruct Hext'. by split.
  - destruct Hen as [[[[sym lvl] rest] Htake] Hset].
    destruct (take_ensure_spec _ _ _ _ _ Htake) as [Hin Hsub].
    apply wp_bind. eapply (wp_lift_opt (λ kb, take_ensure p (tasks kb))); [done|].
    apply wp_bind, wp_gets. rewrite bool_decide_eq_true_2 by done.
    apply wp_bind, wp_modify.
    assert (Hwf1 : WF (set_tasks rest kb)) by (by apply WF_sub_tasks).
    destruct (proj1 (proj2 Hwf) _ Hin) as (Hsym & _ & Hlvl).
    eapply wp_mono; [by apply ensure_resume_spec|].
    intros ? kb' [[Hwf' Hext'] _]. split; [done|]. destruct Hext'. by split.
Qed.

Lemma step_enabled ev kb r : step ev kb = Some r → enabled ev kb.
Proof.
  destruct ev as [raw d pretty opts|sym hops|p|p semantic|p]; simpl; try done.
  - unfold bind, ensureSymbolAnalysis, cascade_fuel.
    destruct (decide (sym < length (syms kb))%nat) as [|Hge]; [done|].
    assert (Hnone : syms kb !! sym = None) by (apply lookup_ge_None; lia).
    destruct (JS.toNumber hops); simpl; unfold bind, modify, get_sym, lift_opt; simpl;
      by rewrite Hnone.
  - unfold bind, lift_opt. by destruct (take_analyze p (tasks kb)).
  - unfold bind, lift_opt, gets. destruct (take_ensure p (tasks kb)) as [[[sym lvl] rest]|]; [|done].
    case_bool_decide; [|done]. intros _. split; [by eexists|done].
Qed.

Lemma step_ok ev kb kb' : WF kb → step ev kb = Some (tt, kb') → ok_later kb kb'.
Proof.
  intros Hwf Hstep. destruct (step_total ev kb Hwf (step_enabled _ _ _ Hstep))
    as (a & kb'' & Heq & Hok). congruence.
Qed.

Lemma run_ok evs : ∀ kb kb', WF kb → run evs kb = Some (tt, kb') → ok_later kb kb'.
Proof.
  induction evs as [|ev evs IH]; intros kb kb' Hwf; simpl.
  - intros [= <-]. split; [done|apply later_refl].
  - unfold bind. destruct (step ev kb) as [[[] kb1]|] eqn:Hstep; [|done].
    intros Hrun. destruct (step_ok _ _ _ Hwf Hstep) as [Hwf1 Hl1].
    destruct (IH kb1 kb' Hwf1 Hrun) as [Hwf' Hl']. split; [done|by eapply later_trans].
Qed.

Lemma reachable_WF kb : reachable kb → WF kb.
Proof. intros [evs Hrun]. apply (run_ok evs empty kb WF_empty Hrun). Qed.

Lemma reachable_empty : reachable empty.
Proof. by exists []. Qed.

(** ** Symbol identity (C1) *)

Lemma normalizeSymbol_comma R :
  has_comma R = true → normalizeSymbol (Some R) = Some (first_component R).
Proof. destruct R; [done|]. unfold normalizeSymbol. simpl. by intros ->. Qed.

Lemma has_comma_app A B : has_comma (String.append A (String "," B)) = true.
Proof. induction A as [|c A IH]; simpl; [done|]. by destruct (Ascii.eqb c ","). Qed.

Lemma first_component_app A B :
  has_comma A = false → first_component (String.append A (String "," B)) = A.
Proof.
  induction A as [|c A IH]; simpl; [done|].
  destruct (Ascii.eqb c ","); [done|]. intros ?. f_equal. auto.
Qed.

(** For a non-empty, comma-free [A], the names ["A,B"] and ["A"] have the
    same key. *)
Lemma normalizeSymbol_first A B :
  A ≠ EmptyString → has_comma A = false →
  normalizeSymbol (Some (String.append A (String "," B))) = normalizeSymbol (Some A).
Proof.
  intros HA Hc. rewrite normalizeSymbol_comma by apply has_comma_app.
  rewrite first_component_app by done.
  unfold normalizeSymbol. destruct A; [done|]. simpl in *. by rewrite Hc.
Qed.

(** Two lookups under names with the same key hand back the same symbol,
    whatever happens in between. *)
Lemma lookup_same_key kb raw raw' d1 p1 o1 :
  WF kb → normalizeSymbol raw = normalizeSymbol raw' →
  ∃ i kb1, lookupRawSymbol raw d1 p1 o1 kb = Some (i, kb1) ∧
    ∀ evs kb2 d2 p2 o2, run evs kb1 = Some (tt, kb2) →
      ∃ kb3, lookupRawSymbol raw' d2 p2 o2 kb2 = Some (i, kb3).
Proof.
  intros Hwf Hkey.
  destruct (lookupRawSymbol_total raw d1 p1 o1 kb Hwf) as (i & kb1 & Hl & Hok1 & Hk1 & _).
  exists i, kb1. split; [done|]. intros evs kb2 d2 p2 o2 Hrun.
  destruct (run_ok evs kb1 kb2 (proj1 Hok1) Hrun) as [Hwf2 Hext2].
  pose proof (later_map _ _ Hext2 _ _ Hk1) as Hk2. rewrite Hkey in Hk2.
  destruct (lookupRawSymbol_spec raw' d2 p2 o2 kb2 Hwf2) as (j & kb3 & Hl' & Hcase).
  exists kb3. rewrite Hl'. destruct Hcase as [(_ & _ & Hj)|(_ & _ & Hj & _)];
    rewrite Hk2 in Hj; congruence.
Qed.

(** [C1] Identity uniqueness.  In every state a knowledge base can reach:
    (a) two calls of [lookupRawSymbol] with the same raw name return the same
    [SymbolInfo], whatever their other arguments and whatever calls, search
    answers and resumptions happen in between; (b) no two [SymbolInfo]s in
    the store have the same raw name; (c) a comma-delimited name is cached
    under its first comma-separated component, which becomes the symbol's
    raw name; (d) looking up ["A,B"] and then ["A"] yields the same
    [SymbolInfo], and so does every pair ["A,B"], ["A"] with a non-empty,
    comma-free ["A"] (the code reads an empty name as no name at all: it is
    keyed by [null], so [",B"] and [""] do not meet). *)
Theorem C1_identity_uniqueness (kb : KB) (Hreach : reachable kb) :
  (∀ raw d1 p1 o1,
     ∃ i kb1, lookupRawSymbol raw d1 p1 o1 kb = Some (i, kb1) ∧
       ∀ evs kb2 d2 p2 o2, run evs kb1 = Some (tt, kb2) →
         ∃ kb3, lookupRawSymbol raw d2 p2 o2 kb2 = Some (i, kb3)) ∧
  (∀ i j si sj, syms kb !! i = Some si → syms kb !! j = Some sj →
     rawName si = rawName sj → i = j) ∧
  (∀ R d p o, has_comma R = true →
     ∃ i kb1 s, lookupRawSymbol (Some R) d p o kb = Some (i, kb1) ∧
       symbolsByRawName kb1 !! Some (first_component R) = Some i ∧
       syms kb1 !! i = Some s ∧ rawName s = Some (first_component R)) ∧
  (∀ d1 p1 o1,
     ∃ i kb1, lookupRawSymbol (Some "A,B"%string) d1 p1 o1 kb = Some (i, kb1) ∧
       ∀ evs kb2 d2 p2 o2, run evs kb1 = Some (tt, kb2) →
         ∃ kb3, lookupRawSymbol (Some "A"%string) d2 p2 o2 kb2 = Some (i, kb3)) ∧
  (∀ A B d1 p1 o1, A ≠ EmptyString → has_comma A = false →
     ∃ i kb1, lookupRawSymbol (Some (String.append A (String "," B))) d1 p1 o1 kb = Some (i, kb1) ∧
       ∀ evs kb2 d2 p2 o2, run evs kb1 = Some (tt, kb2) →
         ∃ kb3, lookupRawSymbol (Some A) d2 p2 o2 kb2 = Some (i, kb3)).
Proof.
  pose proof (reachable_WF kb Hreach) as Hwf. split_and!.
  - intros raw d1 p1 o1. by apply lookup_same_key.
  - intros i j si sj Hi Hj Heq.
    pose proof (wf_registered _ _ (proj1 Hwf) i si Hi) as Hri.
    pose proof (wf_registered _ _ (proj1 Hwf) j sj Hj) as Hrj.
    rewrite Heq in Hri. congruence.
  - intros R d p o Hc.
    destruct (lookupRawSymbol_total (Some R) d p o kb Hwf) as (i & kb1 & Hl & Hok1 & Hk1 & _).
    rewrite normalizeSymbol_comma in Hk1 by done.
    destruct (wf_map_valid _ _ (proj1 (proj1 Hok1)) _ _ Hk1) as (s & Hs & Hraw).
    by exists i, kb1, s.
  - intros d1 p1 o1. by apply lookup_same_key.
  - intros A B d1 p1 o1 HA Hc. apply lookup_same_key; [done|].
    by apply normalizeSymbol_first.
Qed.

Lemma C1_identity_uniqueness_witness :
  ∃ i kb1,
    lookupRawSymbol (Some "_ZN3Foo3barEv,_ZN3Foo3bazEv"%string) (JS.VBool true) None None empty
      = Some (i, kb1) ∧
    ∀ evs kb2 d2 p2 o2, run evs kb1 = Some (tt, kb2) →
      ∃ kb3, lookupRawSymbol (Some "_ZN3Foo3barEv"%string) d2 p2 o2 kb2 = Some (i, kb3).
Proof.
  destruct (C1_identity_uniqueness empty reachable_empty) as (_ & _ & _ & _ & H).
  apply (H "_ZN3Foo3barEv"%string "_ZN3Foo3bazEv"%string); [done|reflexivity].
Defined.

(** ** Edge mirroring (C4) *)

Lemma WF_mirrored kb : WF kb → mirrored kb.
Proof. intros Hwf a b sa sb Ha Hb. apply (wf_mirrored _ _ (proj1 Hwf) b a sb sa Hb Ha). Qed.

(** [C4] Edge mirroring.  In every state a knowledge base can reach, for all
    symbols [a], [b]: [a ∈ b.outEdges] if and only if [b ∈ a.inEdges].  The
    processing of one "consumes" entry leaves the consumed symbol among the
    analyzed symbol's out-edges and the analyzed symbol among the consumed
    symbol's in-edges; the processing of one "uses" line with a calling
    context leaves the context symbol among the analyzed symbol's in-edges
    and the analyzed symbol among the context symbol's out-edges; both leave
    the mirror law in force. *)
Theorem C4_edge_mirroring (kb : KB) (Hreach : reachable kb) :
  mirrored kb ∧
  (∀ symInfo hops consumedInfo, (symInfo < length (syms kb))%nat →
     ∃ kb' consumedSym,
       consume_consumes symInfo hops consumedInfo kb = Some (tt, kb') ∧
       symbolsByRawName kb' !! normalizeSymbol (normalizeSymbol (c_sym consumedInfo))
         = Some consumedSym ∧
       has_edge kb' symInfo consumedSym ∧ mirrored kb') ∧
  (∀ symInfo hops pathLines lineResult, (symInfo < length (syms kb))%nat →
     JS.truthy_str (contextsym lineResult) = true →
     ∃ kb' contextSym,
       consume_use symInfo hops pathLines lineResult kb = Some (tt, kb') ∧
       symbolsByRawName kb' !! normalizeSymbol (normalizeSymbol (contextsym lineResult))
         = Some contextSym ∧
       has_edge kb' contextSym symInfo ∧ mirrored kb').
Proof.
  pose proof (reachable_WF kb Hreach) as Hwf. split_and!.
  - by apply WF_mirrored.
  - intros symInfo hops ci Hsym.
    destruct (consume_consumes_spec symInfo hops ci kb Hwf Hsym)
      as ([] & kb' & Hrun & Hok & c & Hkey & Hedge).
    exists kb', c. split_and!; try done. apply WF_mirrored, Hok.
  - intros symInfo hops pl lr Hsym Htr.
    destruct (consume_use_spec symInfo hops pl lr kb Hwf Hsym)
      as ([] & kb' & Hrun & Hok & Hedge).
    destruct (Hedge Htr) as (c & Hkey & He).
    exists kb', c. split_and!; try done. apply WF_mirrored, Hok.
Qed.

Lemma C4_edge_mirroring_witness :
  reachable demo_kb ∧ mirrored demo_kb ∧
  ∃ kb' consumedSym,
    consume_consumes 0 (JS.VNum 1) (mkConsumed (Some "k"%string) None None) demo_kb
      = Some (tt, kb') ∧
    has_edge kb' 0 consumedSym ∧ mirrored kb'.
Proof.
  assert (Hr : reachable demo_kb) by (exists demo_events; vm_compute; reflexivity).
  destruct (C4_edge_mirroring demo_kb Hr) as (Hm & Hc & _).
  split_and!; [done|done|].
  destruct (Hc 0%nat (JS.VNum 1) (mkConsumed (Some "k"%string) None None))
    as (kb' & c & ? & _ & ? & ?); [vm_compute; lia|].
  by exists kb', c.
Defined.

(** ** Hop clamp (C5) *)

Lemma cascade_fuel_S kb hops : ∃ n, cascade_fuel kb hops = S n.
Proof. unfold cascade_fuel. destruct (JS.toNumber hops); by eexists. Qed.

(** On a symbol that is neither analyzed nor being analyzed the call issues
    the search and suspends, with the clamped level fixed for its
    completion. *)
Lemma ensureSymbolAnalysis_idle kb symInfo s hops :
  syms kb !! symInfo = Some s →
  JS.truthy (analyzed s) = false → analyzing s = None →
  ∃ kb', ensureSymbolAnalysis symInfo hops kb = Some (Suspended (nextPromise kb), kb') ∧
    tasks kb' = tasks kb ++ [AnalyzeAwaitingSearch (nextPromise kb) symInfo hops;
                             EnsureAwaitingAnalysis (nextPromise kb) symInfo (JS.min2 hops)] ∧
    searches kb' = searches kb ++ [(symInfo, search_query (rawName s))] ∧
    ensureCalls kb' = ensureCalls kb ++ [(symInfo, hops)].
Proof.
  intros Hs Htr Hp. unfold ensureSymbolAnalysis.
  destruct (cascade_fuel_S kb hops) as [n ->].
  unfold ensure_rec, analyzeSymbol_start, modify_sym, bind, modify, get_sym, lift_opt, gets, ret.
  simpl. rewrite Hs, Htr, Hp. simpl. rewrite Hs. simpl. rewrite Hs.
  eexists. split; [reflexivity|]. simpl. by rewrite <- app_assoc.
Qed.

(** While the analysis is in flight a further call hands back the pending
    promise and changes nothing but the call history: no search is issued. *)
Lemma ensureSymbolAnalysis_in_flight kb symInfo s p hops :
  syms kb !! symInfo = Some s →
  JS.truthy (analyzed s) = false → analyzing s = Some p →
  ensureSymbolAnalysis symInfo hops kb
  = Some (ReturnedPending p, set_ensureCalls (ensureCalls kb ++ [(symInfo, hops)]) kb).
Proof.
  intros Hs Htr Hp. unfold ensureSymbolAnalysis.
  destruct (cascade_fuel_S kb hops) as [n ->].
  unfold ensure_rec, bind, modify, get_sym, lift_opt, ret.
  simpl. by rewrite Hs, Htr, Hp.
Qed.

(** Resuming a suspended [ensureSymbolAnalysis] stores the level it fixed
    when it was called. *)
Lemma resume_stores_level kb p symInfo lvl rest :
  WF kb → take_ensure p (tasks kb) = Some (symInfo, lvl, rest) → p ∈ settled kb →
  ∃ kb' s, step (Resume p) kb = Some (tt, kb') ∧
           syms kb' !! symInfo = Some s ∧ analyzed s = lvl ∧ analyzing s = None.
Proof.
  intros Hwf Htake Hset.
  destruct (take_ensure_spec _ _ _ _ _ Htake) as [Hin Hsub].
  destruct (proj1 (proj2 Hwf) _ Hin) as (Hsym & _ & Hlvl).
  assert (Hwf1 : WF (set_tasks rest kb)) by (by apply WF_sub_tasks).
  destruct (ensure_resume_spec symInfo lvl (set_tasks rest kb) Hwf1 Hsym Hlvl)
    as ([] & kb' & Hrun & _ & s & Hs & Hlev & Han).
  exists kb', s. split; [|done].
  simpl. unfold bind, lift_opt, gets, modify. rewrite Htake.
  by rewrite bool_decide_eq_true_2.
Qed.

Lemma run_cons ev evs kb :
  run (ev :: evs) kb
  = match step ev kb with Some (_, kb1) => run evs kb1 | None => None end.
Proof. simpl. unfold bind. by destruct (step ev kb) as [[[] ?]|]. Qed.

Lemma take_analyze_fresh p old sym hops more :
  (∀ t, t ∈ old → task_promise t ≠ p) →
  take_analyze p (old ++ AnalyzeAwaitingSearch p sym hops :: more)
  = Some (sym, hops, old ++ more).
Proof.
  induction old as [|t old IH]; intros Hold; simpl.
  - by rewrite decide_True.
  - rewrite IH by (intros t' ?; apply Hold; by right).
    assert (Ht : task_promise t ≠ p) by (apply Hold; by left).
    destruct t; simpl in *; [by rewrite decide_False by done|done].
Qed.

Lemma take_ensure_fresh p old sym lvl more :
  (∀ t, t ∈ old → task_promise t ≠ p) →
  take_ensure p (old ++ EnsureAwaitingAnalysis p sym lvl :: more)
  = Some (sym, lvl, old ++ more).
Proof.
  induction old as [|t old IH]; intros Hold; simpl.
  - by rewrite decide_True.
  - rewrite IH by (intros t' ?; apply Hold; by right).
    assert (Ht : task_promise t ≠ p) by (apply Hold; by left).
    destruct t; simpl in *; [done|by rewrite decide_False by done].
Qed.

(** From request to completion: on a symbol that is neither analyzed nor
    being analyzed, the call, the answer of its search (whatever it holds)
    and the resumption go through, and leave the symbol with the clamped
    level. *)
Lemma analysis_completes kb symInfo s hops semantic :
  WF kb → syms kb !! symInfo = Some s →
  JS.truthy (analyzed s) = false → analyzing s = None →
  ∃ kb' s', run [ CallEnsureSymbolAnalysis symInfo hops;
                  SearchReply (nextPromise kb) semantic;
                  Resume (nextPromise kb) ] kb = Some (tt, kb') ∧
            syms kb' !! symInfo = Some s' ∧
            analyzed s' = JS.min2 hops ∧ analyzing s' = None.
Proof.
  intros Hwf Hs Htr Hp. set (p := nextPromise kb).
  assert (Hsym : (symInfo < length (syms kb))%nat) by (by eapply lookup_lt_Some).
  assert (Hold : ∀ t, t ∈ tasks kb → task_promise t ≠ p).
  { intros t Ht. destruct (proj1 (proj2 Hwf) t Ht) as (_ & ? & _). unfold p. lia. }
  (* the call *)
  destruct (ensureSymbolAnalysis_idle kb symInfo s hops Hs Htr Hp) as (kb1 & Hrun1 & Ht1 & _).
  destruct (ensureSymbolAnalysis_total symInfo hops kb Hwf Hsym) as (r & kb1' & Hrun1' & Hok1).
  rewrite Hrun1 in Hrun1'. injection Hrun1' as <- <-.
  (* the answer *)
  assert (Htake1 : take_analyze p (tasks kb1)
                   = Some (symInfo, hops, tasks kb ++ [EnsureAwaitingAnalysis p symInfo (JS.min2 hops)])).
  { rewrite Ht1. by apply take_analyze_fresh. }
  destruct (take_analyze_spec _ _ _ _ _ Htake1) as [_ Hsub1].
  set (rest := tasks kb ++ [EnsureAwaitingAnalysis p symInfo (JS.min2 hops)]) in *.
  assert (Hwf1 : WF (set_tasks rest kb1)) by (apply WF_sub_tasks; [apply Hok1|done]).
  assert (Hsym1 : (symInfo < length (syms (set_tasks rest kb1)))%nat).
  { destruct Hok1 as [_ []]. simpl. lia. }
  destruct (analyzeSymbol_resume_spec symInfo hops semantic _ Hwf1 Hsym1)
    as ([] & kb2 & Hrun2 & Hwf2 & Hext2).
  destruct (ext_tasks _ _ Hext2) as [more Hmore]. simpl in Hmore.
  set (kb3 := set_settled (p :: settled kb2) kb2).
  assert (Hstep2 : step (SearchReply p semantic) kb1 = Some (tt, kb3)).
  { simpl. unfold bind, lift_opt, modify. rewrite Htake1. by rewrite Hrun2. }
  (* the resumption *)
  assert (Hwf3 : WF kb3) by (by apply (WF_ghost kb2)).
  assert (Htake3 : take_ensure p (tasks kb3) = Some (symInfo, JS.min2 hops, tasks kb ++ more)).
  { simpl. rewrite Hmore. unfold rest. rewrite <- app_assoc. simpl.
    by apply take_ensure_fresh. }
  destruct (resume_stores_level kb3 p symInfo _ _ Hwf3 Htake3) as (kb' & s' & Hstep3 & Hs' & Hlvl & Han).
  { simpl. by left. }
  assert (Hstep1 : step (CallEnsureSymbolAnalysis symInfo hops) kb = Some (tt, kb1)).
  { simpl. unfold bind. by rewrite Hrun1. }
  exists kb', s'. split; [|done].
  rewrite run_cons, Hstep1. cbv beta iota. fold p.
  rewrite run_cons, Hstep2. cbv beta iota.
  by rewrite run_cons, Hstep3.
Qed.

(** [C5] Hop clamp.  In every state a knowledge base can reach no symbol has
    an analyzed level above 2.  [Math.min(2, hops)] is never above 2 (and is
    2 for [hops = 10]).  A request for the analysis of a symbol that is
    neither analyzed nor being analyzed runs to completion (call, search
    answer, resumption) and leaves the symbol with level
    [Math.min(2, hops)], whatever [hops] is; the call suspends with exactly
    that level, and the completion of any suspended call stores the level it
    was suspended with. *)
Theorem C5_hop_clamp (kb : KB) (Hreach : reachable kb) :
  (∀ i s z, syms kb !! i = Some s → JS.toNumber (analyzed s) = Some z → z ≤ 2) ∧
  (∀ hops z, JS.toNumber (JS.min2 hops) = Some z → z ≤ 2) ∧
  JS.min2 (JS.VNum 10) = JS.VNum 2 ∧
  (∀ symInfo s hops semantic, syms kb !! symInfo = Some s →
     JS.truthy (analyzed s) = false → analyzing s = None →
     ∃ kb' s', run [ CallEnsureSymbolAnalysis symInfo hops;
                     SearchReply (nextPromise kb) semantic;
                     Resume (nextPromise kb) ] kb = Some (tt, kb') ∧
               syms kb' !! symInfo = Some s' ∧ analyzed s' = JS.min2 hops) ∧
  (∀ symInfo s hops, syms kb !! symInfo = Some s →
     JS.truthy (analyzed s) = false → analyzing s = None →
     ∃ kb', ensureSymbolAnalysis symInfo hops kb = Some (Suspended (nextPromise kb), kb') ∧
            EnsureAwaitingAnalysis (nextPromise kb) symInfo (JS.min2 hops) ∈ tasks kb') ∧
  (∀ p symInfo lvl rest,
     take_ensure p (tasks kb) = Some (symInfo, lvl, rest) → p ∈ settled kb →
     ∃ kb' s, step (Resume p) kb = Some (tt, kb') ∧
              syms kb' !! symInfo = Some s ∧ analyzed s = lvl).
Proof.
  pose proof (reachable_WF kb Hreach) as Hwf. split_and!.
  - intros i s z Hs. by apply (wf_levels _ _ (proj1 Hwf) i s Hs).
  - intros hops. apply level_ok_min2.
  - reflexivity.
  - intros symInfo s hops semantic Hs Htr Hp.
    destruct (analysis_completes kb symInfo s hops semantic Hwf Hs Htr Hp)
      as (kb' & s' & ? & ? & ? & _).
    by exists kb', s'.
  - intros symInfo s hops Hs Htr Hp.
    destruct (ensureSymbolAnalysis_idle kb symInfo s hops Hs Htr Hp) as (kb' & Hrun & Ht & _).
    exists kb'. split; [done|]. rewrite Ht. apply elem_of_app. right. by right; left.
  - intros p symInfo lvl rest Htake Hset.
    destruct (resume_stores_level kb p symInfo lvl rest Hwf Htake Hset)
      as (kb' & s & ? & ? & ? & _).
    by exists kb', s.
Qed.

Lemma C5_hop_clamp_witness :
  reachable cached_kb ∧
  ∃ kb' s', run [ CallEnsureSymbolAnalysis 0 (JS.VNum 10);
                  SearchReply 0 [];
                  Resume 0 ] cached_kb = Some (tt, kb') ∧
            syms kb' !! 0%nat = Some s' ∧ analyzed s' = JS.VNum 2.
Proof.
  assert (Hr : reachable cached_kb).
  { exists [CallLookupRawSymbol (Some "f"%string) JS.VUndefined None None].
    vm_compute. reflexivity. }
  split; [done|].
  destruct (C5_hop_clamp cached_kb Hr) as (_ & _ & _ & H & _).
  apply (H 0%nat (new_SymbolInfo (Some "f"%string) None None) (JS.VNum 10) []); reflexivity.
Defined.

(** ** The transitive-call doodler (C7, C8, C9) *)

Section DoodleFacts.

Variable isSameDirectoryAs : nat → nat → bool.

Variable isHackGeneratedIPC : nat → bool.

Variable callsOutTo : nat → nat → list nat.

Variable receivesCallsFrom : nat → nat → list nat.

Variables (rootSym : nat) (callsOut limitToModule : bool).

Lemma follow_calls_requests curSym calls : ∀ st,
  requests (foldl (follow_call callsOut curSym) st calls)
  = requests st ++ map (edge_request callsOut curSym) calls.
Proof.
  induction calls as [|x l IH]; intros st; simpl; [by rewrite app_nil_r|].
  rewrite IH. unfold follow_call. simpl.
  destruct (set_has x (considered st)); simpl; by rewrite <- app_assoc.
Qed.

Lemma draw_leaves_requests curSym leaves : ∀ st,
  requests (foldl (draw_leaf callsOut curSym) st leaves)
  = requests st ++ map (edge_request callsOut curSym) leaves.
Proof.
  induction leaves as [|x l IH]; intros st; simpl; [by rewrite app_nil_r|].
  rewrite IH. simpl. by rewrite <- app_assoc.
Qed.

(** What a visit below the cutoff asks of the diagram. *)
Lemma visit_requests_below visitNo curSym st :
  let calls := in_module_calls isSameDirectoryAs rootSym limitToModule
                 (calls_of callsOutTo receivesCallsFrom callsOut visitNo curSym) in
  let leafCalls := leaf_calls isSameDirectoryAs isHackGeneratedIPC rootSym limitToModule
                     (calls_of callsOutTo receivesCallsFrom callsOut visitNo curSym) in
  (length calls ≤ MAX_CALL_BRANCHING)%nat →
  requests (visit isSameDirectoryAs isHackGeneratedIPC callsOutTo receivesCallsFrom
              rootSym callsOut limitToModule visitNo curSym st)
  = requests st ++ [EnsureSymbolAnalysis curSym (analysisMode callsOut)]
      ++ map (edge_request callsOut curSym) calls
      ++ map (edge_request callsOut curSym) leafCalls.
Proof.
  intros calls leafCalls Hlen. unfold visit. fold calls leafCalls.
  destruct (Nat.ltb_spec MAX_CALL_BRANCHING (length calls)) as [|_]; [lia|].
  rewrite draw_leaves_requests, follow_calls_requests. simpl.
  by rewrite <- !app_assoc.
Qed.

Lemma NoDup_bounded_length (l : list nat) (N : nat) :
  NoDup l → (∀ x, x ∈ l → (x < N)%nat) → (length l ≤ N)%nat.
Proof.
  intros Hnd Hb. transitivity (length (seq 0 N)); [|by rewrite length_seq].
  apply submseteq_length, NoDup_submseteq; [done|].
  intros x Hx. apply elem_of_seq. specialize (Hb x Hx). lia.
Qed.

Lemma follow_call_inv curSym st nextSym :
  enqueue_inv rootSym st → enqueue_inv rootSym (follow_call callsOut curSym st nextSym).
Proof.
  intros [Heq Hnd]. unfold follow_call, enqueue_inv, set_has. simpl.
  case_bool_decide as Hin; simpl; [done|].
  unfold set_add. rewrite decide_False by done. rewrite Heq. split; [done|].
  apply NoDup_app. split_and!; [done| |apply NoDup_singleton].
  intros y Hy Hx%list_elem_of_singleton. by subst.
Qed.

Lemma follow_call_bounded N m curSym st nextSym :
  (nextSym < N)%nat → bounded_by N m st →
  bounded_by N m (follow_call callsOut curSym st nextSym).
Proof.
  intros Hx [Hb Hm]. unfold follow_call, bounded_by, set_has. simpl.
  case_bool_decide as Hin; simpl; [done|].
  unfold set_add. rewrite decide_False by done. split.
  - intros y [?|Hy%list_elem_of_singleton]%elem_of_app; [auto|by subst].
  - rewrite !length_app. simpl. lia.
Qed.

Lemma follow_calls_inv curSym calls : ∀ st,
  enqueue_inv rootSym st → enqueue_inv rootSym (foldl (follow_call callsOut curSym) st calls).
Proof. induction calls; simpl; auto using follow_call_inv. Qed.

Lemma follow_calls_bounded N m curSym calls : ∀ st,
  (∀ x, x ∈ calls → (x < N)%nat) → bounded_by N m st →
  bounded_by N m (foldl (follow_call callsOut curSym) st calls).
Proof.
  induction calls as [|x l IH]; intros st Hl Hb; simpl; [done|].
  apply IH; [intros y ?; apply Hl; by right|].
  apply follow_call_bounded; [apply Hl; by left|done].
Qed.

Lemma draw_leaves_same curSym leaves : ∀ st,
  let st' := foldl (draw_leaf callsOut curSym) st leaves in
  considered st' = considered st ∧ toTraverse st' = toTraverse st ∧
  enqueued st' = enqueued st.
Proof.
  induction leaves as [|x l IH]; intros st; simpl; [done|].
  destruct (IH (draw_leaf callsOut curSym st x)) as (-> & -> & ->). done.
Qed.

Lemma visit_inv visitNo curSym st :
  enqueue_inv rootSym st →
  enqueue_inv rootSym (visit isSameDirectoryAs isHackGeneratedIPC callsOutTo receivesCallsFrom
                 rootSym callsOut limitToModule visitNo curSym st).
Proof.
  intros Hinv. unfold visit. destruct (_ <? _)%nat; [done|].
  match goal with |- enqueue_inv rootSym (foldl _ ?s ?l) =>
    destruct (draw_leaves_same curSym l s) as (Hc & _ & He) end.
  unfold enqueue_inv. rewrite Hc, He. by apply follow_calls_inv.
Qed.

Lemma in_module_calls_subset calls x :
  x ∈ in_module_calls isSameDirectoryAs rootSym limitToModule calls → x ∈ calls.
Proof.
  unfold in_module_calls. destruct limitToModule; [|done].
  by intros [_ ?]%list_elem_of_filter.
Qed.

Lemma visit_bounded N m visitNo curSym st :
  (∀ x, x ∈ calls_of callsOutTo receivesCallsFrom callsOut visitNo curSym → (x < N)%nat) →
  bounded_by N m st →
  bounded_by N m (visit isSameDirectoryAs isHackGeneratedIPC callsOutTo receivesCallsFrom
                    rootSym callsOut limitToModule visitNo curSym st).
Proof.
  intros Hcalls Hb. unfold visit. destruct (_ <? _)%nat; [done|].
  match goal with |- bounded_by _ _ (foldl _ ?s ?l) =>
    destruct (draw_leaves_same curSym l s) as (Hc & Ht & _) end.
  unfold bounded_by. rewrite Hc, Ht.
  apply follow_calls_bounded; [|done].
  intros x Hx. by apply Hcalls, in_module_calls_subset.
Qed.

(** Whatever the call sets are, no symbol is enqueued twice after the
    initial root. *)
Lemma traverse_inv fuel : ∀ visitNo st st',
  traverse isSameDirectoryAs isHackGeneratedIPC callsOutTo receivesCallsFrom
    rootSym callsOut limitToModule fuel visitNo st = Some st' →
  enqueue_inv rootSym st → enqueue_inv rootSym st'.
Proof.
  induction fuel as [|fuel IH]; intros visitNo st st'; simpl;
    destruct (toTraverse st) as [|curSym rest] eqn:Ht; try congruence.
  intros Hrun Hinv. eapply IH; [done|]. by apply visit_inv.
Qed.

(** When all call sets stay below [N], the loop ends within the rounds the
    bound allows. *)
Lemma traverse_terminates N
    (Hcalls : ∀ visitNo curSym x,
       x ∈ calls_of callsOutTo receivesCallsFrom callsOut visitNo curSym → (x < N)%nat) :
  ∀ fuel visitNo st,
    enqueue_inv rootSym st → bounded_by N fuel st →
    is_Some (traverse isSameDirectoryAs isHackGeneratedIPC callsOutTo receivesCallsFrom
               rootSym callsOut limitToModule fuel visitNo st).
Proof.
  induction fuel as [|fuel IH]; intros visitNo st Hinv [Hb Hm]; simpl;
    destruct (toTraverse st) as [|curSym rest] eqn:Ht; try done.
  - pose proof (NoDup_bounded_length _ N (proj2 Hinv) Hb). simpl in Hm. lia.
  - apply IH.
    + by apply visit_inv.
    + apply visit_bounded; [apply Hcalls|]. split; [done|]. simpl in *. lia.
Qed.

(** What a visit over the cutoff does. *)
Lemma visit_over_cutoff visitNo curSym st :
  (MAX_CALL_BRANCHING <
   length (in_module_calls isSameDirectoryAs rootSym limitToModule
             (calls_of callsOutTo receivesCallsFrom callsOut visitNo curSym)))%nat →
  let st' := visit isSameDirectoryAs isHackGeneratedIPC callsOutTo receivesCallsFrom
               rootSym callsOut limitToModule visitNo curSym st in
  toTraverse st' = toTraverse st ∧
  enqueued st' = enqueued st ∧
  considered st' = considered st ∧
  overloadBailed st' = set_add curSym (overloadBailed st) ∧
  requests st' = requests st ++ [EnsureSymbolAnalysis curSym (analysisMode callsOut);
                                 StyleNode curSym color_red].
Proof.
  intros Hover. unfold visit. apply Nat.ltb_lt in Hover. rewrite Hover. simpl.
  split_and!; try done. by rewrite <- app_assoc.
Qed.

Lemma follow_calls_effect curSym calls : ∀ st,
  let st' := foldl (follow_call callsOut curSym) st calls in
  overloadBailed st' = overloadBailed st ∧
  ∃ new, toTraverse st' = toTraverse st ++ new ∧ enqueued st' = enqueued st ++ new ∧
         considered st' = considered st ++ new ∧ (∀ x, x ∈ new → x ∈ calls).
Proof.
  induction calls as [|x l IH]; intros st; simpl.
  - split; [done|]. exists []. rewrite !app_nil_r. split_and!; try done.
  - destruct (IH (follow_call callsOut curSym st x)) as (Hb & new & Ht & He & Hc & Hnew).
    rewrite Hb, Ht, He, Hc. unfold follow_call, set_has. simpl.
    case_bool_decide as Hin; simpl.
    + split; [done|]. exists new. split_and!; try done. intros y ?. right. by apply Hnew.
    + split; [done|]. exists (x :: new). unfold set_add. rewrite decide_False by done.
      rewrite <- !app_assoc. split_and!; try done.
      intros y [->|?]%elem_of_cons; [by left|right; by apply Hnew].
Qed.

Lemma draw_leaves_bailed curSym leaves : ∀ st,
  overloadBailed (foldl (draw_leaf callsOut curSym) st leaves) = overloadBailed st.
Proof. induction leaves as [|x l IH]; intros st; simpl; [done|]. by rewrite IH. Qed.

(** What a visit at or below the cutoff does. *)
Lemma visit_below_cutoff visitNo curSym st :
  let calls := in_module_calls isSameDirectoryAs rootSym limitToModule
                 (calls_of callsOutTo receivesCallsFrom callsOut visitNo curSym) in
  let leafCalls := leaf_calls isSameDirectoryAs isHackGeneratedIPC rootSym limitToModule
                     (calls_of callsOutTo receivesCallsFrom callsOut visitNo curSym) in
  let st' := visit isSameDirectoryAs isHackGeneratedIPC callsOutTo receivesCallsFrom
               rootSym callsOut limitToModule visitNo curSym st in
  (length calls ≤ MAX_CALL_BRANCHING)%nat →
  overloadBailed st' = overloadBailed st ∧
  requests st' = requests st ++ [EnsureSymbolAnalysis curSym (analysisMode callsOut)]
                   ++ map (edge_request callsOut curSym) calls
                   ++ map (edge_request callsOut curSym) leafCalls ∧
  ∃ new, toTraverse st' = toTraverse st ++ new ∧ enqueued st' = enqueued st ++ new ∧
         ∀ x, x ∈ new → x ∈ calls.
Proof.
  intros calls leafCalls st' Hlen.
  split; [|split; [by apply visit_requests_below|]]; subst st'; unfold visit;
    fold calls leafCalls;
    (destruct (Nat.ltb_spec MAX_CALL_BRANCHING (length calls)) as [|_]; [lia|]);
    match goal with |- context [foldl (draw_leaf _ _) (foldl _ ?s _) _] => set (st0 := s) end;
    destruct (follow_calls_effect curSym calls st0) as (Hb & new & Ht & He & _ & Hnew);
    destruct (draw_leaves_same curSym leafCalls
                (foldl (follow_call callsOut curSym) st0 calls)) as (_ & Ht' & He').
  - by rewrite draw_leaves_bailed, Hb.
  - exists new. by rewrite Ht', He', Ht, He.
Qed.

(** One round of the loop keeps [cutoff_inv]. *)
Lemma visit_cutoff_inv visitNo curSym rest st :
  toTraverse st = curSym :: rest →
  cutoff_inv isSameDirectoryAs isHackGeneratedIPC callsOutTo receivesCallsFrom
    rootSym callsOut limitToModule visitNo st →
  cutoff_inv isSameDirectoryAs isHackGeneratedIPC callsOutTo receivesCallsFrom
    rootSym callsOut limitToModule (S visitNo)
    (visit isSameDirectoryAs isHackGeneratedIPC callsOutTo receivesCallsFrom
       rootSym callsOut limitToModule visitNo curSym
       (mkState (considered st) rest (overloadBailed st) (requests st) (enqueued st))).
Proof.
  intros Ht ((visited & Henq & Hlen) & Hmark & Hfrom & Hedge).
  rewrite Ht in Henq.
  set (st0 := mkState (considered st) rest (overloadBailed st) (requests st) (enqueued st)).
  set (calls := in_module_calls isSameDirectoryAs rootSym limitToModule
                  (calls_of callsOutTo receivesCallsFrom callsOut visitNo curSym)).
  set (leafCalls := leaf_calls isSameDirectoryAs isHackGeneratedIPC rootSym limitToModule
                      (calls_of callsOutTo receivesCallsFrom callsOut visitNo curSym)).
  assert (Hcur : enqueued st !! visitNo = Some curSym).
  { rewrite Henq, <- Hlen. by apply list_lookup_middle. }
  assert (Hlong : (visitNo < length (enqueued st))%nat) by (by eapply lookup_lt_Some).
  destruct (Nat.ltb_spec MAX_CALL_BRANCHING (length calls)) as [Hover|Hbelow].
  - destruct (visit_over_cutoff visitNo curSym st0 Hover)
      as (Ht' & He' & _ & Hb' & Hr').
    unfold cutoff_inv. rewrite Ht', He', Hb', Hr'. simpl. split_and!.
    + exists (visited ++ [curSym]). rewrite <- app_assoc, length_app. simpl.
      split; [done|lia].
    + intros k c Hk Hkc Hov. rewrite elem_of_set_add, elem_of_app.
      destruct (decide (k = visitNo)) as [->|Hne].
      * rewrite Hcur in Hkc. injection Hkc as <-. split; [by left|].
        right. right. by left.
      * destruct (Hmark k c) as [? ?]; [lia|done|done|]. split; [by right|by left].
    + intros j x Hj Hjx. destruct (Hfrom j x Hj Hjx) as (k & c & ? & ? & ? & ? & ?).
      exists k, c. split_and!; try done. lia.
    + intros a b [Hin|Hin]%elem_of_app.
      * destruct (Hedge a b Hin) as (k & c & x & ? & ? & ? & ? & ?).
        exists k, c, x. split_and!; try done. lia.
      * repeat (apply elem_of_cons in Hin as [Hin|Hin]; [discriminate|]).
        by apply elem_of_nil in Hin.
  - destruct (visit_below_cutoff visitNo curSym st0 Hbelow)
      as (Hb' & Hr' & new & Ht' & He' & Hnew).
    fold calls leafCalls in Hr', Hnew.
    unfold cutoff_inv. rewrite Ht', He', Hb', Hr'. simpl. split_and!.
    + exists (visited ++ [curSym]). rewrite Henq, <- !app_assoc, length_app. simpl.
      split; [done|lia].
    + intros k c Hk Hkc Hov. rewrite elem_of_app.
      destruct (decide (k = visitNo)) as [->|Hne].
      * rewrite lookup_app_l, Hcur in Hkc by done. injection Hkc as <-.
        fold calls in Hov. lia.
      * rewrite lookup_app_l in Hkc by lia.
        destruct (Hmark k c) as [? ?]; [lia|done|done|]. split; [done|by left].
    + intros j x Hj Hjx. destruct (decide (j < length (enqueued st))%nat) as [Hlt|Hge].
      * rewrite lookup_app_l in Hjx by done.
        destruct (Hfrom j x Hj Hjx) as (k & c & ? & ? & ? & ? & ?).
        exists k, c. split_and!; try done; [lia|]. by apply lookup_app_l_Some.
      * exists visitNo, curSym. split_and!; [lia|lia|by apply lookup_app_l_Some|done|].
        apply Hnew. rewrite lookup_app_r in Hjx by lia.
        by eapply list_elem_of_lookup_2.
    + intros a b [Hin|Hin]%elem_of_app.
      * destruct (Hedge a b Hin) as (k & c & x & ? & ? & ? & ? & ?).
        exists k, c, x. split_and!; try done; [lia|]. by apply lookup_app_l_Some.
      * apply elem_of_cons in Hin as [Hin|Hin]; [discriminate|].
        rewrite <- map_app in Hin. apply list_elem_of_fmap in Hin as (x & Hx & Hin).
        exists visitNo, curSym, x.
        split_and!; [lia|by apply lookup_app_l_Some|done|done|done].
Qed.

(** The loop keeps [cutoff_inv], and when it ends every symbol enqueued
    has had its visit. *)
Lemma traverse_cutoff_inv fuel : ∀ visitNo st st',
  traverse isSameDirectoryAs isHackGeneratedIPC callsOutTo receivesCallsFrom
    rootSym callsOut limitToModule fuel visitNo st = Some st' →
  cutoff_inv isSameDirectoryAs isHackGeneratedIPC callsOutTo receivesCallsFrom
    rootSym callsOut limitToModule visitNo st →
  cutoff_inv isSameDirectoryAs isHackGeneratedIPC callsOutTo receivesCallsFrom
    rootSym callsOut limitToModule (length (enqueued st')) st'.
Proof.
  induction fuel as [|fuel IH]; intros visitNo st st'; simpl;
    destruct (toTraverse st) as [|curSym rest] eqn:Ht; try done.
  - intros [= <-] Hinv. destruct Hinv as ((visited & Henq & Hlen) & ?).
    rewrite Ht, app_nil_r in Henq. rewrite Henq, Hlen.
    split; [|done]. exists visited. by rewrite Ht, app_nil_r.
  - intros [= <-] Hinv. destruct Hinv as ((visited & Henq & Hlen) & ?).
    rewrite Ht, app_nil_r in Henq. rewrite Henq, Hlen.
    split; [|done]. exists visited. by rewrite Ht, app_nil_r.
  - intros Hrun Hinv. eapply IH; [done|]. by apply visit_cutoff_inv.
Qed.

Lemma cutoff_inv_initial :
  cutoff_inv isSameDirectoryAs isHackGeneratedIPC callsOutTo receivesCallsFrom
    rootSym callsOut limitToModule 0 (initial rootSym).
Proof.
  split_and!.
  - by exists [].
  - intros k c Hk. lia.
  - intros [|[|j]] x Hj Hjx; [lia|done|done].
  - intros a b Hin. simpl in Hin.
    apply elem_of_cons in Hin as [Hin|Hin]; [discriminate|]. by apply elem_of_nil in Hin.
Qed.

End DoodleFacts.

(** On call sets that stay below [N] the traversal ends within [N + 1]
    rounds, cycles or not, and after the initial root no symbol has been
    enqueued twice. *)
Lemma doodleCalls_ends (isSameDirectoryAs : nat → nat → bool) (isHackGeneratedIPC : nat → bool)
    (callsOutTo receivesCallsFrom : nat → nat → list nat)
    (rootSym : nat) (callsOut limitToModule : bool) (N : nat) :
  (∀ visitNo curSym x,
     x ∈ calls_of callsOutTo receivesCallsFrom callsOut visitNo curSym → (x < N)%nat) →
  ∃ st, doodleCalls isSameDirectoryAs isHackGeneratedIPC callsOutTo receivesCallsFrom
          rootSym callsOut limitToModule (S N) = Some st ∧
        enqueued st = rootSym :: considered st ∧ NoDup (considered st).
Proof.
  intros Hcalls.
  assert (Hinv : enqueue_inv rootSym (initial rootSym)) by (split; [done|apply NoDup_nil_2]).
  assert (Hb : bounded_by N (S N) (initial rootSym)).
  { split; [by intros x ?%elem_of_nil|simpl; lia]. }
  destruct (traverse_terminates isSameDirectoryAs isHackGeneratedIPC callsOutTo
              receivesCallsFrom rootSym callsOut limitToModule N Hcalls (S N) 0
              (initial rootSym) Hinv Hb) as [st Hst].
  exists st. split; [done|].
  by apply (traverse_inv isSameDirectoryAs isHackGeneratedIPC callsOutTo receivesCallsFrom
              rootSym callsOut limitToModule (S N) 0 (initial rootSym) st).
Qed.

(** [C8] Branching cutoff.  On call sets that stay among the symbols below
    [N], [doodleCalls] ends, and in the state it ends with: every symbol
    whose visit kept more than 12 calls (the in-module calls under
    [limitToModule], all calls otherwise) is in [overloadBailed] and the
    diagram has been asked to style it [color="red"]; every symbol put on
    the worklist after the root was a kept call of an earlier visit that
    kept at most 12 calls, so a visit over the cutoff has enqueued none of
    its callees; and every edge drawn is a kept call or a leaf call of a
    visit that kept at most 12 calls, so a visit over the cutoff has drawn
    none.  The worklist is first in, first out: the visit numbered
    [visitNo] is the visit of the symbol at place [visitNo] of [enqueued].
    When the root itself is over the cutoff, nothing but the root is ever
    put on the worklist. *)
Theorem C8_branching_cutoff
    (isSameDirectoryAs : nat → nat → bool) (isHackGeneratedIPC : nat → bool)
    (callsOutTo receivesCallsFrom : nat → nat → list nat)
    (rootSym : nat) (callsOut limitToModule : bool) (N : nat)
    (Hcalls : ∀ visitNo curSym x,
       x ∈ calls_of callsOutTo receivesCallsFrom callsOut visitNo curSym → (x < N)%nat) :
  ∃ st, doodleCalls isSameDirectoryAs isHackGeneratedIPC callsOutTo receivesCallsFrom
          rootSym callsOut limitToModule (S N) = Some st ∧
    (∀ visitNo curSym, enqueued st !! visitNo = Some curSym →
       (MAX_CALL_BRANCHING <
        length (in_module_calls isSameDirectoryAs rootSym limitToModule
                  (calls_of callsOutTo receivesCallsFrom callsOut visitNo curSym)))%nat →
       curSym ∈ overloadBailed st ∧ StyleNode curSym color_red ∈ requests st) ∧
    (∀ j nextSym, (0 < j)%nat → enqueued st !! j = Some nextSym →
       ∃ visitNo curSym, (visitNo < j)%nat ∧ enqueued st !! visitNo = Some curSym ∧
         (length (in_module_calls isSameDirectoryAs rootSym limitToModule
                    (calls_of callsOutTo receivesCallsFrom callsOut visitNo curSym))
          ≤ MAX_CALL_BRANCHING)%nat ∧
         nextSym ∈ in_module_calls isSameDirectoryAs rootSym limitToModule
                     (calls_of callsOutTo receivesCallsFrom callsOut visitNo curSym)) ∧
    (∀ a b, EnsureEdge a b ∈ requests st →
       ∃ visitNo curSym nextSym, enqueued st !! visitNo = Some curSym ∧
         (length (in_module_calls isSameDirectoryAs rootSym limitToModule
                    (calls_of callsOutTo receivesCallsFrom callsOut visitNo curSym))
          ≤ MAX_CALL_BRANCHING)%nat ∧
         nextSym ∈ in_module_calls isSameDirectoryAs rootSym limitToModule
                     (calls_of callsOutTo receivesCallsFrom callsOut visitNo curSym)
                   ++ leaf_calls isSameDirectoryAs isHackGeneratedIPC rootSym limitToModule
                        (calls_of callsOutTo receivesCallsFrom callsOut visitNo curSym) ∧
         EnsureEdge a b = edge_request callsOut curSym nextSym) ∧
    ((MAX_CALL_BRANCHING <
      length (in_module_calls isSameDirectoryAs rootSym limitToModule
                (calls_of callsOutTo receivesCallsFrom callsOut 0 rootSym)))%nat →
     enqueued st = [rootSym]).
Proof.
  destruct (doodleCalls_ends isSameDirectoryAs isHackGeneratedIPC callsOutTo receivesCallsFrom
              rootSym callsOut limitToModule N Hcalls) as (st & Hrun & Henq & _).
  exists st. split; [done|].
  destruct (traverse_cutoff_inv isSameDirectoryAs isHackGeneratedIPC callsOutTo
              receivesCallsFrom rootSym callsOut limitToModule (S N) 0 (initial rootSym) st
              Hrun (cutoff_inv_initial isSameDirectoryAs isHackGeneratedIPC callsOutTo
                      receivesCallsFrom rootSym callsOut limitToModule))
    as (_ & Hmark & Hfrom & Hedge).
  split_and!.
  - intros visitNo curSym Hv Hover. apply (Hmark visitNo curSym); [|done|done].
    by eapply lookup_lt_Some.
  - intros j x Hj Hjx. destruct (Hfrom j x Hj Hjx) as (k & c & ? & _ & ? & ? & ?).
    by exists k, c.
  - intros a b Hin. destruct (Hedge a b Hin) as (k & c & x & _ & ? & ? & ? & ?).
    by exists k, c, x.
  - intros Hover. rewrite Henq. destruct (considered st) as [|x l] eqn:Hc; [done|].
    destruct (Hfrom 1%nat x) as (k & c & Hk & _ & Hkc & Hlen & _); [lia|by rewrite Henq|].
    assert (k = 0%nat) as -> by lia. rewrite Henq in Hkc. injection Hkc as <-. lia.
Qed.

Lemma C8_branching_cutoff_witness :
  (∀ visitNo curSym x,
     x ∈ calls_of hub_callsOutTo hub_callsIn true visitNo curSym → (x < 15)%nat) ∧
  (MAX_CALL_BRANCHING <
   length (in_module_calls hub_sameDir 0 true
             (calls_of hub_callsOutTo hub_callsIn true 0 0)))%nat ∧
  ∃ st, doodleCalls hub_sameDir hub_isIPC hub_callsOutTo hub_callsIn 0 true true 16 = Some st ∧
        (0%nat ∈ overloadBailed st) ∧ StyleNode 0 color_red ∈ requests st ∧
        enqueued st = [0%nat].
Proof.
  assert (H : ∀ visitNo curSym x,
            x ∈ calls_of hub_callsOutTo hub_callsIn true visitNo curSym → (x < 15)%nat).
  { intros visitNo curSym x. unfold calls_of, hub_callsOutTo.
    destruct (_ =? _)%nat; [|by intros ?%elem_of_nil].
    rewrite elem_of_seq. lia. }
  assert (Hover : (MAX_CALL_BRANCHING <
                   length (in_module_calls hub_sameDir 0 true
                             (calls_of hub_callsOutTo hub_callsIn true 0 0)))%nat)
    by (vm_compute; lia).
  split; [exact H|]. split; [exact Hover|].
  destruct (C8_branching_cutoff hub_sameDir hub_isIPC hub_callsOutTo hub_callsIn
              0 true true 15 H) as (st & Hrun & Hmark & _ & _ & Hroot).
  exists st. pose proof (Hroot Hover) as Henq.
  destruct (Hmark 0%nat 0%nat) as [? ?]; [by rewrite Henq|exact Hover|].
  by split_and!.
Defined.




(** [C7] at a cycle through the root: the traversal ends, but the root is put
    on the worklist a second time when its caller is visited, and is visited
    and drawn twice. *)
Theorem C7_root_enqueued_twice :
  ∃ st, doodleCalls (λ _ _, true) (λ _, false) cycle_callsOutTo (λ _ _, []) 0 true true 5
        = Some st ∧
        enqueued st = [0; 1; 0]%nat ∧
        considered st = [1; 0]%nat ∧
        requests st = [EnsureSymbolAnalysis 0 "context";
                       EnsureSymbolAnalysis 0 "calls-out"; EnsureEdge 0 1;
                       EnsureSymbolAnalysis 1 "calls-out"; EnsureEdge 1 0;
                       EnsureSymbolAnalysis 0 "calls-out"; EnsureEdge 0 1].
Proof. eexists. split; [vm_compute; reflexivity|]. by split_and!. Qed.

(** ** Deferred edge blocks (C10) *)

(** An [edge_instance_call] block naming group [ui] and calling [Foo]: the
    global map knows [Foo]'s node, the group's map does not, and the code
    does not fall back. *)
Lemma C10_counterexample : ¬ lookup_falls_back_to_global.
Proof.
  intros H. specialize (H demo_gen (Some ui_group) None 7%nat).
  vm_compute in H. discriminate.
Qed.

(** The order of the look-ups of lines 321-329. *)
Lemma lookup_target_order g explicit parentGroup callSym :
  lookup_target g explicit parentGroup callSym
  = match explicit with
    | Some ig => ig_symToNode ig !! callSym
    | None =>
      match inherited_lookup g parentGroup callSym with
      | Some node => Some node
      | None => symToNode g !! callSym
      end
    end.
Proof.
  unfold lookup_target, inherited_lookup. destruct explicit as [ig|].
  - by destruct (ig_symToNode ig !! callSym).
  - destruct parentGroup as [name|]; simpl; [|done].
    destruct (instanceGroupsByName g !! name) as [ig|]; simpl; [|done].
    by destruct (ig_symToNode ig !! callSym).
Qed.

(** The closure [edgeCommon], by the look-ups it makes. *)
Lemma edgeCommon_order g block parentNode callName :
  varMap g !! CALLS_WHAT block = Some callName →
  ∀ explicit,
    ∃ g', edgeCommon block parentNode explicit g = Ok g' ∧
      (call_sym g block = None →
       nodes g' = nodes g ∧
       ∃ callName, console g' = console g ++ [FailedToResolveCallId callName]) ∧
      ∀ callSym, call_sym g block = Some callSym →
        (∀ ig, explicit = Some ig →
           match ig_symToNode ig !! callSym with
           | Some otherNode => g' = call_edge parentNode otherNode g
           | None => g' = dropped parentNode callSym g
           end) ∧
        (explicit = None →
           match inherited_lookup g (nodes g !! parentNode ≫= instanceGroup) callSym,
                 symToNode g !! callSym with
           | Some otherNode, _ => g' = call_edge parentNode otherNode g
           | None, Some otherNode => g' = call_edge parentNode otherNode g
           | None, None => g' = dropped parentNode callSym g
           end).
Proof.
  intros Hvar explicit. unfold edgeCommon, call_sym. rewrite Hvar. simpl.
  destruct (idToSym g !! callName) as [callSym|] eqn:Hsym.
  - rewrite (lookup_target_order g explicit (nodes g !! parentNode ≫= instanceGroup) callSym).
    destruct explicit as [ig|].
    + destruct (ig_symToNode ig !! callSym) as [otherNode|] eqn:Hig; simpl;
        (eexists; split; [done|]; split; [done|]; intros ? [= <-]; split; [|done];
         intros ? [= <-]; by rewrite Hig).
    + destruct (inherited_lookup g (nodes g !! parentNode ≫= instanceGroup) callSym)
        as [otherNode|] eqn:Hinh; simpl.
      * eexists. split; [done|]. split; [done|]. intros ? [= <-]. split; [done|].
        intros _. by rewrite Hinh.
      * destruct (symToNode g !! callSym) as [otherNode|] eqn:Hglob; simpl;
          (eexists; split; [done|]; split; [done|]; intros ? [= <-]; split; [done|];
           intros _; by rewrite Hinh, Hglob).
  - eexists. split; [done|]. split; [|done]. intros _. split; [done|]. by exists callName.
Qed.

(** [C10], amended.  The third pass finishes a deferred block exactly when
    it is a call block whose fields name variables (otherwise it throws).
    When it finishes and the called identifier has no symbol, it has warned
    and done nothing else.  Otherwise, for a block that names an instance
    group, the edge goes to the node the group's map has for the symbol,
    and when the group's map has none the edge is dropped, whatever the
    global map holds.  For a block that names no group the edge goes to the
    node the map of the group inherited from the parent node has for the
    symbol; when that map has none (or no group is inherited), to the node
    the global map has; and when neither has one the edge is dropped.  A
    drawn edge is one edge, from the parent node to the node found and of
    kind ['call'], appended at the common ancestor of the two; a dropped
    edge leaves every node's edge list as it was and logs that the target
    was not found and that the edge is skipped. *)
Theorem C10_deferred_edge_resolution (g : Gen) (block : Block) (parentNode : list string) :
  (call_block g block ↔ ∃ g', _processDeferredBlock block parentNode g = Ok g') ∧
  ∀ g', _processDeferredBlock block parentNode g = Ok g' →
    (call_sym g block = None →
     nodes g' = nodes g ∧ ∃ callName, console g' = console g ++ [FailedToResolveCallId callName]) ∧
    ∀ callSym, call_sym g block = Some callSym →
      (∀ ig, explicit_group g block = Some ig →
         match ig_symToNode ig !! callSym with
         | Some otherNode => g' = call_edge parentNode otherNode g
         | None => g' = dropped parentNode callSym g
         end) ∧
      (explicit_group g block = None →
         match inherited_lookup g (nodes g !! parentNode ≫= instanceGroup) callSym,
               symToNode g !! callSym with
         | Some otherNode, _ => g' = call_edge parentNode otherNode g
         | None, Some otherNode => g' = call_edge parentNode otherNode g
         | None, None => g' = dropped parentNode callSym g
         end) ∧
      (nodes (dropped parentNode callSym g) = nodes g ∧
       console (dropped parentNode callSym g)
       = console g ++ [UnableToFindCallTarget callSym; SkippingEdge parentNode None]).
Proof.
  assert (Hfin : ∀ g', _processDeferredBlock block parentNode g = Ok g' → call_block g block).
  { intros g'. unfold _processDeferredBlock, call_block, edgeCommon.
    destruct (decide (type block = "edge_instance_call"%string)) as [Hi|Hn].
    - destruct (varMap g !! INST_NAME block) as [igName|]; [|done].
      destruct (varMap g !! CALLS_WHAT block) as [callName|]; [|done].
      intros _. split_and!; [by left|by eexists|by eexists].
    - case_decide as Hc; [|done].
      destruct (varMap g !! CALLS_WHAT block) as [callName|]; [|done].
      intros _. split_and!; [by right|by eexists|done]. }
  assert (Hmain : call_block g block →
    ∃ g', _processDeferredBlock block parentNode g = Ok g' ∧
      (call_sym g block = None →
       nodes g' = nodes g ∧
       ∃ callName, console g' = console g ++ [FailedToResolveCallId callName]) ∧
      ∀ callSym, call_sym g block = Some callSym →
        (∀ ig, explicit_group g block = Some ig →
           match ig_symToNode ig !! callSym with
           | Some otherNode => g' = call_edge parentNode otherNode g
           | None => g' = dropped parentNode callSym g
           end) ∧
        (explicit_group g block = None →
           match inherited_lookup g (nodes g !! parentNode ≫= instanceGroup) callSym,
                 symToNode g !! callSym with
           | Some otherNode, _ => g' = call_edge parentNode otherNode g
           | None, Some otherNode => g' = call_edge parentNode otherNode g
           | None, None => g' = dropped parentNode callSym g
           end)).
  { intros (Hty & [callName Hvar] & Hinst).
    unfold _processDeferredBlock, explicit_group.
    destruct (decide (type block = "edge_instance_call"%string)) as [Hi|Hn].
    - destruct (Hinst Hi) as [igName Hig]. rewrite Hig. simpl.
      apply (edgeCommon_order g block parentNode callName Hvar).
    - destruct Hty as [?|Hc]; [done|]. rewrite decide_True by done.
      apply (edgeCommon_order g block parentNode callName Hvar). }
  split.
  - split; [|intros [g' Hrun]; by apply (Hfin g')].
    intros Hb. destruct (Hmain Hb) as (g' & Hrun & _). by exists g'.
  - intros g' Hrun. destruct (Hmain (Hfin g' Hrun)) as (g'' & Hrun' & Hnone & Hsome).
    rewrite Hrun in Hrun'. injection Hrun' as <-. split; [done|].
    intros callSym Hc. destruct (Hsome callSym Hc) as [H1 H2].
    split_and!; [done|done|done|simpl; by rewrite <- app_assoc].
Qed.

Lemma C10_deferred_edge_resolution_witness :
  _processDeferredBlock (mkBlock "edge_instance_call" "v1" "v2") ["Proc"; "Bar"]%string demo_gen
  = Ok (dropped ["Proc"; "Bar"]%string 7 demo_gen) ∧
  _processDeferredBlock (mkBlock "edge_call" "v1" "v2") ["Proc"; "Bar"]%string two_foo_gen
  = Ok (call_edge ["Proc"; "Bar"]%string ["Proc"; "ui Foo"]%string two_foo_gen).
Proof.
  split.
  - destruct (_processDeferredBlock (mkBlock "edge_instance_call" "v1" "v2")
                ["Proc"; "Bar"]%string demo_gen) as [g'|] eqn:Hrun;
      [|vm_compute in Hrun; discriminate].
    destruct (proj2 (C10_deferred_edge_resolution demo_gen
                       (mkBlock "edge_instance_call" "v1" "v2") ["Proc"; "Bar"]%string)
                g' Hrun) as (_ & H).
    destruct (H 7%nat eq_refl) as (He & _ & _). f_equal. exact (He ui_group eq_refl).
  - destruct (_processDeferredBlock (mkBlock "edge_call" "v1" "v2")
                ["Proc"; "Bar"]%string two_foo_gen) as [g'|] eqn:Hrun;
      [|vm_compute in Hrun; discriminate].
    destruct (proj2 (C10_deferred_edge_resolution two_foo_gen
                       (mkBlock "edge_call" "v1" "v2") ["Proc"; "Bar"]%string)
                g' Hrun) as (_ & H).
    destruct (H 7%nat eq_refl) as (_ & Hn & _). f_equal. exact (Hn eq_refl).
Defined.

(** ** Hop budgets, searches and the edge limit (C2, C3, C6) *)

(** Called without a budget, [ensureSymbolAnalysis] makes no further call. *)
Lemma ensure_undefined kb i s :
  syms kb !! i = Some s →
  ∃ r kb', ensureSymbolAnalysis i JS.VUndefined kb = Some (r, kb') ∧
           ensureCalls kb' = ensureCalls kb ++ [(i, JS.VUndefined)].
Proof.
  intros Hs. destruct (JS.truthy (analyzed s)) eqn:Htr.
  - unfold ensureSymbolAnalysis. simpl.
    unfold bind, modify, get_sym, lift_opt, ret, when. simpl. rewrite Hs, Htr.
    assert (JS.lt (analyzed s) (JS.min2 JS.VUndefined) = false) as ->.
    { unfold JS.lt. simpl. by destruct (JS.toNumber (analyzed s)). }
    by eexists _, _.
  - destruct (analyzing s) as [p|] eqn:Hp.
    + rewrite (ensureSymbolAnalysis_in_flight kb i s p _ Hs Htr Hp). by eexists _, _.
    + destruct (ensureSymbolAnalysis_idle kb i s JS.VUndefined Hs Htr Hp)
        as (kb' & -> & _ & _ & ?).
      by eexists _, _.
Qed.

Lemma scheduled_cached kb raw doAnalyze pretty opts i s :
  symbolsByRawName kb !! normalizeSymbol raw = Some i → syms kb !! i = Some s →
  JS.truthy doAnalyze = true →
  scheduled kb raw doAnalyze pretty opts = Some (i, [(i, JS.VUndefined)]).
Proof.
  intros Hkey Hs Htr. unfold scheduled, lookupRawSymbol.
  unfold bind at 1. unfold gets. rewrite Hkey.
  unfold bind at 1. unfold get_sym at 1, lift_opt. rewrite Hs.
  unfold bind at 1.
  assert (∃ kb1 s1, when (JS.truthy_str pretty && negb (JS.truthy_str (prettyName s)))
                      (updatePrettyNameFrom i pretty) kb = Some (tt, kb1) ∧
                    syms kb1 !! i = Some s1 ∧ ensureCalls kb1 = ensureCalls kb)
    as (kb1 & s1 & -> & Hs1 & Hc1).
  { destruct (_ && _); simpl; [|by exists kb, s].
    unfold updatePrettyNameFrom, modify_sym, bind, get_sym, lift_opt, modify. rewrite Hs.
    eexists _, _. split; [done|]. simpl. split; [|done].
    by rewrite list_lookup_alter_eq, Hs. }
  rewrite Htr. simpl.
  destruct (ensure_undefined kb1 i s1 Hs1) as (r & kb2 & Hrun & Hc2).
  unfold bind. rewrite Hrun. simpl. rewrite Hc2, Hc1.
  by rewrite drop_app_length.
Qed.

Lemma scheduled_new kb raw doAnalyze pretty opts :
  symbolsByRawName kb !! normalizeSymbol raw = None →
  JS.truthy doAnalyze = true →
  scheduled kb raw doAnalyze pretty opts
  = Some (length (syms kb),
          [(length (syms kb), if JS.is_true doAnalyze then JS.VNum 1 else doAnalyze)]).
Proof.
  intros Hkey Htr. unfold scheduled, lookupRawSymbol.
  unfold bind at 1. unfold gets. rewrite Hkey.
  unfold bind at 1. unfold alloc_sym.
  unfold bind at 1. unfold modify. rewrite Htr. simpl.
  match goal with |- context [set_symbolsByRawName ?m ?k] =>
    set (kb1 := set_symbolsByRawName m k) end.
  set (hops := if JS.is_true doAnalyze then JS.VNum 1 else doAnalyze).
  destruct (ensureSymbolAnalysis_idle kb1 (length (syms kb))
              (new_SymbolInfo (normalizeSymbol raw) pretty opts) hops)
    as (kb2 & Hrun & _ & _ & Hc2); [by apply list_lookup_middle|done|done|].
  unfold bind. rewrite Hrun. simpl. rewrite Hc2. simpl.
  by rewrite drop_app_length.
Qed.

(** [C2] in the two branches.  In every reachable state, a call with a
    truthy [doAnalyze] for a raw name that is not cached yet schedules the
    analysis of the new symbol with budget 1 when [doAnalyze === true] and
    with [doAnalyze] itself otherwise; for a cached raw name it calls
    [ensureSymbolAnalysis] on the cached symbol with no budget at all
    ([undefined]), whatever [doAnalyze] is. *)
Theorem C2_cached_branch_passes_no_budget (kb : KB) (Hreach : reachable kb) :
  (∀ raw doAnalyze pretty opts,
     symbolsByRawName kb !! normalizeSymbol raw = None → JS.truthy doAnalyze = true →
     scheduled kb raw doAnalyze pretty opts
     = Some (length (syms kb),
             [(length (syms kb), if JS.is_true doAnalyze then JS.VNum 1 else doAnalyze)])) ∧
  (∀ raw doAnalyze pretty opts i,
     symbolsByRawName kb !! normalizeSymbol raw = Some i → JS.truthy doAnalyze = true →
     scheduled kb raw doAnalyze pretty opts = Some (i, [(i, JS.VUndefined)])).
Proof.
  pose proof (reachable_WF kb Hreach) as Hwf. split.
  - intros. by apply scheduled_new.
  - intros raw d p o i Hkey Htr.
    destruct (wf_map_valid _ _ (proj1 Hwf) _ _ Hkey) as (s & Hs & _).
    by eapply scheduled_cached.
Qed.

Lemma C2_cached_branch_passes_no_budget_witness :
  reachable cached_kb ∧
  scheduled cached_kb (Some "g"%string) (JS.VBool true) None None
  = Some (1%nat, [(1%nat, JS.VNum 1)]) ∧
  scheduled cached_kb (Some "g"%string) (JS.VNum 2) None None
  = Some (1%nat, [(1%nat, JS.VNum 2)]) ∧
  scheduled cached_kb (Some "f"%string) (JS.VBool true) None None
  = Some (0%nat, [(0%nat, JS.VUndefined)]) ∧
  scheduled cached_kb (Some "f"%string) (JS.VNum 2) None None
  = Some (0%nat, [(0%nat, JS.VUndefined)]).
Proof.
  assert (Hr : reachable cached_kb).
  { exists [CallLookupRawSymbol (Some "f"%string) JS.VUndefined None None].
    vm_compute. reflexivity. }
  destruct (C2_cached_branch_passes_no_budget cached_kb Hr) as [Hnew Hcached].
  split_and!; [done|..].
  - apply (Hnew (Some "g"%string) (JS.VBool true)); reflexivity.
  - apply (Hnew (Some "g"%string) (JS.VNum 2)); reflexivity.
  - apply (Hcached (Some "f"%string) (JS.VBool true)); reflexivity.
  - apply (Hcached (Some "f"%string) (JS.VNum 2)); reflexivity.
Defined.

(** [C3] along two runs.  In the first, ["f"] is cached, then looked up with
    [doAnalyze = true]; a second such call while the search is out issues no
    search, but once the analysis has completed the recorded level is [NaN],
    which is falsy, and the next call searches again.  In the second, the
    symbol is created by the diagram sheet with
    [doAnalyze = { analysisMode: 'context' }] and, after completion, handed
    to [ensureSymbolAnalysis] by the doodler with the same kind of object. *)
Theorem C3_symbol_searched_twice :
  let in_flight := [ CallLookupRawSymbol (Some "f"%string) JS.VUndefined None None;
                     CallLookupRawSymbol (Some "f"%string) (JS.VBool true) None None;
                     CallLookupRawSymbol (Some "f"%string) (JS.VBool true) None None ] in
  let completed := in_flight ++ [ SearchReply 0 []; Resume 0 ] in
  let again := completed ++ [ CallLookupRawSymbol (Some "f"%string) (JS.VBool true) None None ] in
  searches_for 0 (after in_flight) = ["symbol:f"%string] ∧
  searches_for 0 (after completed) = ["symbol:f"%string] ∧
  level_of 0 (after completed) = Some JS.VNaN ∧
  searches_for 0 (after again) = ["symbol:f"; "symbol:f"]%string ∧
  let sheet := [ CallLookupRawSymbol (Some "f"%string) JS.VObj None None;
                 SearchReply 0 []; Resume 0 ] in
  let doodler := sheet ++ [ CallEnsureSymbolAnalysis 0 JS.VObj ] in
  searches_for 0 (after sheet) = ["symbol:f"%string] ∧
  level_of 0 (after sheet) = Some JS.VNaN ∧
  searches_for 0 (after doodler) = ["symbol:f"; "symbol:f"]%string.
Proof. cbv zeta. split_and!; vm_compute; reflexivity. Qed.

(** [C6] at the limit.  With 31 out-edges (or in-edges) a bump from level 1
    to level 2 is passed on to all 31 neighbours; with exactly 32 it is
    passed on to none. *)
Theorem C6_limit_is_exclusive :
  (length <$> (outEdges <$> syms (fan_out 31) !! 0%nat)) = Some 31%nat ∧
  cascade (fan_out 31) 0 (JS.VNum 2)
  = Some ((0%nat, JS.VNum 2) :: ((λ k, (k, JS.VNum 1)) <$> seq 1 31)) ∧
  (length <$> (outEdges <$> syms (fan_out 32) !! 0%nat)) = Some 32%nat ∧
  level_of 0 (fan_out 32) = Some (JS.VNum 1) ∧
  cascade (fan_out 32) 0 (JS.VNum 2) = Some [(0%nat, JS.VNum 2)] ∧
  (length <$> (inEdges <$> syms (fan_in 31) !! 0%nat)) = Some 31%nat ∧
  cascade (fan_in 31) 0 (JS.VNum 2)
  = Some ((0%nat, JS.VNum 2) :: ((λ k, (k, JS.VNum 1)) <$> seq 1 31)) ∧
  (length <$> (inEdges <$> syms (fan_in 32) !! 0%nat)) = Some 32%nat ∧
  cascade (fan_in 32) 0 (JS.VNum 2) = Some [(0%nat, JS.VNum 2)].
Proof. split_and!; vm_compute; reflexivity. Qed.

(** ** Reading a run of the state monad backwards *)

Lemma bind_inv {A B} (m : M A) (f : A → M B) kb b kb' :
  bind m f kb = Some (b, kb') → ∃ a kb1, m kb = Some (a, kb1) ∧ f a kb1 = Some (b, kb').
Proof. unfold bind. destruct (m kb) as [[a kb1]|]; [eauto|done]. Qed.

Lemma lift_opt_inv {A} (f : KB → option A) kb a kb' :
  lift_opt f kb = Some (a, kb') → f kb = Some a ∧ kb' = kb.
Proof. unfold lift_opt. destruct (f kb); [|done]. by intros [= -> ->]. Qed.

Lemma get_sym_inv i kb s kb' :
  get_sym i kb = Some (s, kb') → syms kb !! i = Some s ∧ kb' = kb.
Proof. apply (lift_opt_inv (λ kb, syms kb !! i)). Qed.

Lemma get_file_inv i kb f kb' :
  get_file i kb = Some (f, kb') → files kb !! i = Some f ∧ kb' = kb.
Proof. apply (lift_opt_inv (λ kb, files kb !! i)). Qed.

Lemma modify_sym_inv i f kb u kb' :
  modify_sym i f kb = Some (u, kb') →
  (∃ s, syms kb !! i = Some s) ∧ kb' = set_syms (alter f i (syms kb)) kb.
Proof.
  unfold modify_sym. intros (s & kb1 & [Hs ->]%get_sym_inv & H)%bind_inv.
  injection H as _ <-. eauto.
Qed.

Lemma modify_file_inv i f kb u kb' :
  modify_file i f kb = Some (u, kb') →
  (∃ x, files kb !! i = Some x) ∧ kb' = set_files (alter f i (files kb)) kb.
Proof.
  unfold modify_file. intros (s & kb1 & [Hs ->]%get_file_inv & H)%bind_inv.
  injection H as _ <-. eauto.
Qed.

Ltac inv_prim H :=
  first [ apply get_sym_inv in H as [? ->]
        | apply get_file_inv in H as [? ->]
        | apply modify_sym_inv in H as [[? ?] ->]
        | apply modify_file_inv in H as [[? ?] ->]
        | (unfold ret, gets, modify, alloc_sym, alloc_file in H;
           first [ injection H as <- <- | injection H as <- | simplify_eq ]) ].

Ltac inv_m :=
  repeat (cbv beta in *; match goal with
  | H : bind _ _ _ = Some _ |- _ => apply bind_inv in H as (? & ? & ? & ?)
  | H : ret _ _ = Some _ |- _ => inv_prim H
  | H : gets _ _ = Some _ |- _ => inv_prim H
  | H : modify _ _ = Some _ |- _ => inv_prim H
  | H : fail _ = Some _ |- _ => discriminate H
  | H : get_sym _ _ = Some _ |- _ => apply get_sym_inv in H as [? ->]
  | H : get_file _ _ = Some _ |- _ => apply get_file_inv in H as [? ->]
  | H : lift_opt _ _ = Some _ |- _ => apply lift_opt_inv in H as [? ->]
  | H : modify_sym _ _ _ = Some _ |- _ => apply modify_sym_inv in H as [[? ?] ->]
  | H : modify_file _ _ _ = Some _ |- _ => apply modify_file_inv in H as [[? ?] ->]
  | H : markDirty _ _ = Some _ |- _ => apply modify_sym_inv in H as [[? ?] ->]
  | H : file_markDirty _ _ = Some _ |- _ => apply modify_file_inv in H as [[? ?] ->]
  | H : alloc_sym _ _ = Some _ |- _ => inv_prim H
  | H : alloc_file _ _ = Some _ |- _ => inv_prim H
  end).

(** A loop whose rounds are related by a preorder relates its ends. *)
Lemma forM_inv {A} (R : KB → KB → Prop) `{!PreOrder R} (l : list A) (body : A → M unit) :
  (∀ x kb u kb', x ∈ l → body x kb = Some (u, kb') → R kb kb') →
  ∀ kb u kb', forM_ l body kb = Some (u, kb') → R kb kb'.
Proof.
  induction l as [|x l IH]; intros Hbody kb u kb' H; simpl in H.
  - by inv_m.
  - apply bind_inv in H as (u1 & kb1 & H1 & H2).
    transitivity kb1; [apply (Hbody x kb u1 kb1); [left|done]|].
    apply (IH (λ y k v k' Hy, Hbody y k v k' (list_elem_of_further _ _ _ Hy)) kb1 u kb' H2).
Qed.

Lemma update_grows kb kb' : update kb kb' → grows kb kb'.
Proof.
  destruct 1; unfold grows, started, created, file_created, source_bound, decl_bound,
    add_out_then_in, add_in_then_out; simpl;
    rewrite ?length_alter, ?length_app; (split; [|split]); try done; try lia.
  intros k j Hk. rewrite lookup_insert_ne; [done|congruence].
Qed.

#[global] Instance grows_po : PreOrder grows.
Proof.
  split.
  - by intros kb.
  - intros kb1 kb2 kb3 (? & ? & ?) (? & ? & ?). split_and!; [lia|lia|eauto].
Qed.

Lemma updates_grow kb kb' : rtc update kb kb' → grows kb kb'.
Proof.
  induction 1 as [|kb1 kb2 kb3 H _ IH]; [done|].
  etransitivity; [by apply update_grows|done].
Qed.

(** ** Every run of the synchronous code is a sequence of updates *)

Lemma ensure_rec_updates n : ∀ i hops kb r kb',
  ensure_rec n i hops kb = Some (r, kb') → rtc update kb kb'.
Proof.
  induction n as [|n IH]; intros i hops kb r kb' H; simpl in H; [done|].
  apply bind_inv in H as ([] & kbA & HA & H). inv_prim HA.
  eapply rtc_l; [apply (U_called kb i hops)|].
  match goal with |- rtc _ ?k _ => set (kbA := k) in * end.
  apply bind_inv in H as (s & ? & [Hs ->]%get_sym_inv & H).
  assert (Hloop : ∀ l kb1 u kb2,
    forM_ l (λ otherSym, _ <- ensure_rec n otherSym (JS.minus1 hops) ;; ret tt) kb1
      = Some (u, kb2) → rtc update kb1 kb2).
  { intros l. apply forM_inv; [apply _|]. intros x kb1 u kb2 _ Hx.
    apply bind_inv in Hx as (? & ? & Hx & Hr). inv_prim Hr. by eapply IH. }
  destruct (JS.truthy (analyzed s)) eqn:Htr.
  - apply bind_inv in H as ([] & kb1 & H & Hret). inv_prim Hret.
    destruct (JS.lt (analyzed s) (JS.min2 hops)) eqn:Hlt; simpl in H; [|inv_prim H; reflexivity].
    apply bind_inv in H as ([] & ? & [_ ->]%modify_sym_inv & H).
    eapply rtc_l; [by eapply U_raised|].
    apply bind_inv in H as (s1 & ? & [Hs1 ->]%get_sym_inv & H).
    apply bind_inv in H as ([] & kb2 & H2 & H).
    apply bind_inv in H as (s2 & ? & [Hs2 ->]%get_sym_inv & H).
    transitivity kb2.
    + match type of H2 with when ?b _ _ = _ => destruct b end; simpl in H2;
        [by eapply Hloop|inv_prim H2; reflexivity].
    + match type of H with when ?b _ _ = _ => destruct b end; simpl in H;
        [by eapply Hloop|inv_prim H; reflexivity].
  - destruct (analyzing s) as [p|] eqn:Hp; [inv_prim H; reflexivity|].
    unfold analyzeSymbol_start in H. inv_m.
    match goal with H1 : syms kbA !! i = Some ?s1 |- _ =>
      assert (s1 = s) by congruence; subst end.
    apply rtc_once. by apply (U_started kbA i s hops).
Qed.

Lemma ensureSymbolAnalysis_updates i hops kb r kb' :
  ensureSymbolAnalysis i hops kb = Some (r, kb') → rtc update kb kb'.
Proof. apply ensure_rec_updates. Qed.

Lemma lookupRawSymbol_updates raw doAnalyze pretty opts kb i kb' :
  lookupRawSymbol raw doAnalyze pretty opts kb = Some (i, kb') →
  rtc update kb kb' ∧ (i < length (syms kb'))%nat ∧
  symbolsByRawName kb' !! normalizeSymbol raw = Some i.
Proof.
  unfold lookupRawSymbol. intros H.
  apply bind_inv in H as (cached & ? & Hc & H). inv_prim Hc.
  destruct (symbolsByRawName kb !! normalizeSymbol raw) as [j|] eqn:Hkey.
  - apply bind_inv in H as (s & ? & [Hs ->]%get_sym_inv & H).
    apply bind_inv in H as ([] & kb1 & H1 & H).
    apply bind_inv in H as ([] & kb2 & H2 & H). inv_prim H.
    assert (Hu1 : rtc update kb kb1).
    { destruct (_ && _) eqn:Hb; simpl in H1; [|inv_prim H1; reflexivity].
      apply andb_prop in Hb as [Hb1 Hb2%negb_true_iff].
      unfold updatePrettyNameFrom in H1. inv_prim H1.
      apply rtc_once. by apply (U_pretty kb j s pretty). }
    assert (Hu2 : rtc update kb1 kb2).
    { destruct (JS.truthy doAnalyze); simpl in H2; [|inv_prim H2; reflexivity].
      apply bind_inv in H2 as (? & ? & H2 & Hr). inv_prim Hr.
      by eapply ensureSymbolAnalysis_updates. }
    assert (Hu : rtc update kb kb2) by (by etransitivity).
    destruct (updates_grow _ _ Hu) as (Hlen & _ & Hmap).
    split_and!; [done| |by apply Hmap].
    apply lookup_lt_Some in Hs. lia.
  - apply bind_inv in H as (j & kb1 & H1 & H). inv_prim H1.
    apply bind_inv in H as ([] & kb2 & H2 & H). inv_prim H2.
    apply bind_inv in H as ([] & kb3 & H3 & H). inv_prim H.
    match type of H3 with when _ _ ?k = _ => set (kbC := k) in * end.
    assert (Hu1 : update kb kbC) by (by apply U_created).
    assert (Hu2 : rtc update kbC kb3).
    { destruct (JS.truthy doAnalyze); simpl in H3; [|inv_prim H3; reflexivity].
      apply bind_inv in H3 as (? & ? & H3 & Hr). inv_prim Hr.
      by eapply ensureSymbolAnalysis_updates. }
    destruct (updates_grow _ _ Hu2) as (Hlen & _ & Hmap).
    split_and!; [by eapply rtc_l| |].
    + subst kbC. simpl in Hlen. rewrite length_app in Hlen. simpl in Hlen. lia.
    + apply Hmap. subst kbC. simpl. apply lookup_insert_eq.
Qed.

Lemma ensureFileAnalysis_updates p kb fi kb' :
  ensureFileAnalysis p kb = Some (fi, kb') →
  rtc update kb kb' ∧ filesByPath kb' !! p = Some fi ∧ is_Some (files kb' !! fi) ∧
  syms kb' = syms kb.
Proof.
  unfold ensureFileAnalysis. intros H.
  apply bind_inv in H as (known & ? & Hk & H). inv_prim Hk.
  apply bind_inv in H as (hit & kb1 & Hhit & H).
  assert (kb1 = kb ∧
          match hit with
          | Some fj => filesByPath kb !! p = Some fj ∧ is_Some (files kb !! fj)
          | None => ∀ fj f, filesByPath kb !! p = Some fj → files kb !! fj = Some f →
                      fi_analyzed f = false
          end) as [-> Hcase].
  { destruct (filesByPath kb !! p) as [fj|] eqn:Hp.
    - apply bind_inv in Hhit as (f & ? & [Hf ->]%get_file_inv & Hr). inv_prim Hr.
      split; [done|]. destruct (fi_analyzed f) eqn:Ha.
      + split; [done|by eexists].
      + intros fk g [= <-] Hg. congruence.
    - inv_prim Hhit. split; [done|]. by intros. }
  destruct hit as [fj|].
  - inv_prim H. destruct Hcase. by split_and!.
  - inv_m. split_and!.
    + apply rtc_once. by apply U_file.
    + simpl. apply lookup_insert_eq.
    + simpl. rewrite !lookup_alter_dec. rewrite decide_True by done.
      rewrite list_lookup_middle by done. by eexists.
    + done.
Qed.

Lemma consume_consumes_updates a hops ci kb u kb' :
  consume_consumes a hops ci kb = Some (u, kb') → rtc update kb kb'.
Proof.
  unfold consume_consumes. intros H.
  apply bind_inv in H as (b & kb1 & Hl & H).
  apply lookupRawSymbol_updates in Hl as (Hu & Hb & _).
  unfold markDirty in H. inv_m.
  etransitivity; [done|]. apply rtc_once.
  match goal with Ha : syms kb1 !! a = Some _ |- _ => apply lookup_lt_Some in Ha end.
  by apply (U_consumed kb1 a b).
Qed.

Lemma consume_use_updates b hops pl lr kb u kb' :
  consume_use b hops pl lr kb = Some (u, kb') → rtc update kb kb'.
Proof.
  unfold consume_use. intros H.
  destruct (JS.truthy_str (contextsym lr)); simpl in H; [|inv_prim H; reflexivity].
  apply bind_inv in H as (a & kb1 & Hl & H).
  apply lookupRawSymbol_updates in Hl as (Hu & Ha & _).
  unfold markDirty in H. inv_m.
  etransitivity; [done|]. apply rtc_once.
  match goal with Hb : syms kb1 !! b = Some _ |- _ => apply lookup_lt_Some in Hb end.
  by apply (U_used kb1 a b).
Qed.

Lemma consume_useGroup_updates i hops useType pls kb u kb' :
  consume_useGroup i hops useType pls kb = Some (u, kb') → rtc update kb kb'.
Proof.
  unfold consume_useGroup. intros H. repeat case_bool_decide.
  - apply bind_inv in H as (s & ? & [Hs ->]%get_sym_inv & H).
    destruct pls as [|pl [|]]; [inv_prim H; reflexivity| |inv_prim H; reflexivity].
    destruct (sourceFileInfo s) eqn:Hsrc; [inv_prim H; reflexivity|].
    apply bind_inv in H as (fi & kb1 & Hf & H).
    apply ensureFileAnalysis_updates in Hf as (Hu & Hp & [f Hfi] & Hsy).
    inv_m. etransitivity; [done|]. apply rtc_once.
    apply (U_source kb1 i s (pl_path pl) fi f); [by rewrite Hsy|done..].
  - apply bind_inv in H as (s & ? & [Hs ->]%get_sym_inv & H).
    destruct pls as [|pl [|]]; [inv_prim H; reflexivity| |inv_prim H; reflexivity].
    destruct (declFileInfo s) eqn:Hsrc; [inv_prim H; reflexivity|].
    apply bind_inv in H as (fi & kb1 & Hf & H).
    apply ensureFileAnalysis_updates in Hf as (Hu & Hp & [f Hfi] & Hsy).
    inv_m. etransitivity; [done|]. apply rtc_once.
    apply (U_decl kb1 i s (pl_path pl) fi f); [by rewrite Hsy|done..].
  - revert kb u kb' H. apply forM_inv; [apply _|]. intros pl kb u kb' _.
    apply forM_inv; [apply _|]. intros lr kb1 u1 kb2 _. apply consume_use_updates.
  - inv_prim H; reflexivity.
Qed.

Lemma consume_result_updates i hops rs kb u kb' :
  consume_result i hops rs kb = Some (u, kb') → rtc update kb kb'.
Proof.
  unfold consume_result. intros H.
  apply bind_inv in H as (s & ? & [Hs ->]%get_sym_inv & H).
  destruct (negb _); [inv_prim H; reflexivity|].
  apply bind_inv in H as ([] & kb1 & H1 & H).
  apply bind_inv in H as ([] & kb2 & H2 & H).
  transitivity kb1; [|transitivity kb2].
  - destruct (rs_meta rs); [|inv_prim H1; reflexivity].
    unfold updateSyntaxKindFrom in H1. inv_prim H1. apply rtc_once.
    apply U_syntax. by eapply lookup_lt_Some.
  - destruct (rs_consumes rs); [|inv_prim H2; reflexivity].
    revert H2. apply forM_inv; [apply _|]. intros ci k1 u1 k2 _. apply consume_consumes_updates.
  - destruct (rs_hits rs); [|inv_prim H; reflexivity].
    revert H. apply forM_inv; [apply _|]. intros [pathKind useGroups] k1 u1 k2 _.
    apply forM_inv; [apply _|]. intros [useType pls] k3 u3 k4 _.
    apply consume_useGroup_updates.
Qed.

Lemma analyzeSymbol_resume_updates i hops semantic kb u kb' :
  analyzeSymbol_resume i hops semantic kb = Some (u, kb') → rtc update kb kb'.
Proof.
  unfold analyzeSymbol_resume. apply forM_inv; [apply _|].
  intros [rawSym rs] k1 u1 k2 _. apply consume_result_updates.
Qed.

Lemma ensure_resume_finished i lvl kb u kb' :
  ensure_resume i lvl kb = Some (u, kb') → kb' = finished i lvl kb ∧ is_Some (syms kb !! i).
Proof. unfold ensure_resume, markDirty. intros H. inv_m. split; [done|by eexists]. Qed.

(** ** Invariants of the event loop *)

Section Invariant.

Variable I : KB → Prop.

Hypothesis I_update : ∀ kb kb', update kb kb' → I kb → I kb'.

Hypothesis I_reply : ∀ kb p i hops rest kb1,
  I kb → take_analyze p (tasks kb) = Some (i, hops, rest) →
  rtc update (set_tasks rest kb) kb1 →
  I (set_settled (p :: settled kb1) kb1).

Hypothesis I_finish : ∀ kb p i lvl rest,
  I kb → take_ensure p (tasks kb) = Some (i, lvl, rest) → p ∈ settled kb →
  is_Some (syms kb !! i) →
  I (finished i lvl (set_tasks rest kb)).

Lemma updates_inv kb kb' : rtc update kb kb' → I kb → I kb'.
Proof. induction 1; eauto. Qed.

Lemma step_inv ev kb u kb' : I kb → step ev kb = Some (u, kb') → I kb'.
Proof.
  intros HI H. destruct ev as [raw d pretty opts|sym hops|p|p semantic|p]; simpl in H.
  - apply bind_inv in H as (i & kb1 & Hl & Hr). inv_prim Hr.
    apply lookupRawSymbol_updates in Hl as [Hu _]. by eapply updates_inv.
  - apply bind_inv in H as (i & kb1 & Hl & Hr). inv_prim Hr.
    apply ensureSymbolAnalysis_updates in Hl. by eapply updates_inv.
  - apply bind_inv in H as (i & kb1 & Hl & Hr). inv_prim Hr.
    apply ensureFileAnalysis_updates in Hl as [Hu _]. by eapply updates_inv.
  - apply bind_inv in H as ([[i hops] rest] & ? & Ht & H).
    apply (lift_opt_inv (λ kb, take_analyze p (tasks kb))) in Ht as [Ht ->].
    apply bind_inv in H as ([] & ? & Hm & H). inv_prim Hm.
    apply bind_inv in H as ([] & kb1 & Hres & H). inv_prim H.
    apply analyzeSymbol_resume_updates in Hres. by eapply I_reply.
  - apply bind_inv in H as ([[i lvl] rest] & ? & Ht & H).
    apply (lift_opt_inv (λ kb, take_ensure p (tasks kb))) in Ht as [Ht ->].
    apply bind_inv in H as (b & ? & Hg & H). inv_prim Hg.
    case_bool_decide as Hset; [|done].
    apply bind_inv in H as ([] & ? & Hm & H). inv_prim Hm.
    apply ensure_resume_finished in H as [-> Hi]. by eapply I_finish.
Qed.

Lemma run_inv evs : ∀ kb u kb', I kb → run evs kb = Some (u, kb') → I kb'.
Proof.
  induction evs as [|ev evs IH]; intros kb u kb' HI H; simpl in H.
  - by inv_prim H.
  - apply bind_inv in H as ([] & kb1 & Hs & H). eapply IH; [|done]. by eapply step_inv.
Qed.

Lemma reachable_inv kb : I empty → reachable kb → I kb.
Proof. intros H0 [evs Hrun]. by eapply run_inv. Qed.

End Invariant.

(** ** The bookkeeping of analyses in flight *)

Lemma bind_alter_proj {B} (g : SymbolInfo → option B) f (i j : nat) (ss : list SymbolInfo) :
  (∀ s, g (f s) = g s) → alter f i ss !! j ≫= g = ss !! j ≫= g.
Proof.
  intros Hg. rewrite lookup_alter_dec. destruct (ss !! j); simpl; [|done].
  case_decide; simpl; by rewrite ?Hg.
Qed.

Lemma fmap_alter_proj {B} (g : SymbolInfo → B) f (i j : nat) (ss : list SymbolInfo) :
  (∀ s, g (f s) = g s) → g <$> alter f i ss !! j = g <$> ss !! j.
Proof.
  intros Hg. rewrite lookup_alter_dec. destruct (ss !! j); simpl; [|done].
  case_decide; simpl; by rewrite ?Hg.
Qed.

Lemma flights_transfer kb kb' :
  flights kb →
  (∀ i, flight kb' i = flight kb i) →
  (∀ i p, flight kb i = Some p → is_analyzed kb' i = false) →
  analyzingSymbols kb' = analyzingSymbols kb → tasks kb' = tasks kb →
  nextPromise kb' = nextPromise kb → settled kb' = settled kb →
  flights kb'.
Proof.
  intros [H1 H2 H3 H4 H5 H6 H7 H8 H9] Hf Ha Es Et En Ee.
  split; intros *; rewrite ?Hf, ?Es, ?Et, ?En, ?Ee; eauto.
Qed.

Lemma flights_benign kb ss :
  flights kb →
  (∀ i, ss !! i ≫= analyzing = syms kb !! i ≫= analyzing) →
  (∀ i, JS.truthy ∘ analyzed <$> ss !! i = JS.truthy ∘ analyzed <$> syms kb !! i) →
  flights (set_syms ss kb).
Proof.
  intros Hfl Hf Ha. apply (flights_transfer kb); try done.
  intros i p Hp. unfold is_analyzed. simpl. rewrite Ha. by eapply (fl_falsy kb Hfl).
Qed.

Lemma NoDup_fmap_remove {A B} (f : A → B) (l1 l2 : list A) (t : A) :
  NoDup (f <$> (l1 ++ t :: l2)) →
  NoDup (f <$> (l1 ++ l2)) ∧ ∀ t', t' ∈ l1 ++ l2 → f t' ≠ f t.
Proof.
  rewrite !fmap_app, fmap_cons. intros (Hn1 & Hd & Hn2)%NoDup_app.
  apply NoDup_cons in Hn2 as [Hnt Hn2]. split.
  - apply NoDup_app. split_and!; [done| |done].
    intros x Hx Hx2. apply (Hd x Hx). by right.
  - intros t' [Hin|Hin]%elem_of_app Heq.
    + apply (Hd (f t')); [by apply list_elem_of_fmap_2|]. rewrite Heq. by left.
    + apply Hnt. rewrite <- Heq. by apply list_elem_of_fmap_2.
Qed.

Lemma take_analyze_split p ts i hops rest :
  take_analyze p ts = Some (i, hops, rest) →
  ∃ l1 l2, ts = l1 ++ AnalyzeAwaitingSearch p i hops :: l2 ∧ rest = l1 ++ l2.
Proof.
  revert rest. induction ts as [|t ts IH]; intros rest; simpl; [done|].
  destruct t as [q j h|q j lvl].
  - case_decide as Hq.
    + intros [= -> -> ->]. subst. by exists [], rest.
    + destruct (take_analyze p ts) as [[[i0 h0] rest0]|]; simpl; [|done].
      intros [= -> -> <-]. destruct (IH rest0 eq_refl) as (l1 & l2 & -> & ->).
      by exists (AnalyzeAwaitingSearch q j h :: l1), l2.
  - destruct (take_analyze p ts) as [[[i0 h0] rest0]|]; simpl; [|done].
    intros [= -> -> <-]. destruct (IH rest0 eq_refl) as (l1 & l2 & -> & ->).
    by exists (EnsureAwaitingAnalysis q j lvl :: l1), l2.
Qed.

Lemma take_ensure_split p ts i lvl rest :
  take_ensure p ts = Some (i, lvl, rest) →
  ∃ l1 l2, ts = l1 ++ EnsureAwaitingAnalysis p i lvl :: l2 ∧ rest = l1 ++ l2.
Proof.
  revert rest. induction ts as [|t ts IH]; intros rest; simpl; [done|].
  destruct t as [q j h|q j lvl'].
  - destruct (take_ensure p ts) as [[[i0 h0] rest0]|]; simpl; [|done].
    intros [= -> -> <-]. destruct (IH rest0 eq_refl) as (l1 & l2 & -> & ->).
    by exists (AnalyzeAwaitingSearch q j h :: l1), l2.
  - case_decide as Hq.
    + intros [= -> -> ->]. subst. by exists [], rest.
    + destruct (take_ensure p ts) as [[[i0 h0] rest0]|]; simpl; [|done].
      intros [= -> -> <-]. destruct (IH rest0 eq_refl) as (l1 & l2 & -> & ->).
      by exists (EnsureAwaitingAnalysis q j lvl' :: l1), l2.
Qed.

Lemma elem_of_remove_middle {A} (l1 l2 : list A) (t x : A) :
  x ∈ l1 ++ t :: l2 → x ≠ t → x ∈ l1 ++ l2.
Proof. rewrite !elem_of_app, elem_of_cons. intuition. Qed.

Lemma elem_of_add_middle {A} (l1 l2 : list A) (t x : A) :
  x ∈ l1 ++ l2 → x ∈ l1 ++ t :: l2.
Proof. rewrite !elem_of_app, elem_of_cons. intuition. Qed.

Lemma flights_empty : flights empty.
Proof.
  split; unfold flight, empty; simpl; intros *; rewrite ?lookup_nil; simpl; try done.
  - split; [by intros ?%elem_of_nil|by intros [? ?]].
  - by intros ?%elem_of_nil.
  - apply NoDup_nil_2.
  - by intros ?%elem_of_nil.
  - by intros ?%elem_of_nil.
Qed.

Lemma flights_started kb i s hops :
  syms kb !! i = Some s → JS.truthy (analyzed s) = false → analyzing s = None →
  flights kb → flights (started i s hops kb).
Proof.
  intros Hs Htr Han [H1 H2 H3 H4 H5 H6 H7 H8 H9].
  assert (Hfi : flight kb i = None) by (unfold flight; by rewrite Hs).
  assert (Hnew : ∀ j, flight (started i s hops kb) j
                      = if decide (j = i) then Some (nextPromise kb) else flight kb j).
  { intros j. unfold flight, started. simpl. rewrite lookup_alter_dec.
    case_decide; [subst; by rewrite Hs|]. by destruct (syms kb !! j). }
  assert (Hnone : ∀ t, t ∈ tasks kb → task_sym t ≠ i).
  { intros t Ht Heq. apply H3 in Ht. rewrite Heq in Ht. by rewrite Hfi in Ht. }
  split.
  - intros j p. rewrite Hnew. unfold is_analyzed, started. simpl.
    rewrite (fmap_alter_proj (JS.truthy ∘ analyzed)) by done.
    case_decide; [subst; intros _; by rewrite Hs; simpl|]. apply H1.
  - intros j. rewrite Hnew. simpl. rewrite elem_of_set_add, H2.
    case_decide; [subst; split; [by eexists|by left]|].
    split; [by intros [?|?]|by right].
  - intros t. rewrite Hnew. simpl. rewrite !elem_of_app, !list_elem_of_singleton.
    intros [[Ht| ->]| ->]; simpl; [|by rewrite decide_True..].
    rewrite decide_False by (by apply Hnone). by apply H3.
  - intros j p. rewrite Hnew. simpl. case_decide.
    + intros [= <-]. subst. eexists. rewrite !elem_of_app, !list_elem_of_singleton. by right.
    + intros (lvl & Hin)%H4. exists lvl. rewrite !elem_of_app. by left; left.
  - simpl. rewrite !fmap_app. simpl. rewrite <- app_assoc. simpl.
    apply NoDup_app. split_and!; [done| |].
    + intros k (t & -> & Ht)%list_elem_of_fmap [Heq|[Heq|Hn%elem_of_nil]%elem_of_cons]%elem_of_cons;
        [| |done]; apply (Hnone t Ht); unfold task_key in Heq; simpl in Heq; by injection Heq.
    + apply NoDup_cons. split; [|apply NoDup_singleton].
      intros Hin%list_elem_of_singleton. discriminate.
  - intros j k p. rewrite !Hnew. repeat case_decide; subst; try done.
    + intros [= <-] Hk. apply H7 in Hk. lia.
    + intros Hj [= <-]. apply H7 in Hj. lia.
    + apply H6.
  - intros j p. rewrite Hnew. simpl. case_decide; [intros [= <-]; lia|].
    intros ?%H7. lia.
  - intros p j h. simpl. rewrite !elem_of_app, !list_elem_of_singleton.
    intros [[Ht|Heq]|Heq]; [by eapply H8| |done].
    injection Heq as -> -> ->. intros Hset%H9. lia.
  - intros p Hp%H9. simpl. lia.
Qed.

Ltac benign :=
  apply flights_benign; [done|..]; intros;
  unfold add_out_then_in, add_in_then_out;
  rewrite ?(bind_alter_proj analyzing), ?(fmap_alter_proj (JS.truthy ∘ analyzed)) by done;
  done.

Lemma flights_update kb kb' : update kb kb' → flights kb → flights kb'.
Proof.
  intros Hu Hfl.
  destruct Hu as [kb i hops|kb i s hops Hs Htr Hlt|kb i s hops Hs Htr Han|kb i s pretty Hs|
                  kb raw pretty opts Hnone|kb p Hp|kb a b Ha Hb|kb a b Ha Hb|kb i k Hi|
                  kb i s p fi f Hs Hsrc Hp Hf|kb i s p fi f Hs Hsrc Hp Hf].
  - by apply (flights_transfer kb); [|done|apply (fl_falsy kb Hfl)|..].
  - apply (flights_transfer kb); try done.
    + intros j. unfold flight. simpl. by rewrite (bind_alter_proj analyzing).
    + intros j p Hj. destruct (decide (j = i)) as [->|Hne].
      * apply (fl_falsy kb Hfl) in Hj. unfold is_analyzed in Hj. rewrite Hs in Hj.
        simpl in Hj. congruence.
      * unfold is_analyzed. simpl. rewrite lookup_alter_dec, decide_False by done.
        rewrite option_fmap_id. by apply (fl_falsy kb Hfl) in Hj.
  - by apply flights_started.
  - benign.
  - unfold created. apply (flights_transfer kb); try done.
    + intros j. unfold flight. simpl.
      destruct (decide (j < length (syms kb))%nat).
      * by rewrite lookup_app_l.
      * rewrite lookup_app_r by lia. rewrite (lookup_ge_None_2 (syms kb)) by lia.
        by destruct (j - length (syms kb))%nat.
    + intros j p Hj. pose proof (fl_falsy kb Hfl j p Hj) as Hfa.
      unfold is_analyzed, flight in *. simpl.
      destruct (syms kb !! j) as [s|] eqn:Hs; [|done].
      by rewrite (lookup_app_l_Some _ _ _ _ Hs).
  - unfold file_created. by apply (flights_transfer kb); [|done|apply (fl_falsy kb Hfl)|..].
  - benign.
  - benign.
  - benign.
  - unfold source_bound.
    apply (flights_transfer (set_syms (alter (upd_sourceFile (Some fi)) i (syms kb)) kb));
      try done; [benign|]. intros j q Hj. unfold is_analyzed. simpl.
    rewrite (fmap_alter_proj (JS.truthy ∘ analyzed)) by done.
    unfold flight in Hj. simpl in Hj. rewrite (bind_alter_proj analyzing) in Hj by done.
    by apply (fl_falsy kb Hfl j q).
  - unfold decl_bound.
    apply (flights_transfer (set_syms (alter (upd_declFile (Some fi)) i (syms kb)) kb));
      try done; [benign|]. intros j q Hj. unfold is_analyzed. simpl.
    rewrite (fmap_alter_proj (JS.truthy ∘ analyzed)) by done.
    unfold flight in Hj. simpl in Hj. rewrite (bind_alter_proj analyzing) in Hj by done.
    by apply (fl_falsy kb Hfl j q).
Qed.

Lemma update_promises kb kb' :
  update kb kb' →
  (nextPromise kb ≤ nextPromise kb')%nat ∧
  ∀ t, t ∈ tasks kb' → t ∈ tasks kb ∨ task_promise t = nextPromise kb.
Proof.
  destruct 1; simpl; (split; [lia|]); try (by left).
  intros t. rewrite !elem_of_app, !list_elem_of_singleton.
  intros [[?| ->]| ->]; [by left|by right..].
Qed.

Lemma answering_update p kb kb' : update kb kb' → answering p kb → answering p kb'.
Proof.
  intros Hu (Hfl & Hp & Hno). destruct (update_promises _ _ Hu) as [Hle Hts].
  split_and!; [by eapply flights_update|lia|].
  intros t [Ht| ->]%Hts Hs; [by apply Hno|lia].
Qed.

Lemma flights_reply kb p i hops rest kb1 :
  flights kb → take_analyze p (tasks kb) = Some (i, hops, rest) →
  rtc update (set_tasks rest kb) kb1 →
  flights (set_settled (p :: settled kb1) kb1).
Proof.
  intros Hfl (l1 & l2 & Hts & ->)%take_analyze_split Hu.
  pose proof (fl_nodup kb Hfl) as Hnd. rewrite Hts in Hnd.
  apply NoDup_fmap_remove in Hnd as [Hnd Hkey].
  assert (Hin : AnalyzeAwaitingSearch p i hops ∈ tasks kb).
  { rewrite Hts, elem_of_app. right. by left. }
  pose proof (fl_task kb Hfl _ Hin) as Hpi. simpl in Hpi.
  assert (Hans : answering p (set_tasks (l1 ++ l2) kb)).
  { split_and!.
    - destruct Hfl as [H1 H2 H3 H4 H5 H6 H7 H8 H9]. split; simpl; try done.
      + intros t Ht. apply H3. rewrite Hts. by apply elem_of_add_middle.
      + intros j q (lvl & Hl)%H4. exists lvl. rewrite Hts in Hl.
        by apply elem_of_remove_middle in Hl.
      + intros q j h Ht. apply (H8 q j h). rewrite Hts. by apply elem_of_add_middle.
    - simpl. by apply (fl_fresh kb Hfl i).
    - simpl. intros t Ht Hs Hq. apply (Hkey t Ht).
      assert (Hti : flight kb (task_sym t) = Some p).
      { rewrite <- Hq. apply (fl_task kb Hfl). rewrite Hts. by apply elem_of_add_middle. }
      unfold task_key. simpl. by rewrite Hs, (fl_inj kb Hfl _ _ _ Hti Hpi). }
  assert (Hans1 : answering p kb1).
  { clear -Hans Hu. induction Hu; [done|]. eauto using answering_update. }
  destruct Hans1 as ([H1 H2 H3 H4 H5 H6 H7 H8 H9] & Hp & Hno).
  split; simpl; try done.
  - intros q j h Ht [->|Hq]%elem_of_cons; [by apply (Hno _ Ht)|by apply (H8 q j h)].
  - intros q [->|Hq]%elem_of_cons; [done|by apply H9].
Qed.

Lemma flights_finish kb p i lvl rest :
  flights kb → take_ensure p (tasks kb) = Some (i, lvl, rest) → p ∈ settled kb →
  is_Some (syms kb !! i) →
  flights (finished i lvl (set_tasks rest kb)).
Proof.
  intros Hfl (l1 & l2 & Hts & ->)%take_ensure_split Hset [s Hs].
  pose proof (fl_nodup kb Hfl) as Hnd. rewrite Hts in Hnd.
  apply NoDup_fmap_remove in Hnd as [Hnd Hkey].
  assert (Hin : EnsureAwaitingAnalysis p i lvl ∈ tasks kb).
  { rewrite Hts, elem_of_app. right. by left. }
  pose proof (fl_task kb Hfl _ Hin) as Hpi. simpl in Hpi.
  set (kb' := finished i lvl (set_tasks (l1 ++ l2) kb)).
  assert (Hnew : ∀ j, flight kb' j = if decide (j = i) then None else flight kb j).
  { intros j. unfold flight, kb', finished. simpl. rewrite !lookup_alter_dec.
    case_decide; [subst; by rewrite Hs|]. by destruct (syms kb !! j). }
  assert (Hrest : ∀ t, t ∈ l1 ++ l2 → task_sym t ≠ i).
  { intros t Ht Hi. pose proof (Hkey t Ht) as Hk.
    assert (Ht' : t ∈ tasks kb) by (rewrite Hts; by apply elem_of_add_middle).
    destruct t as [q j h|q j l]; simpl in *; subst.
    - pose proof (fl_task kb Hfl _ Ht') as Hq. simpl in Hq.
      rewrite Hpi in Hq. injection Hq as <-.
      by apply (fl_unsettled kb Hfl p i h).
    - by apply Hk. }
  destruct Hfl as [H1 H2 H3 H4 H5 H6 H7 H8 H9]. split.
  - intros j q. rewrite Hnew. case_decide; [done|]. intros Hj%H1.
    unfold is_analyzed, kb', finished in *. simpl. rewrite !lookup_alter_dec.
    rewrite !decide_False by done. by rewrite !option_fmap_id.
  - intros j. rewrite Hnew. unfold kb', finished, set_delete. simpl.
    rewrite list_elem_of_filter, H2. case_decide; [subst|]; split; try tauto.
    by intros [? ?].
  - intros t Ht. rewrite Hnew. rewrite decide_False by (by apply Hrest).
    apply H3. rewrite Hts. by apply elem_of_add_middle.
  - intros j q. rewrite Hnew. case_decide; [done|]. intros (l & Hl)%H4.
    exists l. rewrite Hts in Hl. apply elem_of_remove_middle in Hl; [done|congruence].
  - done.
  - intros j k q. rewrite !Hnew. repeat case_decide; try done. apply H6.
  - intros j q. rewrite Hnew. case_decide; [done|]. apply H7.
  - intros q j h Ht. apply (H8 q j h). rewrite Hts. by apply elem_of_add_middle.
  - done.
Qed.

Lemma reachable_flights kb : reachable kb → flights kb.
Proof.
  apply (reachable_inv flights);
    [apply flights_update|apply flights_reply|apply flights_finish|apply flights_empty].
Qed.

(** ** The file cache *)

Lemma files_ok_update kb kb' : update kb kb' → files_ok kb → files_ok kb'.
Proof.
  intros Hu HI.
  destruct Hu as [kb i hops|kb i s hops Hs Htr Hlt|kb i s hops Hs Htr Han|kb i s pretty Hs|
                  kb raw pretty opts Hnone|kb p Hp|kb a b Ha Hb|kb a b Ha Hb|kb i k Hi|
                  kb i s p fi f Hs Hsrc Hp Hf|kb i s p fi f Hs Hsrc Hp Hf]; try exact HI.
  - destruct HI as [Hc Hr].
    assert (Hnone : filesByPath kb !! p = None).
    { destruct (filesByPath kb !! p) as [fj|] eqn:Hfj; [|done].
      destruct (Hc p fj Hfj) as (g & Hg & _ & Ha). rewrite (Hp fj g eq_refl Hg) in Ha. done. }
    unfold file_created. split; simpl.
    + intros q f. rewrite lookup_insert. case_decide as Hq.
      * intros [= <-]. subst q. rewrite !list_lookup_alter_eq, list_lookup_middle by done.
        simpl. by eexists.
      * intros (fi & Hfi & ? & ?)%Hc. exists fi. split; [|done].
        rewrite !list_lookup_alter_ne by (apply lookup_lt_Some in Hfi; lia).
        by apply lookup_app_l_Some.
    + intros f fi. rewrite !lookup_alter_dec. case_decide as Hf.
      * subst f. rewrite list_lookup_middle by done. simpl. intros [= <-]. simpl.
        apply lookup_insert_eq.
      * rewrite !option_fmap_id. intros [Hfi|[? _]]%lookup_snoc_inv; [|done].
        rewrite lookup_insert_ne; [by apply Hr|].
        intros Heq. apply Hr in Hfi. rewrite <- Heq in Hfi. by rewrite Hnone in Hfi.
  - destruct HI as [Hc Hr]. unfold source_bound. split; simpl.
    + intros q g (x & Hx & ? & ?)%Hc. rewrite !lookup_alter_dec, Hx. simpl.
      case_decide; eexists; (split; [done|]); by simpl.
    + intros g x. rewrite !lookup_alter_dec.
      destruct (files kb !! g) as [y|] eqn:Hy; [|done]. simpl.
      intros [= <-]. case_decide; simpl; by apply Hr.
  - destruct HI as [Hc Hr]. unfold decl_bound. split; simpl.
    + intros q g (x & Hx & ? & ?)%Hc. rewrite !lookup_alter_dec, Hx. simpl.
      case_decide; eexists; (split; [done|]); by simpl.
    + intros g x. rewrite !lookup_alter_dec.
      destruct (files kb !! g) as [y|] eqn:Hy; [|done]. simpl.
      intros [= <-]. case_decide; simpl; by apply Hr.
Qed.

Lemma reachable_files_ok kb : reachable kb → files_ok kb.
Proof.
  apply (reachable_inv files_ok).
  - apply files_ok_update.
  - intros kb0 p i hops rest kb1 HI _ Hu.
    apply (updates_inv files_ok files_ok_update (set_tasks rest kb0) kb1 Hu HI).
  - intros kb0 p i lvl rest HI _ _ _. exact HI.
  - split; unfold empty; simpl; intros *; [by rewrite lookup_empty|by rewrite lookup_nil].
Qed.

(** ** File back-references *)

Lemma backrefs_transfer kb kb' :
  (∀ i, src kb' i = src kb i) → (∀ i, dcl kb' i = dcl kb i) →
  (∀ f, defs_of kb' f = defs_of kb f) → (∀ f, decls_of kb' f = decls_of kb f) →
  backrefs kb → backrefs kb'.
Proof.
  intros H1 H2 H3 H4 [Hs Hd]. split; intros i f; rewrite ?H1, ?H2, ?H3, ?H4; auto.
Qed.

Lemma lookup_snoc_bind {A B} (g : A → option B) (l : list A) (x : A) (j : nat) :
  g x = None → (l ++ [x]) !! j ≫= g = l !! j ≫= g.
Proof.
  intros Hx. destruct (decide (j < length l)%nat).
  - by rewrite lookup_app_l.
  - rewrite lookup_app_r, (lookup_ge_None_2 l) by lia.
    by destruct (j - length l)%nat.
Qed.

Lemma lookup_snoc_default {A B} (g : A → list B) (l : list A) (x : A) (j : nat) :
  g x = [] → default [] (g <$> (l ++ [x]) !! j) = default [] (g <$> l !! j).
Proof.
  intros Hx. destruct (decide (j < length l)%nat).
  - by rewrite lookup_app_l.
  - rewrite lookup_app_r, (lookup_ge_None_2 l) by lia.
    by destruct (j - length l)%nat.
Qed.

Ltac same_refs :=
  eapply backrefs_transfer; [..|eassumption]; intros;
  unfold src, dcl, defs_of, decls_of, started, add_out_then_in, add_in_then_out; simpl;
  rewrite ?(bind_alter_proj sourceFileInfo), ?(bind_alter_proj declFileInfo) by done;
  done.

Lemma backrefs_update kb kb' : update kb kb' → backrefs kb → backrefs kb'.
Proof.
  intros Hu HI.
  destruct Hu as [kb i hops|kb i s hops Hs Htr Hlt|kb i s hops Hs Htr Han|kb i s pretty Hs|
                  kb raw pretty opts Hnone|kb p Hp|kb a b Ha Hb|kb a b Ha Hb|kb i k Hi|
                  kb i s p fi f Hs Hsrc Hp Hf|kb i s p fi f Hs Hsrc Hp Hf];
    try exact HI; try same_refs.
  - apply (backrefs_transfer kb); [..|done]; intros; try done;
      unfold src, dcl, created; simpl; by apply lookup_snoc_bind.
  - apply (backrefs_transfer kb); [..|done]; intros j; try done;
      unfold defs_of, decls_of, file_created; simpl; rewrite !lookup_alter_dec.
    + case_decide as Hj; [|rewrite !option_fmap_id; by apply lookup_snoc_default].
      subst j. rewrite list_lookup_middle, (lookup_ge_None_2 (files kb)) by done. done.
    + case_decide as Hj; [|rewrite !option_fmap_id; by apply lookup_snoc_default].
      subst j. rewrite list_lookup_middle, (lookup_ge_None_2 (files kb)) by done. done.
  - destruct HI as [H1 H2].
    assert (Hsi : src kb i = None) by (unfold src; by rewrite Hs).
    assert (Hsrc' : ∀ j, src (source_bound i fi kb) j
                         = if decide (j = i) then Some fi else src kb j).
    { intros j. unfold src, source_bound. simpl. rewrite lookup_alter_dec.
      case_decide; [subst; by rewrite Hs|]. by rewrite option_fmap_id. }
    assert (Hdefs' : ∀ g, defs_of (source_bound i fi kb) g
                          = if decide (g = fi) then set_add i (defs_of kb fi) else defs_of kb g).
    { intros g. unfold defs_of, source_bound. simpl. rewrite !lookup_alter_dec.
      case_decide; [subst; by rewrite Hf|]. by rewrite !option_fmap_id. }
    split.
    + intros j g. rewrite Hsrc', Hdefs'. repeat case_decide; subst.
      * rewrite elem_of_set_add. split; [by left|done].
      * rewrite <- H1, Hsi. split; [congruence|done].
      * rewrite elem_of_set_add, H1. split; [by right|by intros [?|?]].
      * apply H1.
    + intros j g.
      assert (dcl (source_bound i fi kb) j = dcl kb j) as ->.
      { unfold dcl, source_bound. simpl. by rewrite (bind_alter_proj declFileInfo). }
      assert (decls_of (source_bound i fi kb) g = decls_of kb g) as ->.
      { unfold decls_of, source_bound. simpl. rewrite !lookup_alter_dec.
        destruct (files kb !! g); simpl; [|done]. by case_decide. }
      apply H2.
  - destruct HI as [H1 H2].
    assert (Hsi : dcl kb i = None) by (unfold dcl; by rewrite Hs).
    assert (Hsrc' : ∀ j, dcl (decl_bound i fi kb) j
                         = if decide (j = i) then Some fi else dcl kb j).
    { intros j. unfold dcl, decl_bound. simpl. rewrite lookup_alter_dec.
      case_decide; [subst; by rewrite Hs|]. by rewrite option_fmap_id. }
    assert (Hdefs' : ∀ g, decls_of (decl_bound i fi kb) g
                          = if decide (g = fi) then set_add i (decls_of kb fi) else decls_of kb g).
    { intros g. unfold decls_of, decl_bound. simpl. rewrite !lookup_alter_dec.
      case_decide; [subst; by rewrite Hf|]. by rewrite !option_fmap_id. }
    split.
    + intros j g.
      assert (src (decl_bound i fi kb) j = src kb j) as ->.
      { unfold src, decl_bound. simpl. by rewrite (bind_alter_proj sourceFileInfo). }
      assert (defs_of (decl_bound i fi kb) g = defs_of kb g) as ->.
      { unfold defs_of, decl_bound. simpl. rewrite !lookup_alter_dec.
        destruct (files kb !! g); simpl; [|done]. by case_decide. }
      apply H1.
    + intros j g. rewrite Hsrc', Hdefs'. repeat case_decide; subst.
      * rewrite elem_of_set_add. split; [by left|done].
      * rewrite <- H2, Hsi. split; [congruence|done].
      * rewrite elem_of_set_add, H2. split; [by right|by intros [?|?]].
      * apply H2.
Qed.

Lemma backrefs_finished kb i lvl : backrefs kb → backrefs (finished i lvl kb).
Proof.
  apply backrefs_transfer; intros; unfold src, dcl, defs_of, decls_of, finished; simpl;
    rewrite ?(bind_alter_proj sourceFileInfo), ?(bind_alter_proj declFileInfo) by done; done.
Qed.

Lemma reachable_backrefs kb : reachable kb → backrefs kb.
Proof.
  apply (reachable_inv backrefs).
  - apply backrefs_update.
  - intros kb0 p i hops rest kb1 HI _ Hu.
    apply (updates_inv backrefs backrefs_update (set_tasks rest kb0) kb1 Hu HI).
  - intros kb0 p i lvl rest HI _ _ _. by apply (backrefs_finished (set_tasks rest kb0)).
  - split; intros i f; unfold src, dcl, defs_of, decls_of, empty; simpl;
      (split; [done|by intros ?%elem_of_nil]).
Qed.

(** ** What the knowledge base never forgets *)

Lemma keeps_sym_same s s' :
  rawName s' = rawName s → outEdges s' = outEdges s → inEdges s' = inEdges s →
  sourceFileInfo s' = sourceFileInfo s → declFileInfo s' = declFileInfo s →
  prettyName s' = prettyName s → keeps_sym s s'.
Proof. intros H1 H2 H3 H4 H5 H6. unfold keeps_sym. by rewrite H1, H2, H3, H4, H5, H6. Qed.

Lemma keeps_sym_trans s1 s2 s3 : keeps_sym s1 s2 → keeps_sym s2 s3 → keeps_sym s1 s3.
Proof.
  intros (A1 & A2 & A3 & A4 & A5 & A6) (B1 & B2 & B3 & B4 & B5 & B6). split_and!.
  - congruence.
  - by etransitivity.
  - by etransitivity.
  - intros H. rewrite <- (A4 H). apply B4. by rewrite (A4 H).
  - intros H. rewrite <- (A5 H). apply B5. by rewrite (A5 H).
  - intros H. rewrite <- (A6 H). apply B6. by rewrite (A6 H).
Qed.

Lemma keeps_file_trans f1 f2 f3 : keeps_file f1 f2 → keeps_file f2 f3 → keeps_file f1 f3.
Proof.
  intros (A1 & A2 & A3 & A4) (B1 & B2 & B3 & B4).
  split_and!; [congruence|by etransitivity|by etransitivity|auto].
Qed.

Lemma remembers_refl kb : remembers kb kb.
Proof.
  split_and!; [| |done].
  - intros i s Hs. exists s. split; [done|]. by apply keeps_sym_same.
  - intros f x Hx. exists x. by split.
Qed.

Lemma remembers_trans kb1 kb2 kb3 : remembers kb1 kb2 → remembers kb2 kb3 → remembers kb1 kb3.
Proof.
  intros (A1 & A2 & A3) (B1 & B2 & B3). split_and!.
  - intros i s1 (s2 & Hs2 & K1)%A1. destruct (B1 i s2 Hs2) as (s3 & Hs3 & K2).
    exists s3. split; [done|by eapply keeps_sym_trans].
  - intros f x1 (x2 & Hx2 & K1)%A2. destruct (B2 f x2 Hx2) as (x3 & Hx3 & K2).
    exists x3. split; [done|by eapply keeps_file_trans].
  - eauto.
Qed.

Lemma remembers_alter_sym kb i f :
  (∀ s, syms kb !! i = Some s → keeps_sym s (f s)) →
  remembers kb (set_syms (alter f i (syms kb)) kb).
Proof.
  intros Hf. split_and!; simpl; [| |done].
  - intros j s Hs. rewrite lookup_alter_dec, Hs. simpl. eexists. split; [done|].
    case_decide; [subst; by apply Hf|by apply keeps_sym_same].
  - intros g x Hx. exists x. by split.
Qed.

Lemma remembers_alter_file kb i f :
  (∀ x, files kb !! i = Some x → keeps_file x (f x)) →
  remembers kb (set_files (alter f i (files kb)) kb).
Proof.
  intros Hf. split_and!; simpl; [| |done].
  - intros j s Hs. exists s. split; [done|]. by apply keeps_sym_same.
  - intros g x Hx. rewrite lookup_alter_dec, Hx. simpl. eexists. split; [done|].
    case_decide; [subst; by apply Hf|by split].
Qed.

Lemma subseteq_set_add (x : nat) (l : list nat) : l ⊆ set_add x l.
Proof. intros y Hy. apply elem_of_set_add. by right. Qed.

Ltac alter_sym_step i f :=
  eapply remembers_trans;
    [apply (remembers_alter_sym _ i f); intros; first
       [ by apply keeps_sym_same
       | split_and!; simpl; try done; apply subseteq_set_add ] |].

Lemma remembers_edges kb (a b : nat) (ss : list SymbolInfo) :
  ss = add_out_then_in a b (syms kb) ∨ ss = add_in_then_out a b (syms kb) →
  remembers kb (set_syms ss kb).
Proof.
  intros [-> | ->]; unfold add_out_then_in, add_in_then_out.
  - alter_sym_step a (upd_out (set_add b)). alter_sym_step a bump_serial.
    alter_sym_step b (upd_in (set_add a)). alter_sym_step b bump_serial.
    exact (remembers_refl _).
  - alter_sym_step b (upd_in (set_add a)). alter_sym_step b bump_serial.
    alter_sym_step a (upd_out (set_add b)). alter_sym_step a bump_serial.
    exact (remembers_refl _).
Qed.

Ltac alter_file_step i f :=
  eapply remembers_trans;
    [apply (remembers_alter_file _ i f); intros;
     split_and!; simpl; try done; apply subseteq_set_add |].

Lemma remembers_update kb kb' : update kb kb' → remembers kb kb'.
Proof.
  intros Hu.
  destruct Hu as [kb i hops|kb i s hops Hs Htr Hlt|kb i s hops Hs Htr Han|kb i s pretty Hs Hp Hq|
                  kb raw pretty opts Hnone|kb p Hp|kb a b Ha Hb|kb a b Ha Hb|kb i k Hi|
                  kb i s p fi f Hs Hsrc Hp Hf|kb i s p fi f Hs Hsrc Hp Hf].
  - exact (remembers_refl kb).
  - apply remembers_alter_sym. intros. by apply keeps_sym_same.
  - alter_sym_step i (upd_analyzing (Some (nextPromise kb))). exact (remembers_refl _).
  - apply remembers_alter_sym. intros s' Hs'.
    assert (s' = s) as -> by congruence.
    split_and!; simpl; try done. congruence.
  - split_and!; simpl.
    + intros j x Hx. exists x. split; [by apply lookup_app_l_Some|by apply keeps_sym_same].
    + intros g x Hx. exists x. by split.
    + intros k j Hk. rewrite lookup_insert_ne; [done|congruence].
  - split_and!; simpl; [| |done].
    + intros j x Hx. exists x. split; [done|by apply keeps_sym_same].
    + intros g x Hx. exists x. split; [|by split].
      rewrite !list_lookup_alter_ne by (apply lookup_lt_Some in Hx; lia).
      by apply lookup_app_l_Some.
  - apply (remembers_edges kb a b). by left.
  - apply (remembers_edges kb a b). by right.
  - apply remembers_alter_sym. intros. by apply keeps_sym_same.
  - unfold source_bound.
    eapply remembers_trans;
      [apply (remembers_alter_sym kb i (upd_sourceFile (Some fi)))|].
    { intros s' Hs'. assert (s' = s) as -> by congruence.
      split_and!; simpl; try done. rewrite Hsrc. by intros [? ?]. }
    alter_file_step fi (λ f, mkFileInfo (path f) (fi_analyzed f) (set_add i (fileSymbolDefs f))
                               (fileSymbolDecls f) (fi_serial f)).
    alter_file_step fi (λ f, mkFileInfo (path f) (fi_analyzed f) (fileSymbolDefs f)
                               (fileSymbolDecls f) (S (fi_serial f))).
    exact (remembers_refl _).
  - unfold decl_bound.
    eapply remembers_trans;
      [apply (remembers_alter_sym kb i (upd_declFile (Some fi)))|].
    { intros s' Hs'. assert (s' = s) as -> by congruence.
      split_and!; simpl; try done. rewrite Hsrc. by intros [? ?]. }
    alter_file_step fi (λ f, mkFileInfo (path f) (fi_analyzed f) (fileSymbolDefs f)
                               (set_add i (fileSymbolDecls f)) (fi_serial f)).
    alter_file_step fi (λ f, mkFileInfo (path f) (fi_analyzed f) (fileSymbolDefs f)
                               (fileSymbolDecls f) (S (fi_serial f))).
    exact (remembers_refl _).
Qed.

Lemma remembers_finished kb i lvl : remembers kb (finished i lvl kb).
Proof.
  unfold finished.
  alter_sym_step i (upd_analyzing None). alter_sym_step i (upd_analyzed lvl).
  alter_sym_step i bump_serial. exact (remembers_refl _).
Qed.

Lemma run_remembers evs kb u kb' : run evs kb = Some (u, kb') → remembers kb kb'.
Proof.
  apply (run_inv (remembers kb)); [| | |apply remembers_refl].
  - intros k1 k2 Hu H. eapply remembers_trans; [done|by apply remembers_update].
  - intros k1 p i hops rest k2 H _ Hu.
    eapply remembers_trans; [exact H|].
    assert (remembers (set_tasks rest k1) k2) as Hr.
    { clear -Hu. induction Hu; [apply remembers_refl|].
      eapply remembers_trans; [by apply remembers_update|done]. }
    exact Hr.
  - intros k1 p i lvl rest H _ _ _.
    eapply remembers_trans; [exact H|]. apply (remembers_finished (set_tasks rest k1)).
Qed.

(** ** Levels *)

Lemma level_at_least_update i z kb kb' :
  update kb kb' → level_at_least i z kb → level_at_least i z kb'.
Proof.
  intros Hu (s0 & z0 & Hs0 & Ha0 & Hz).
  assert (Hsame : ∀ ss : list SymbolInfo,
                    (∀ j : nat, analyzed <$> ss !! j = analyzed <$> syms kb !! j) →
                        ∃ s z', ss !! i = Some s ∧ analyzed s = JS.VNum z' ∧ z ≤ z').
  { intros ss Hss. specialize (Hss i). rewrite Hs0 in Hss. simpl in Hss.
    destruct (ss !! i) as [s|]; [|done]. injection Hss as Hss.
    exists s, z0. split_and!; [done|congruence|done]. }
  destruct Hu as [kb i' hops|kb i' s hops Hs Htr Hlt|kb i' s hops Hs Htr Han|kb i' s pretty Hs|
                  kb raw pretty opts Hnone|kb p Hp|kb a b Ha Hb|kb a b Ha Hb|kb i' k Hi|
                  kb i' s p fi f Hs Hsrc Hp Hf|kb i' s p fi f Hs Hsrc Hp Hf];
    unfold level_at_least, started, created, file_created, source_bound, decl_bound,
      add_out_then_in, add_in_then_out; simpl;
    try (apply Hsame; intros; by rewrite ?(fmap_alter_proj analyzed) by done).
  - destruct (decide (i = i')) as [<-|Hne].
    + rewrite list_lookup_alter_eq, Hs0. simpl.
      assert (s = s0) as -> by congruence.
      apply lt_min2_inv in Hlt as (l & h & Hl & Hh & Hlh).
      rewrite Ha0 in Hl. injection Hl as <-.
      eexists _, (Z.min 2 h). split_and!; [done| |lia].
      simpl. unfold JS.min2. by rewrite Hh.
    + rewrite list_lookup_alter_ne by done. by exists s0, z0.
  - exists s0, z0. split; [by apply lookup_app_l_Some|done].
Qed.

Lemma reachable_levels_kept i z kb evs u kb' :
  1 ≤ z → flights kb → level_at_least i z kb →
  run evs kb = Some (u, kb') → level_at_least i z kb'.
Proof.
  intros Hz Hfl Hlv Hrun.
  apply (run_inv (λ k, flights k ∧ level_at_least i z k)) in Hrun; [by destruct Hrun| | | |done].
  - intros k1 k2 Hu [? ?]. split; [by eapply flights_update|by eapply level_at_least_update].
  - intros k1 p j hops rest k2 [Hf Hl] Ht Hu. split; [by eapply flights_reply|].
    assert (level_at_least i z k2) as Hr; [|exact Hr].
    clear -Hu Hl. assert (level_at_least i z (set_tasks rest k1)) as H0 by exact Hl.
    clear Hl. induction Hu; [done|]. eauto using level_at_least_update.
  - intros k1 p j lvl rest [Hf Hl] Ht Hset Hj. split; [by eapply flights_finish|].
    destruct Hl as (s0 & z0 & Hs0 & Ha0 & Hz0).
    assert (Hne : i ≠ j).
    { intros ->. apply take_ensure_spec in Ht as [Hin _].
      apply (fl_task k1 Hf) in Hin. simpl in Hin.
      apply (fl_falsy k1 Hf) in Hin. unfold is_analyzed in Hin.
      rewrite Hs0 in Hin. simpl in Hin. rewrite Ha0 in Hin. simpl in Hin.
      apply negb_false_iff, Z.eqb_eq in Hin. lia. }
    exists s0, z0. unfold finished. simpl.
    by rewrite !list_lookup_alter_ne by done.
Qed.

Lemma run_snoc evs ev kb :
  run (evs ++ [ev]) kb = (run evs ;; step ev) kb.
Proof.
  revert kb. induction evs as [|e evs IH]; intros kb; simpl.
  - unfold bind, ret. destruct (step ev kb) as [[[] ?]|]; done.
  - unfold bind in *. destruct (step e kb) as [[[] kb1]|]; [|done]. apply IH.
Qed.

Lemma reachable_step ev kb u kb' : reachable kb → step ev kb = Some (u, kb') → reachable kb'.
Proof.
  intros [evs Hrun] Hstep. exists (evs ++ [ev]). rewrite run_snoc.
  unfold bind. rewrite Hrun. by destruct u.
Qed.

(** ** What an analysis request leaves alone *)

Lemma fmap_alter_same {B} (g : SymbolInfo → B) f (i : nat) (l : list SymbolInfo) :
  (∀ s, g (f s) = g s) → g <$> alter f i l = g <$> l.
Proof.
  intros Hg. apply list_eq. intros j. rewrite !list_lookup_fmap. by apply fmap_alter_proj.
Qed.

#[global] Instance same_static_po : PreOrder same_static.
Proof.
  split.
  - by intros kb.
  - intros k1 k2 k3 (A1 & A2 & A3 & A4) (B1 & B2 & B3 & B4).
    split_and!; congruence.
Qed.

Lemma ensure_rec_static n : ∀ i hops kb r kb',
  ensure_rec n i hops kb = Some (r, kb') → same_static kb kb'.
Proof.
  induction n as [|n IH]; intros i hops kb r kb' H; simpl in H; [done|].
  apply bind_inv in H as ([] & kbA & HA & H). inv_prim HA.
  match type of H with _ ?k = _ => set (kbA := k) in * end.
  assert (HA : same_static kb kbA) by done.
  etransitivity; [exact HA|]. clear HA.
  apply bind_inv in H as (s & ? & [Hs ->]%get_sym_inv & H).
  assert (Hloop : ∀ l kb1 u kb2,
    forM_ l (λ otherSym, _ <- ensure_rec n otherSym (JS.minus1 hops) ;; ret tt) kb1
      = Some (u, kb2) → same_static kb1 kb2).
  { intros l. apply forM_inv; [apply _|]. intros x kb1 u kb2 _ Hx.
    apply bind_inv in Hx as (? & ? & Hx & Hr). inv_prim Hr. by eapply IH. }
  destruct (JS.truthy (analyzed s)) eqn:Htr.
  - apply bind_inv in H as ([] & kb1 & H & Hret). inv_prim Hret.
    destruct (JS.lt (analyzed s) (JS.min2 hops)) eqn:Hlt; simpl in H; [|by inv_prim H].
    apply bind_inv in H as ([] & ? & [_ ->]%modify_sym_inv & H).
    apply bind_inv in H as (s1 & ? & [Hs1 ->]%get_sym_inv & H).
    apply bind_inv in H as ([] & kb2 & H2 & H).
    apply bind_inv in H as (s2 & ? & [Hs2 ->]%get_sym_inv & H).
    transitivity (set_syms (alter (upd_analyzed (JS.min2 hops)) i (syms kbA)) kbA);
      [|transitivity kb2].
    + split_and!; simpl; try done; by apply fmap_alter_same.
    + match type of H2 with when ?b _ _ = _ => destruct b end; simpl in H2;
        [by eapply Hloop|by inv_prim H2].
    + match type of H with when ?b _ _ = _ => destruct b end; simpl in H;
        [by eapply Hloop|by inv_prim H].
  - destruct (analyzing s) as [p|] eqn:Hp; [by inv_prim H|].
    unfold analyzeSymbol_start in H. inv_m.
    split_and!; simpl; try done; by apply fmap_alter_same.
Qed.

(** ** Quiet code *)

#[global] Instance quiet_po : PreOrder quiet.
Proof.
  split.
  - intros kb. split_and!; try done. intros j s Hs. by exists s.
  - intros k1 k2 k3 (A1 & A2 & A3 & A4 & A5 & A6 & A7) (B1 & B2 & B3 & B4 & B5 & B6 & B7).
    split_and!; try congruence.
    intros j s (s2 & Hs2 & ? & ?)%A7. destruct (B7 j s2 Hs2) as (s3 & ? & ? & ?).
    exists s3. split_and!; congruence.
Qed.

Lemma quiet_alter kb i f :
  (∀ s, analyzed (f s) = analyzed s) → (∀ s, analyzing (f s) = analyzing s) →
  quiet kb (set_syms (alter f i (syms kb)) kb).
Proof.
  intros H1 H2. split_and!; simpl; try done.
  intros j s Hs. rewrite lookup_alter_dec, Hs. simpl. eexists. split; [done|].
  by case_decide.
Qed.

Lemma quiet_edges kb (a b : nat) (ss : list SymbolInfo) :
  ss = add_out_then_in a b (syms kb) ∨ ss = add_in_then_out a b (syms kb) →
  quiet kb (set_syms ss kb).
Proof.
  intros Hss. split_and!; simpl; try done.
  intros j s Hs. destruct Hss as [-> | ->]; unfold add_out_then_in, add_in_then_out;
    rewrite !lookup_alter_dec, Hs; simpl; eexists; (split; [done|]);
    by repeat case_decide.
Qed.

Lemma lookupRawSymbol_quiet raw doAnalyze pretty opts kb i kb' :
  JS.truthy doAnalyze = false →
  lookupRawSymbol raw doAnalyze pretty opts kb = Some (i, kb') →
  quiet kb kb' ∧ files kb' = files kb ∧ filesByPath kb' = filesByPath kb.
Proof.
  unfold lookupRawSymbol. intros Hd H. rewrite Hd in H. simpl in H.
  apply bind_inv in H as (cached & ? & Hc & H). inv_prim Hc.
  destruct (symbolsByRawName kb !! normalizeSymbol raw) as [j|] eqn:Hkey.
  - apply bind_inv in H as (s & ? & [Hs ->]%get_sym_inv & H).
    apply bind_inv in H as ([] & kb1 & H1 & H). inv_m.
    destruct (_ && _); simpl in H1.
    + unfold updatePrettyNameFrom in H1. inv_prim H1. split; [|done].
      by apply quiet_alter.
    + inv_prim H1. done.
  - inv_m. split; [|done]. split_and!; simpl; try done.
    intros j s Hs. exists s. split; [by apply lookup_app_l_Some|done].
Qed.

Lemma ensureFileAnalysis_cases p kb fi kb' :
  ensureFileAnalysis p kb = Some (fi, kb') →
  (kb' = kb ∧ filesByPath kb !! p = Some fi ∧
   ∃ f, files kb !! fi = Some f ∧ fi_analyzed f = true) ∨
  (kb' = file_created p kb ∧ fi = length (files kb)).
Proof.
  unfold ensureFileAnalysis. intros H.
  apply bind_inv in H as (known & ? & Hk & H). inv_prim Hk.
  apply bind_inv in H as (hit & kb1 & Hhit & H).
  destruct (filesByPath kb !! p) as [fj|] eqn:Hp.
  - apply bind_inv in Hhit as (f & ? & [Hf ->]%get_file_inv & Hr). inv_prim Hr.
    destruct (fi_analyzed f) eqn:Ha.
    + inv_prim H. left. split_and!; [done|done|by exists f].
    + inv_m. by right.
  - inv_prim Hhit. inv_m. by right.
Qed.

Lemma ensureFileAnalysis_quiet p kb fi kb' :
  ensureFileAnalysis p kb = Some (fi, kb') → quiet kb kb' ∧ syms kb' = syms kb.
Proof.
  intros [(-> & _)|(-> & _)]%ensureFileAnalysis_cases; (split; [|done]).
  - done.
  - exact (reflexivity (R:=quiet) kb).
Qed.

Section SpentBudget.

Variables (hops : JS.value).

Hypothesis spent : JS.truthy (JS.minus1 hops) = false.

Lemma consume_consumes_quiet a ci kb u kb' :
  consume_consumes a hops ci kb = Some (u, kb') → quiet kb kb'.
Proof.
  unfold consume_consumes. intros H.
  apply bind_inv in H as (b & kb1 & Hl & H).
  apply lookupRawSymbol_quiet in Hl as [Hq _]; [|done].
  unfold markDirty in H. inv_m.
  etransitivity; [done|]. apply (quiet_edges kb1 a b). by left.
Qed.

Lemma consume_use_quiet b pl lr kb u kb' :
  consume_use b hops pl lr kb = Some (u, kb') → quiet kb kb'.
Proof.
  unfold consume_use. intros H.
  destruct (JS.truthy_str (contextsym lr)); simpl in H; [|by inv_prim H].
  apply bind_inv in H as (a & kb1 & Hl & H).
  apply lookupRawSymbol_quiet in Hl as [Hq _]; [|done].
  unfold markDirty in H. inv_m.
  etransitivity; [done|]. apply (quiet_edges kb1 a b). by right.
Qed.

Lemma consume_useGroup_quiet i useType pls kb u kb' :
  consume_useGroup i hops useType pls kb = Some (u, kb') → quiet kb kb'.
Proof.
  unfold consume_useGroup. intros H. repeat case_bool_decide.
  - apply bind_inv in H as (s & ? & [Hs ->]%get_sym_inv & H).
    destruct pls as [|pl [|]]; [by inv_prim H| |by inv_prim H].
    destruct (sourceFileInfo s) eqn:Hsrc; [by inv_prim H|].
    apply bind_inv in H as (fi & kb1 & Hf & H).
    apply ensureFileAnalysis_quiet in Hf as [Hq _]. inv_m.
    etransitivity; [done|]. exact (quiet_alter kb1 i (upd_sourceFile (Some fi))
                                     (λ _, eq_refl) (λ _, eq_refl)).
  - apply bind_inv in H as (s & ? & [Hs ->]%get_sym_inv & H).
    destruct pls as [|pl [|]]; [by inv_prim H| |by inv_prim H].
    destruct (declFileInfo s) eqn:Hsrc; [by inv_prim H|].
    apply bind_inv in H as (fi & kb1 & Hf & H).
    apply ensureFileAnalysis_quiet in Hf as [Hq _]. inv_m.
    etransitivity; [done|]. exact (quiet_alter kb1 i (upd_declFile (Some fi))
                                     (λ _, eq_refl) (λ _, eq_refl)).
  - revert kb u kb' H. apply forM_inv; [apply _|]. intros pl kb u kb' _.
    apply forM_inv; [apply _|]. intros lr kb1 u1 kb2 _. apply consume_use_quiet.
  - by inv_prim H.
Qed.

Lemma consume_result_quiet i rs kb u kb' :
  consume_result i hops rs kb = Some (u, kb') → quiet kb kb'.
Proof.
  unfold consume_result. intros H.
  apply bind_inv in H as (s & ? & [Hs ->]%get_sym_inv & H).
  destruct (negb _); [by inv_prim H|].
  apply bind_inv in H as ([] & kb1 & H1 & H).
  apply bind_inv in H as ([] & kb2 & H2 & H).
  transitivity kb1; [|transitivity kb2].
  - destruct (rs_meta rs); [|by inv_prim H1].
    unfold updateSyntaxKindFrom in H1. inv_prim H1. by apply quiet_alter.
  - destruct (rs_consumes rs); [|by inv_prim H2].
    revert H2. apply forM_inv; [apply _|]. intros ci k1 u1 k2 _. apply consume_consumes_quiet.
  - destruct (rs_hits rs); [|by inv_prim H].
    revert H. apply forM_inv; [apply _|]. intros [pathKind useGroups] k1 u1 k2 _.
    apply forM_inv; [apply _|]. intros [useType pls] k3 u3 k4 _.
    apply consume_useGroup_quiet.
Qed.

Lemma analyzeSymbol_resume_quiet i semantic kb u kb' :
  analyzeSymbol_resume i hops semantic kb = Some (u, kb') → quiet kb kb'.
Proof.
  unfold analyzeSymbol_resume. apply forM_inv; [apply _|].
  intros [rawSym rs] k1 u1 k2 _. apply consume_result_quiet.
Qed.

End SpentBudget.

(** ** [boundsIntersect] *)

(** [X1] Two non-empty ranges (inclusive start, exclusive end) are reported
    as intersecting exactly when some offset lies in both. *)
Theorem boundsIntersect_shared_offset (a b : Z * Z) (Ha : a.1 < a.2) (Hb : b.1 < b.2) :
  boundsIntersect a b = true ↔ ∃ x, (a.1 ≤ x < a.2) ∧ (b.1 ≤ x < b.2).
Proof.
  unfold boundsIntersect. destruct (_ || _) eqn:Hc.
  - split; [done|]. intros (x & Hxa & Hxb).
    apply orb_true_iff in Hc as [Hc%Z.leb_le|Hc%Z.geb_le]; lia.
  - split; [intros _|done]. apply orb_false_iff in Hc as [Hc1%Z.leb_gt Hc2].
    rewrite Z.geb_leb in Hc2. apply Z.leb_gt in Hc2.
    exists (Z.max a.1 b.1). lia.
Qed.

Lemma boundsIntersect_shared_offset_witness :
  0 < 5 ∧ 3 < 8 ∧ (boundsIntersect (0, 5) (3, 8) = true ↔ ∃ x, (0 ≤ x < 5) ∧ (3 ≤ x < 8)).
Proof.
  split_and!; [lia|lia|].
  apply (boundsIntersect_shared_offset (0, 5) (3, 8)); simpl; lia.
Defined.


(** ** [normalizeSymbol] *)

Lemma first_component_no_comma s : has_comma (first_component s) = false.
Proof.
  induction s as [|c s IH]; simpl; [done|].
  destruct (Ascii.eqb c ","%char) eqn:Hc; simpl; [done|]. by rewrite Hc.
Qed.

(** [X2] A normalized name holds no comma.  Normalizing twice, as
    [_analyzeSymbol] does before it calls [lookupRawSymbol], gives the same
    key as normalizing once, except when the first result is the empty
    string, which the second pass turns into [null]; that is the case of
    every name that starts with a comma. *)
Theorem normalizeSymbol_twice :
  (∀ symStr, from_option has_comma false (normalizeSymbol symStr) = false) ∧
  (∀ symStr, normalizeSymbol (normalizeSymbol symStr)
             = if decide (normalizeSymbol symStr = Some EmptyString) then None
               else normalizeSymbol symStr) ∧
  (∀ rest, normalizeSymbol (Some (String ","%char rest)) = Some EmptyString).
Proof.
  assert (H1 : ∀ symStr, from_option has_comma false (normalizeSymbol symStr) = false).
  { intros [[|c s]|]; simpl; try done. unfold normalizeSymbol. simpl.
    destruct (Ascii.eqb c ","%char) eqn:Hc; simpl; [done|].
    destruct (has_comma s) eqn:Hs; simpl; rewrite Hc; [apply first_component_no_comma|done]. }
  split_and!; [done| |done].
  intros symStr. specialize (H1 symStr).
  destruct (normalizeSymbol symStr) as [[|c s]|] eqn:Hn.
  - by rewrite decide_True.
  - rewrite decide_False by done.
    assert (Hc : has_comma (String c s) = false) by exact H1.
    unfold normalizeSymbol, JS.truthy_str, negb. by rewrite Hc.
  - by rewrite decide_False.
Qed.

(** ** Lookups *)

(** [X3] A lookup without [doAnalyze] (falsy) returns in every reachable
    state, issues no search, suspends nothing and calls
    [ensureSymbolAnalysis] not at all; every symbol keeps its analysis
    state, and the file cache is untouched. *)
Theorem lookup_without_analysis (kb : KB) (Hreach : reachable kb)
    (raw : option string) (doAnalyze : JS.value) (pretty : option string) (opts : option Opts)
    (Hfalsy : JS.truthy doAnalyze = false) :
  ∃ i kb', lookupRawSymbol raw doAnalyze pretty opts kb = Some (i, kb') ∧
    searches kb' = searches kb ∧ tasks kb' = tasks kb ∧
    analyzingSymbols kb' = analyzingSymbols kb ∧ ensureCalls kb' = ensureCalls kb ∧
    files kb' = files kb ∧ filesByPath kb' = filesByPath kb ∧
    ∀ j s, syms kb !! j = Some s →
      ∃ s', syms kb' !! j = Some s' ∧ analyzed s' = analyzed s ∧ analyzing s' = analyzing s.
Proof.
  destruct (lookupRawSymbol_total raw doAnalyze pretty opts kb (reachable_WF kb Hreach))
    as (i & kb' & Hrun & _).
  destruct (lookupRawSymbol_quiet _ _ _ _ _ _ _ Hfalsy Hrun)
    as ((? & ? & ? & ? & ? & ? & ?) & ? & ?).
  exists i, kb'. by split_and!.
Qed.

Lemma lookup_without_analysis_witness :
  reachable searching_kb ∧
  ∃ i kb', lookupRawSymbol (Some "g"%string) JS.VUndefined None None searching_kb
             = Some (i, kb') ∧
           searches kb' = searches searching_kb ∧ tasks kb' = tasks searching_kb.
Proof.
  assert (Hr : reachable searching_kb).
  { exists [CallLookupRawSymbol (Some "f"%string) (JS.VBool true) None None].
    vm_compute. reflexivity. }
  split; [done|].
  destruct (lookup_without_analysis searching_kb Hr (Some "g"%string) JS.VUndefined None None
              eq_refl) as (i & kb' & ? & ? & ? & _).
  by exists i, kb'.
Defined.

Lemma static_lookup (l l' : list SymbolInfo) (i : nat) s :
  static <$> l' = static <$> l → l !! i = Some s →
  ∃ s', l' !! i = Some s' ∧ static s' = static s.
Proof.
  intros Heq Hs. assert (H : (static <$> l') !! i = (static <$> l) !! i) by (by rewrite Heq).
  rewrite !list_lookup_fmap, Hs in H. simpl in H.
  destruct (l' !! i) as [s'|]; [|done]. exists s'. split; [done|]. by apply (inj Some).
Qed.

(** [X4] A lookup under a name that is already cached returns the cached
    symbol, creates nothing and ignores [opts]: the symbol keeps its raw
    name, syntax kind and path hints, and a pretty name it already has is
    never overwritten. *)
Theorem lookup_cached_keeps (kb : KB) (Hreach : reachable kb)
    (raw : option string) (doAnalyze : JS.value) (pretty : option string) (opts : option Opts)
    (i : nat) (Hkey : symbolsByRawName kb !! normalizeSymbol raw = Some i) :
  ∃ kb' s s', lookupRawSymbol raw doAnalyze pretty opts kb = Some (i, kb') ∧
    length (syms kb') = length (syms kb) ∧ symbolsByRawName kb' = symbolsByRawName kb ∧
    syms kb !! i = Some s ∧ syms kb' !! i = Some s' ∧
    rawName s' = rawName s ∧ syntaxKind s' = syntaxKind s ∧ pathHints s' = pathHints s ∧
    (JS.truthy_str (prettyName s) = true → prettyName s' = prettyName s).
Proof.
  destruct (lookupRawSymbol_total raw doAnalyze pretty opts kb (reachable_WF kb Hreach))
    as (i' & kb' & Hrun & _).
  pose proof Hrun as H. unfold lookupRawSymbol in H.
  apply bind_inv in H as (cached & ? & Hc & H). inv_prim Hc. rewrite Hkey in H.
  apply bind_inv in H as (s & ? & [Hs ->]%get_sym_inv & H).
  apply bind_inv in H as ([] & kb1 & H1 & H).
  apply bind_inv in H as ([] & kb2 & H2 & H). inv_prim H.
  exists kb2, s.
  assert (∃ s1, syms kb1 !! i = Some s1 ∧ length (syms kb1) = length (syms kb) ∧
                symbolsByRawName kb1 = symbolsByRawName kb ∧
                rawName s1 = rawName s ∧ syntaxKind s1 = syntaxKind s ∧
                pathHints s1 = pathHints s ∧
                (JS.truthy_str (prettyName s) = true → prettyName s1 = prettyName s))
    as (s1 & Hs1 & Hlen1 & Hmap1 & Hr1 & Hk1 & Hp1 & Hn1).
  { destruct (JS.truthy_str pretty && negb (JS.truthy_str (prettyName s))) eqn:Hb;
      simpl in H1.
    - unfold updatePrettyNameFrom in H1. inv_prim H1.
      apply andb_prop in Hb as [_ Hb%negb_true_iff].
      exists (upd_pretty pretty s). simpl. rewrite list_lookup_alter_eq, Hs, length_alter.
      split_and!; try done. congruence.
    - inv_prim H1. exists s. by split_and!. }
  assert (Hst : same_static kb1 kb2).
  { destruct (JS.truthy doAnalyze); simpl in H2; [|inv_prim H2; reflexivity].
    apply bind_inv in H2 as (? & ? & H2 & Hr). inv_prim Hr. by eapply ensure_rec_static. }
  destruct Hst as (Hsy & Hmap & _ & _).
  destruct (static_lookup _ _ i s1 Hsy Hs1) as (s2 & Hs2 & Heq).
  unfold static in Heq. injection Heq as E1 E2 E3 E4 E5 E6 E7 E8.
  exists s2. split_and!; try congruence.
  - apply (f_equal length) in Hsy. rewrite !length_fmap in Hsy. congruence.
  - intros Ht. rewrite E2. by apply Hn1.
Qed.

Lemma lookup_cached_keeps_witness :
  reachable searching_kb ∧
  symbolsByRawName searching_kb !! normalizeSymbol (Some "f,g"%string) = Some 0%nat ∧
  ∃ kb' s s',
    lookupRawSymbol (Some "f,g"%string) (JS.VNum 2) (Some "F"%string)
      (Some (mkOpts None None None (Some "class"%string))) searching_kb = Some (0%nat, kb') ∧
    length (syms kb') = length (syms searching_kb) ∧
    syms searching_kb !! 0%nat = Some s ∧ syms kb' !! 0%nat = Some s' ∧
    syntaxKind s' = syntaxKind s.
Proof.
  assert (Hr : reachable searching_kb).
  { exists [CallLookupRawSymbol (Some "f"%string) (JS.VBool true) None None].
    vm_compute. reflexivity. }
  assert (Hk : symbolsByRawName searching_kb !! normalizeSymbol (Some "f,g"%string)
               = Some 0%nat) by (vm_compute; reflexivity).
  split_and!; [done|done|].
  destruct (lookup_cached_keeps searching_kb Hr (Some "f,g"%string) (JS.VNum 2)
              (Some "F"%string) (Some (mkOpts None None None (Some "class"%string))) 0%nat Hk)
    as (kb' & s & s' & ? & ? & _ & ? & ? & _ & ? & _).
  by exists kb', s, s'.
Defined.

(** [X5] [ensureSymbolAnalysis] only touches analysis state.  Whatever the
    budget and however far the cascade goes, the call returns and leaves
    the same symbols with the same names, syntax kinds, path hints, edges
    and file bindings, and the same symbol and file caches. *)
Theorem ensureSymbolAnalysis_only_analysis (kb : KB) (Hreach : reachable kb)
    (symInfo : nat) (analyzeHops : JS.value) (Hlive : (symInfo < length (syms kb))%nat) :
  ∃ r kb', ensureSymbolAnalysis symInfo analyzeHops kb = Some (r, kb') ∧ same_static kb kb'.
Proof.
  destruct (ensureSymbolAnalysis_total symInfo analyzeHops kb (reachable_WF kb Hreach) Hlive)
    as (r & kb' & Hrun & _).
  exists r, kb'. split; [done|]. by eapply ensure_rec_static.
Qed.

Lemma ensureSymbolAnalysis_only_analysis_witness :
  reachable demo_kb ∧ (0 < length (syms demo_kb))%nat ∧
  ∃ r kb', ensureSymbolAnalysis 0 (JS.VNum 3) demo_kb = Some (r, kb') ∧
           same_static demo_kb kb'.
Proof.
  assert (Hr : reachable demo_kb) by (exists demo_events; vm_compute; reflexivity).
  assert (Hl : (0 < length (syms demo_kb))%nat) by (vm_compute; lia).
  split_and!; [done|done|].
  exact (ensureSymbolAnalysis_only_analysis demo_kb Hr 0%nat (JS.VNum 3) Hl).
Defined.

(** ** The file cache *)

(** [X6] The file cache is consistent and [ensureFileAnalysis] is
    idempotent by path.  In every reachable state each cached path leads to
    an analyzed [FileInfo] of that path and there is one [FileInfo] per
    path; a call returns, a second call for the same path returns the same
    [FileInfo] and changes nothing, and a call for a path that is already
    cached changes nothing at all. *)
Theorem file_cache_consistent (kb : KB) (Hreach : reachable kb) :
  files_ok kb ∧
  (∀ f1 f2 x1 x2, files kb !! f1 = Some x1 → files kb !! f2 = Some x2 →
     path x1 = path x2 → f1 = f2) ∧
  ∀ p, ∃ fi kb1,
    ensureFileAnalysis p kb = Some (fi, kb1) ∧
    ensureFileAnalysis p kb1 = Some (fi, kb1) ∧
    (∀ f, filesByPath kb !! p = Some f → fi = f ∧ kb1 = kb).
Proof.
  pose proof (reachable_files_ok kb Hreach) as Hok. split_and!; [done| |].
  - intros f1 f2 x1 x2 H1 H2 Hp. destruct Hok as [_ Hr].
    apply Hr in H1. apply Hr in H2. congruence.
  - intros p.
    destruct (ensureFileAnalysis_spec p kb (reachable_WF kb Hreach)) as (fi & kb1 & Hrun & _).
    exists fi, kb1. split; [done|].
    assert (Hok1 : files_ok kb1).
    { destruct (ensureFileAnalysis_updates _ _ _ _ Hrun) as [Hu _].
      by apply (updates_inv files_ok files_ok_update kb kb1). }
    destruct (ensureFileAnalysis_updates _ _ _ _ Hrun) as (_ & Hp1 & _ & _).
    destruct (proj1 Hok1 p fi Hp1) as (x & Hx & _ & Ha).
    split.
    + unfold ensureFileAnalysis, bind, gets, get_file, lift_opt, ret.
      by rewrite Hp1, Hx, Ha.
    + intros f Hf. destruct (proj1 Hok p f Hf) as (y & Hy & _ & Hya).
      unfold ensureFileAnalysis, bind, gets, get_file, lift_opt, ret in Hrun.
      rewrite Hf, Hy, Hya in Hrun. by injection Hrun as <- <-.
Qed.

Lemma file_cache_consistent_witness :
  reachable (after sited_events) ∧
  ∃ fi kb1, ensureFileAnalysis "dom/a.cpp" (after sited_events) = Some (fi, kb1) ∧
            ensureFileAnalysis "dom/a.cpp" kb1 = Some (fi, kb1).
Proof.
  assert (Hr : reachable (after sited_events)) by (exists sited_events; vm_compute; reflexivity).
  split; [done|].
  destruct (file_cache_consistent (after sited_events) Hr) as (_ & _ & H).
  destruct (H "dom/a.cpp"%string) as (fi & kb1 & ? & ? & _). by exists fi, kb1.
Defined.

(** [X7] File back-references mirror the bindings.  In every reachable
    state a symbol's [sourceFileInfo] is file [f] exactly when the symbol is
    in [f.fileSymbolDefs], and its [declFileInfo] is [f] exactly when it is
    in [f.fileSymbolDecls]; so no symbol is listed as defined (or declared)
    in two files. *)
Theorem file_backrefs_mirror (kb : KB) (Hreach : reachable kb) :
  (∀ i f, src kb i = Some f ↔ i ∈ defs_of kb f) ∧
  (∀ i f, dcl kb i = Some f ↔ i ∈ decls_of kb f) ∧
  (∀ i f g, i ∈ defs_of kb f → i ∈ defs_of kb g → f = g) ∧
  (∀ i f g, i ∈ decls_of kb f → i ∈ decls_of kb g → f = g).
Proof.
  destruct (reachable_backrefs kb Hreach) as [H1 H2]. split_and!; [done|done| |].
  - intros i f g Hf%H1 Hg%H1. congruence.
  - intros i f g Hf%H2 Hg%H2. congruence.
Qed.

Lemma file_backrefs_mirror_witness :
  reachable (after sited_events) ∧
  src (after sited_events) 0 = Some 0%nat ∧ (0%nat ∈ defs_of (after sited_events) 0) ∧
  dcl (after sited_events) 0 = Some 1%nat ∧ (0%nat ∈ decls_of (after sited_events) 1).
Proof.
  assert (Hr : reachable (after sited_events)) by (exists sited_events; vm_compute; reflexivity).
  destruct (file_backrefs_mirror (after sited_events) Hr) as (H1 & H2 & _).
  assert (Hs : src (after sited_events) 0 = Some 0%nat) by (vm_compute; reflexivity).
  assert (Hd : dcl (after sited_events) 0 = Some 1%nat) by (vm_compute; reflexivity).
  split_and!; [done|done|by apply H1|done|by apply H2].
Defined.

(** ** Analyses in flight *)

Lemma filter_none {A} (P : A → Prop) `{!∀ x, Decision (P x)} (l : list A) :
  (∀ x, x ∈ l → ¬ P x) → filter P l = [].
Proof.
  induction l as [|x l IH]; intros Hno; [done|].
  rewrite filter_cons, decide_False by (apply Hno; left).
  apply IH. intros y Hy. apply Hno. by right.
Qed.

Lemma NoDup_fmap_filter_length {A B} `{EqDecision B} (f : A → B) (k : B) (l : list A) :
  NoDup (f <$> l) → (length (filter (λ t, f t = k) l) ≤ 1)%nat.
Proof.
  induction l as [|t l IH]; simpl; [lia|].
  intros [Hnt Hnd]%NoDup_cons. specialize (IH Hnd).
  rewrite filter_cons. case_decide as Hk; simpl; [|done].
  assert (filter (λ t0, f t0 = k) l = []) as ->; [|simpl; lia].
  apply filter_none. intros x Hx Hfx. apply Hnt.
  rewrite Hk, <- Hfx. by apply list_elem_of_fmap_2.
Qed.

(** [X8] Single flight.  In every reachable state at most one search is
    out for a symbol and at most one activation of [ensureSymbolAnalysis]
    is suspended on it; while a search is out, the symbol is marked as
    [analyzing] with that search's promise, it is not analyzed, and the
    search has not been answered. *)
Theorem single_flight (kb : KB) (Hreach : reachable kb) (i : nat) :
  (length (filter (λ t, task_key t = (true, i)) (tasks kb)) ≤ 1)%nat ∧
  (length (filter (λ t, task_key t = (false, i)) (tasks kb)) ≤ 1)%nat ∧
  ∀ p hops, AnalyzeAwaitingSearch p i hops ∈ tasks kb →
    flight kb i = Some p ∧ is_analyzed kb i = false ∧ p ∉ settled kb.
Proof.
  pose proof (reachable_flights kb Hreach) as Hfl. split_and!.
  - apply NoDup_fmap_filter_length, (fl_nodup kb Hfl).
  - apply NoDup_fmap_filter_length, (fl_nodup kb Hfl).
  - intros p hops Hin. pose proof (fl_task kb Hfl _ Hin) as Hp. simpl in Hp.
    split_and!; [done|by apply (fl_falsy kb Hfl i p)|by apply (fl_unsettled kb Hfl p i hops)].
Qed.

Lemma single_flight_witness :
  reachable searching_kb ∧
  AnalyzeAwaitingSearch 0 0 (JS.VNum 1) ∈ tasks searching_kb ∧
  flight searching_kb 0 = Some 0%nat ∧ is_analyzed searching_kb 0 = false.
Proof.
  assert (Hr : reachable searching_kb).
  { exists [CallLookupRawSymbol (Some "f"%string) (JS.VBool true) None None].
    vm_compute. reflexivity. }
  assert (Hin : AnalyzeAwaitingSearch 0 0 (JS.VNum 1) ∈ tasks searching_kb)
    by (vm_compute; left).
  destruct (single_flight searching_kb Hr 0) as (_ & _ & H).
  destruct (H 0%nat (JS.VNum 1) Hin) as (? & ? & _). by split_and!.
Defined.










(** ** What the knowledge base never forgets *)

(** [X10] Nothing is forgotten.  Across any run of events, from any state,
    every symbol keeps its place and raw name, every edge recorded in
    [outEdges] or [inEdges] stays, a file binding or a pretty name once set
    does not change, every cached raw name keeps its symbol, and every
    [FileInfo] keeps its path and the symbols it lists. *)
Theorem nothing_forgotten (evs : list event) (kb kb' : KB)
    (Hrun : run evs kb = Some (tt, kb')) :
  remembers kb kb'.
Proof. by eapply run_remembers. Qed.

Lemma nothing_forgotten_witness :
  run [CallEnsureSymbolAnalysis 1 (JS.VNum 2); SearchReply 1 []; Resume 1] demo_kb
    = Some (tt, after (demo_events ++ [CallEnsureSymbolAnalysis 1 (JS.VNum 2);
                                        SearchReply 1 []; Resume 1])) ∧
  remembers demo_kb (after (demo_events ++ [CallEnsureSymbolAnalysis 1 (JS.VNum 2);
                                             SearchReply 1 []; Resume 1])).
Proof.
  assert (H : run [CallEnsureSymbolAnalysis 1 (JS.VNum 2); SearchReply 1 []; Resume 1] demo_kb
              = Some (tt, after (demo_events ++ [CallEnsureSymbolAnalysis 1 (JS.VNum 2);
                                                  SearchReply 1 []; Resume 1])))
    by (vm_compute; reflexivity).
  split; [exact H|]. exact (nothing_forgotten _ _ _ H).
Defined.

(** [X11] Levels never drop.  Once a symbol is analyzed at a level of at
    least 1 in a reachable state, no run of events brings it below that
    level: the only assignments to [analyzed] are the bump, which raises
    it, and the one at the end of an analysis, which happens only to a
    symbol that was not analyzed. *)
Theorem levels_never_drop (kb : KB) (Hreach : reachable kb) (i : nat) (z : Z)
    (Hz : 1 ≤ z) (Hlevel : level_at_least i z kb)
    (evs : list event) (kb' : KB) (Hrun : run evs kb = Some (tt, kb')) :
  level_at_least i z kb'.
Proof. eapply reachable_levels_kept; eauto using reachable_flights. Qed.

Lemma levels_never_drop_witness :
  reachable demo_kb ∧ level_at_least 0 1 demo_kb ∧
  level_at_least 0 1
    (after (demo_events ++ [CallEnsureSymbolAnalysis 0 (JS.VNum 0);
                            CallLookupRawSymbol (Some "f"%string) JS.VObj None None])).
Proof.
  assert (Hr : reachable demo_kb) by (exists demo_events; vm_compute; reflexivity).
  assert (Hl : level_at_least 0 1 demo_kb).
  { eexists _, 1. split_and!; [vm_compute; reflexivity|reflexivity|lia]. }
  split_and!; [done|done|].
  apply (levels_never_drop demo_kb Hr 0%nat 1 ltac:(lia) Hl
           [CallEnsureSymbolAnalysis 0 (JS.VNum 0);
            CallLookupRawSymbol (Some "f"%string) JS.VObj None None]).
  vm_compute. reflexivity.
Defined.

(** ** Search answers *)

(** [X12] A spent budget stays local.  When the answer to a search arrives
    whose budget minus one is falsy (budget 1, as [lookupRawSymbol(x, true)]
    gives, or no budget at all), processing it issues no further search,
    suspends nothing and calls [ensureSymbolAnalysis] not at all: the
    symbols it meets are created and linked but not analyzed. *)
Theorem spent_budget_stays_local (kb : KB) (Hreach : reachable kb)
    (p i : nat) (hops : JS.value) (rest : list task) (semantic : SearchResults)
    (Htake : take_analyze p (tasks kb) = Some (i, hops, rest))
    (Hspent : JS.truthy (JS.minus1 hops) = false) :
  ∃ kb', step (SearchReply p semantic) kb = Some (tt, kb') ∧
    searches kb' = searches kb ∧ tasks kb' = rest ∧
    ensureCalls kb' = ensureCalls kb ∧ analyzingSymbols kb' = analyzingSymbols kb ∧
    settled kb' = p :: settled kb.
Proof.
  destruct (step_total (SearchReply p semantic) kb (reachable_WF kb Hreach))
    as ([] & kb' & Hstep & _); [simpl; by rewrite Htake|].
  exists kb'. split; [done|]. simpl in Hstep.
  apply bind_inv in Hstep as ([[j h] r] & ? & Ht & H).
  apply (lift_opt_inv (λ kb, take_analyze p (tasks kb))) in Ht as [Ht ->].
  rewrite Htake in Ht. injection Ht as <- <- <-.
  apply bind_inv in H as ([] & ? & Hm & H). inv_prim Hm.
  apply bind_inv in H as ([] & kb1 & Hres & H). inv_prim H.
  apply (analyzeSymbol_resume_quiet hops Hspent) in Hres as (? & ? & ? & ? & _ & ? & _).
  simpl in *. split_and!; congruence.
Qed.

Lemma spent_budget_stays_local_witness :
  reachable searching_kb ∧
  ∃ kb', step (SearchReply 0
                 [("f"%string,
                   mkRawSymInfo "f" None
                     (Some [mkConsumed (Some "g"%string) None None]) None)]) searching_kb
           = Some (tt, kb') ∧
         searches kb' = searches searching_kb.
Proof.
  assert (Hr : reachable searching_kb).
  { exists [CallLookupRawSymbol (Some "f"%string) (JS.VBool true) None None].
    vm_compute. reflexivity. }
  split; [done|].
  destruct (spent_budget_stays_local searching_kb Hr 0 0 (JS.VNum 1)
              [EnsureAwaitingAnalysis 0 0 (JS.VNum 1)]
              [("f"%string,
                mkRawSymInfo "f" None (Some [mkConsumed (Some "g"%string) None None]) None)])
    as (kb' & ? & ? & _); [vm_compute; reflexivity|reflexivity|].
  by exists kb'.
Defined.

(** [X13] Results for other symbols are ignored.  A search answer in which
    no entry's [symbol] is the raw name of the analyzed symbol leaves the
    knowledge base exactly as it was. *)
Theorem foreign_results_ignored (kb : KB) (symInfo : nat) (s : SymbolInfo)
    (analyzeHops : JS.value) (semantic : SearchResults)
    (Hs : syms kb !! symInfo = Some s)
    (Hforeign : ∀ e, e ∈ semantic → Some (rs_symbol e.2) ≠ rawName s) :
  analyzeSymbol_resume symInfo analyzeHops semantic kb = Some (tt, kb).
Proof.
  unfold analyzeSymbol_resume. induction semantic as [|[rawSym rs] l IH]; [done|].
  simpl. unfold bind at 1.
  assert (consume_result symInfo analyzeHops rs kb = Some (tt, kb)) as ->.
  { unfold consume_result, bind, get_sym, lift_opt. rewrite Hs.
    rewrite bool_decide_eq_false_2; [done|]. apply (Hforeign (rawSym, rs)). by left. }
  apply IH. intros e He. apply Hforeign. by right.
Qed.

Lemma foreign_results_ignored_witness :
  syms searching_kb !! 0%nat = Some (upd_analyzing (Some 0%nat)
                                       (new_SymbolInfo (Some "f"%string) None None)) ∧
  analyzeSymbol_resume 0 (JS.VNum 2)
    [("g"%string, mkRawSymInfo "g" (Some (Some "class"%string))
                    (Some [mkConsumed (Some "h"%string) None None]) None)] searching_kb
  = Some (tt, searching_kb).
Proof.
  assert (Hs : syms searching_kb !! 0%nat
               = Some (upd_analyzing (Some 0%nat) (new_SymbolInfo (Some "f"%string) None None)))
    by (vm_compute; reflexivity).
  split; [done|].
  apply (foreign_results_ignored searching_kb 0 _ (JS.VNum 2) _ Hs).
  intros e [->|[]%elem_of_nil]%elem_of_cons. simpl. discriminate.
Defined.

(** ** The traversal of the doodler *)

Section DoodleMore.

Variable isSameDirectoryAs : nat → nat → bool.

Variable isHackGeneratedIPC : nat → bool.

Variable callsOutTo : nat → nat → list nat.

Variable receivesCallsFrom : nat → nat → list nat.

Variables (rootSym : nat) (callsOut limitToModule : bool).

(** What one visit does to the state. *)
Lemma visit_effect visitNo curSym st :
  let st' := visit isSameDirectoryAs isHackGeneratedIPC callsOutTo receivesCallsFrom
               rootSym callsOut limitToModule visitNo curSym st in
  ∃ new extra,
    toTraverse st' = toTraverse st ++ new ∧ enqueued st' = enqueued st ++ new ∧
    considered st' = considered st ++ new ∧
    (∀ x, x ∈ new → x ∈ in_module_calls isSameDirectoryAs rootSym limitToModule
                         (calls_of callsOutTo receivesCallsFrom callsOut visitNo curSym)) ∧
    requests st' = requests st ++ EnsureSymbolAnalysis curSym (analysisMode callsOut) :: extra ∧
    ((overloadBailed st' = overloadBailed st ∧ Forall is_edge extra) ∨
     (overloadBailed st' = set_add curSym (overloadBailed st) ∧
      extra = [StyleNode curSym color_red] ∧ new = [])).
Proof.
  intros st'. subst st'. unfold visit.
  set (calls := in_module_calls isSameDirectoryAs rootSym limitToModule
                  (calls_of callsOutTo receivesCallsFrom callsOut visitNo curSym)).
  set (leafCalls := leaf_calls isSameDirectoryAs isHackGeneratedIPC rootSym limitToModule
                      (calls_of callsOutTo receivesCallsFrom callsOut visitNo curSym)).
  destruct (MAX_CALL_BRANCHING <? length calls)%nat.
  - exists [], [StyleNode curSym color_red]. simpl. rewrite !app_nil_r, <- app_assoc.
    split_and!; try done; [by intros ? ?%elem_of_nil|by right].
  - match goal with |- context [foldl (draw_leaf _ _) (foldl _ ?s _) _] => set (st0 := s) end.
    destruct (follow_calls_effect callsOut curSym calls st0)
      as (Hb & new & Ht & He & Hc & Hnew).
    destruct (draw_leaves_same callsOut curSym leafCalls
                (foldl (follow_call callsOut curSym) st0 calls)) as (Hc' & Ht' & He').
    exists new, (map (edge_request callsOut curSym) calls
                 ++ map (edge_request callsOut curSym) leafCalls).
    rewrite Hc', Ht', He', Ht, He, Hc, draw_leaves_bailed, Hb,
      draw_leaves_requests, follow_calls_requests.
    subst st0. simpl. rewrite <- !app_assoc. split_and!; try done. left. split; [done|].
    apply Forall_app. split; apply Forall_forall; intros r (y & -> & _)%list_elem_of_fmap;
      unfold edge_request; by destruct callsOut.
Qed.

(** An invariant that every round keeps holds when the loop ends, and the
    loop ends with an empty worklist. *)
Lemma traverse_keeps (P : state → Prop) :
  (∀ visitNo curSym rest st, toTraverse st = curSym :: rest → P st →
     P (visit isSameDirectoryAs isHackGeneratedIPC callsOutTo receivesCallsFrom
          rootSym callsOut limitToModule visitNo curSym
          (mkState (considered st) rest (overloadBailed st) (requests st) (enqueued st)))) →
  ∀ fuel visitNo st st',
    traverse isSameDirectoryAs isHackGeneratedIPC callsOutTo receivesCallsFrom
      rootSym callsOut limitToModule fuel visitNo st = Some st' →
    P st → P st' ∧ toTraverse st' = [].
Proof.
  intros Hstep. induction fuel as [|fuel IH]; intros visitNo st st'; simpl;
    destruct (toTraverse st) as [|curSym rest] eqn:Ht; try done.
  - by intros [= <-].
  - by intros [= <-].
  - intros Hrun HP. eapply IH; [done|]. by eapply Hstep.
Qed.

End DoodleMore.

(** [X14] The traversal ends.  When every call set stays among the symbols
    below [N], the loop of [doodleCalls] ends within [N + 1] rounds, call
    cycles or not, with an empty worklist; after the initial root no symbol
    has been put on the worklist twice. *)
Theorem doodleCalls_terminates
    (isSameDirectoryAs : nat → nat → bool) (isHackGeneratedIPC : nat → bool)
    (callsOutTo receivesCallsFrom : nat → nat → list nat)
    (rootSym : nat) (callsOut limitToModule : bool) (N : nat)
    (Hcalls : ∀ visitNo curSym x,
       x ∈ calls_of callsOutTo receivesCallsFrom callsOut visitNo curSym → (x < N)%nat) :
  ∃ st, doodleCalls isSameDirectoryAs isHackGeneratedIPC callsOutTo receivesCallsFrom
          rootSym callsOut limitToModule (S N) = Some st ∧
        toTraverse st = [] ∧
        enqueued st = rootSym :: considered st ∧ NoDup (considered st).
Proof.
  assert (Hinv : enqueue_inv rootSym (initial rootSym)) by (split; [done|apply NoDup_nil_2]).
  assert (Hb : bounded_by N (S N) (initial rootSym)).
  { split; [by intros x ?%elem_of_nil|simpl; lia]. }
  destruct (traverse_terminates isSameDirectoryAs isHackGeneratedIPC callsOutTo
              receivesCallsFrom rootSym callsOut limitToModule N Hcalls (S N) 0
              (initial rootSym) Hinv Hb) as [st Hst].
  exists st. split; [done|].
  destruct (traverse_keeps isSameDirectoryAs isHackGeneratedIPC callsOutTo receivesCallsFrom
              rootSym callsOut limitToModule (enqueue_inv rootSym)) with
    (fuel := S N) (visitNo := 0%nat) (st := initial rootSym) (st' := st) as [[? ?] ?];
    [|done|done|done].
  intros v c r s _ Hs. by apply visit_inv.
Qed.

Lemma doodleCalls_terminates_witness :
  (∀ visitNo curSym x,
     x ∈ calls_of ring_callsOutTo hub_callsIn true visitNo curSym → (x < 15)%nat) ∧
  ∃ st, doodleCalls hub_sameDir hub_isIPC ring_callsOutTo hub_callsIn 0 true true 16 = Some st ∧
        toTraverse st = [] ∧ enqueued st = 0%nat :: considered st.
Proof.
  assert (H : ∀ visitNo curSym x,
            x ∈ calls_of ring_callsOutTo hub_callsIn true visitNo curSym → (x < 15)%nat).
  { intros visitNo curSym x. unfold calls_of, ring_callsOutTo.
    repeat (destruct (_ =? _)%nat); intros Hx;
      repeat (apply elem_of_cons in Hx as [->|Hx]; [lia|]); by apply elem_of_nil in Hx. }
  split; [exact H|].
  destruct (doodleCalls_terminates hub_sameDir hub_isIPC ring_callsOutTo hub_callsIn
              0 true true 15 H) as (st & ? & ? & ? & _).
  by exists st.
Defined.

Lemma analysis_requests_app rs1 rs2 :
  analysis_requests (rs1 ++ rs2) = analysis_requests rs1 ++ analysis_requests rs2.
Proof. apply omap_app. Qed.

Lemma analysis_requests_edges extra :
  Forall is_edge extra → analysis_requests extra = [].
Proof.
  induction 1 as [|r l Hr _ IH]; [done|]. destruct r; simpl in *; try done.
Qed.

(** [X15] First in, first out.  When [doodleCalls] ends, the analysis
    requests it has made are the request for the root in mode ['context']
    followed by one request, in the mode of the direction, for every symbol
    put on the worklist, in the order in which they were put there; symbols
    over the branching cutoff included. *)
Theorem doodleCalls_visits_in_order
    (isSameDirectoryAs : nat → nat → bool) (isHackGeneratedIPC : nat → bool)
    (callsOutTo receivesCallsFrom : nat → nat → list nat)
    (rootSym : nat) (callsOut limitToModule : bool) (fuel : nat) (st : state)
    (Hrun : doodleCalls isSameDirectoryAs isHackGeneratedIPC callsOutTo receivesCallsFrom
              rootSym callsOut limitToModule fuel = Some st) :
  analysis_requests (requests st)
  = (rootSym, "context"%string) :: visits_of callsOut (enqueued st).
Proof.
  set (P := λ s : state,
    analysis_requests (requests s) ++ visits_of callsOut (toTraverse s)
    = (rootSym, "context"%string) :: visits_of callsOut (enqueued s)).
  destruct (traverse_keeps isSameDirectoryAs isHackGeneratedIPC callsOutTo receivesCallsFrom
              rootSym callsOut limitToModule P) with
    (fuel := fuel) (visitNo := 0%nat) (st := initial rootSym) (st' := st) as [HP Hnil];
    [|done|done|].
  - intros v c r s Ht HP.
    destruct (visit_effect isSameDirectoryAs isHackGeneratedIPC callsOutTo receivesCallsFrom
                rootSym callsOut limitToModule v c
                (mkState (considered s) r (overloadBailed s) (requests s) (enqueued s)))
      as (new & extra & Ht' & He' & _ & _ & Hr' & Hcase).
    unfold P in *. rewrite Ht', He', Hr'. simpl. rewrite Ht in HP.
    assert (Hx : analysis_requests extra = []).
    { destruct Hcase as [[_ Hf]|(_ & -> & _)]; [by apply analysis_requests_edges|done]. }
    rewrite analysis_requests_app. simpl. rewrite Hx. unfold visits_of in *.
    rewrite !fmap_app. simpl in HP. rewrite app_comm_cons, <- HP.
    rewrite <- !app_assoc. by simpl.
  - unfold P in HP. by rewrite Hnil, app_nil_r in HP.
Qed.

Lemma doodleCalls_visits_in_order_witness :
  ∃ st, doodleCalls hub_sameDir hub_isIPC ring_callsOutTo hub_callsIn 0 true true 16 = Some st ∧
        analysis_requests (requests st)
        = [(0, "context"); (0, "calls-out"); (1, "calls-out"); (2, "calls-out");
           (0, "calls-out")]%nat%string.
Proof.
  destruct (doodleCalls hub_sameDir hub_isIPC ring_callsOutTo hub_callsIn 0 true true 16)
    as [st|] eqn:Hrun; [|vm_compute in Hrun; discriminate].
  exists st. split; [done|].
  rewrite (doodleCalls_visits_in_order hub_sameDir hub_isIPC ring_callsOutTo hub_callsIn
             0 true true 16 st Hrun).
  vm_compute in Hrun. injection Hrun as <-. reflexivity.
Defined.

(** [X16] Traversal stays in the module.  Under [limitToModule] every
    symbol put on the worklist after the root is in the root's directory;
    a generated IPC method outside it is drawn as a leaf but never
    traversed. *)
Theorem doodleCalls_stays_in_module
    (isSameDirectoryAs : nat → nat → bool) (isHackGeneratedIPC : nat → bool)
    (callsOutTo receivesCallsFrom : nat → nat → list nat)
    (rootSym : nat) (callsOut : bool) (fuel : nat) (st : state)
    (Hrun : doodleCalls isSameDirectoryAs isHackGeneratedIPC callsOutTo receivesCallsFrom
              rootSym callsOut true fuel = Some st) :
  enqueued st = rootSym :: considered st ∧
  ∀ x, x ∈ considered st → isSameDirectoryAs rootSym x = true.
Proof.
  set (P := λ s : state,
    enqueue_inv rootSym s ∧ ∀ x, x ∈ considered s → isSameDirectoryAs rootSym x = true).
  destruct (traverse_keeps isSameDirectoryAs isHackGeneratedIPC callsOutTo receivesCallsFrom
              rootSym callsOut true P) with
    (fuel := fuel) (visitNo := 0%nat) (st := initial rootSym) (st' := st)
    as [[[He _] Hdir] _]; [|done| |done].
  - intros v c r s Ht [Hinv Hdir]. split.
    + by apply visit_inv.
    + destruct (visit_effect isSameDirectoryAs isHackGeneratedIPC callsOutTo receivesCallsFrom
                  rootSym callsOut true v c
                  (mkState (considered s) r (overloadBailed s) (requests s) (enqueued s)))
        as (new & extra & _ & _ & Hc' & Hnew & _).
      rewrite Hc'. simpl. intros x [Hx|Hx]%elem_of_app; [by apply Hdir|].
      apply Hnew in Hx. unfold in_module_calls in Hx.
      by apply list_elem_of_filter in Hx as [? _].
  - split; [split; [done|apply NoDup_nil_2]|]. by intros x ?%elem_of_nil.
Qed.

Lemma doodleCalls_stays_in_module_witness :
  ∃ st, doodleCalls hub_sameDir hub_isIPC ring_callsOutTo hub_callsIn 0 true true 16 = Some st ∧
        EnsureEdge 1 14 ∈ requests st ∧ (14%nat ∉ enqueued st) ∧
        ∀ x, x ∈ considered st → hub_sameDir 0 x = true.
Proof.
  destruct (doodleCalls hub_sameDir hub_isIPC ring_callsOutTo hub_callsIn 0 true true 16)
    as [st|] eqn:Hrun; [|vm_compute in Hrun; discriminate].
  exists st. split; [done|].
  pose proof (proj2 (doodleCalls_stays_in_module hub_sameDir hub_isIPC ring_callsOutTo
                       hub_callsIn 0 true 16 st Hrun)) as Hdir.
  vm_compute in Hrun. injection Hrun as <-. split_and!; [| |exact Hdir].
  - simpl. repeat (first [by left | right]).
  - simpl. intros H.
    repeat (apply elem_of_cons in H as [H|H]; [discriminate|]). by apply elem_of_nil in H.
Defined.

(** [X17] Styled means bailed.  When [doodleCalls] ends, the diagram has
    been asked to style exactly the symbols in [overloadBailed], always with
    [color="red"], and every one of them had been put on the worklist. *)
Theorem doodleCalls_styles_bailed
    (isSameDirectoryAs : nat → nat → bool) (isHackGeneratedIPC : nat → bool)
    (callsOutTo receivesCallsFrom : nat → nat → list nat)
    (rootSym : nat) (callsOut limitToModule : bool) (fuel : nat) (st : state)
    (Hrun : doodleCalls isSameDirectoryAs isHackGeneratedIPC callsOutTo receivesCallsFrom
              rootSym callsOut limitToModule fuel = Some st) :
  (∀ x styling, StyleNode x styling ∈ requests st ↔
                x ∈ overloadBailed st ∧ styling = color_red) ∧
  (∀ x, x ∈ overloadBailed st → x ∈ enqueued st).
Proof.
  set (P := λ s : state,
    (∀ x styling, StyleNode x styling ∈ requests s ↔
                  x ∈ overloadBailed s ∧ styling = color_red) ∧
    (∀ x, x ∈ overloadBailed s ∨ x ∈ toTraverse s → x ∈ enqueued s)).
  destruct (traverse_keeps isSameDirectoryAs isHackGeneratedIPC callsOutTo receivesCallsFrom
              rootSym callsOut limitToModule P) with
    (fuel := fuel) (visitNo := 0%nat) (st := initial rootSym) (st' := st)
    as [[Hs Hb] _]; [|done| |].
  - intros v c r s Ht [Hs Hb].
    destruct (visit_effect isSameDirectoryAs isHackGeneratedIPC callsOutTo receivesCallsFrom
                rootSym callsOut limitToModule v c
                (mkState (considered s) r (overloadBailed s) (requests s) (enqueued s)))
      as (new & extra & Ht' & He' & _ & _ & Hr' & Hcase).
    simpl in *. split.
    + intros x styling. rewrite Hr', elem_of_app, elem_of_cons, Hs.
      destruct Hcase as [[-> Hf]|(-> & -> & _)].
      * split; [|tauto]. intros [?|[?|Hin]]; [done|done|].
        rewrite Forall_forall in Hf. by apply Hf in Hin.
      * rewrite elem_of_set_add, list_elem_of_singleton. split.
        -- intros [[? ?]|[?|[= -> ->]]]; [by split; [right|]|done|by split; [left|]].
        -- intros [[->|?] ->]; [right; right; done|by left].
    + intros x. rewrite Ht', He', !elem_of_app.
      assert (Hc : c ∈ enqueued s) by (apply Hb; right; rewrite Ht; by left).
      destruct Hcase as [[-> _]|(-> & _ & _)].
      * intros [?|[?|?]]; [left; apply Hb; by left|left; apply Hb; right; rewrite Ht; by right|
                           by right].
      * rewrite elem_of_set_add.
        intros [[->|?]|[?|?]]; [by left|left; apply Hb; by left|
                                left; apply Hb; right; rewrite Ht; by right|by right].
  - split.
    + intros x styling. simpl. split.
      * intros [?|?%elem_of_nil]%elem_of_cons; done.
      * by intros [?%elem_of_nil _].
    + simpl. intros x [?%elem_of_nil|?]; done.
  - split; [done|]. intros x Hx. apply Hb. by left.
Qed.

Lemma doodleCalls_styles_bailed_witness :
  ∃ st, doodleCalls hub_sameDir hub_isIPC hub_callsOutTo hub_callsIn 0 true true 1 = Some st ∧
        StyleNode 0 color_red ∈ requests st ∧ (0%nat ∈ overloadBailed st).
Proof.
  destruct (doodleCalls hub_sameDir hub_isIPC hub_callsOutTo hub_callsIn 0 true true 1)
    as [st|] eqn:Hrun; [|vm_compute in Hrun; discriminate].
  exists st. split; [done|].
  pose proof (proj1 (doodleCalls_styles_bailed hub_sameDir hub_isIPC hub_callsOutTo
                       hub_callsIn 0 true true 1 st Hrun)) as Hst.
  assert (H : 0%nat ∈ overloadBailed st).
  { vm_compute in Hrun. injection Hrun as <-. by left. }
  split; [|exact H]. by apply Hst.
Defined.

(** ** Session tracks *)

Section SessionTrackFacts.

Import SessionTrack.

Lemma indexOf_None x l : indexOf x l = None ↔ x ∉ l.
Proof.
  unfold indexOf. rewrite fmap_None, list_find_None, Forall_forall. split.
  - intros H Hx. by apply (H x).
  - intros H y Hy ->. done.
Qed.

Lemma indexOf_Some x l k :
  indexOf x l = Some k ↔ l !! k = Some x ∧ ∀ j y, l !! j = Some y → (j < k)%nat → y ≠ x.
Proof.
  unfold indexOf. rewrite fmap_Some. split.
  - intros ([k' y] & (Hk & -> & Hlt)%list_find_Some & ->). simpl. split; [done|].
    intros j z Hj Hjk. by apply (Hlt j z).
  - intros [Hk Hlt]. exists (k, x). split; [|done]. apply list_find_Some.
    split_and!; [done|done|]. intros j y Hj Hjk. by apply (Hlt j y).
Qed.

Lemma indexOf_middle x l1 l2 : x ∉ l1 → indexOf x (l1 ++ x :: l2) = Some (length l1).
Proof.
  intros Hx. apply indexOf_Some. split; [by apply list_lookup_middle|].
  intros j y Hj Hlt ->. rewrite lookup_app_l in Hj by done.
  apply Hx. by eapply list_elem_of_lookup_2.
Qed.

Lemma indexOf_split x l k :
  indexOf x l = Some k → ∃ l1 l2, l = l1 ++ x :: l2 ∧ length l1 = k ∧ x ∉ l1.
Proof.
  intros [Hk Hlt]%indexOf_Some. exists (take k l), (drop (S k) l). split_and!.
  - by rewrite <- (take_drop_middle l k x) at 1.
  - rewrite length_take. apply lookup_lt_Some in Hk. lia.
  - intros (j & Hj)%list_elem_of_lookup_1. rewrite lookup_take_Some in Hj.
    destruct Hj as [Hj Hjk]. by apply (Hlt j x).
Qed.

Lemma splice_in_middle (l1 l2 : list nat) x :
  splice_in (length l1) x (l1 ++ l2) = l1 ++ x :: l2.
Proof. unfold splice_in. by rewrite take_app_length, drop_app_length. Qed.

Lemma splice_in_end (l : list nat) x : splice_in (length l) x l = l ++ [x].
Proof. unfold splice_in. by rewrite firstn_all, drop_all. Qed.

Lemma splice_in_split (l : list nat) k x :
  (k ≤ length l)%nat → ∃ l1 l2, l = l1 ++ l2 ∧ length l1 = k ∧ splice_in k x l = l1 ++ x :: l2.
Proof.
  intros Hk. exists (take k l), (drop k l). split_and!; [by rewrite take_drop| |done].
  rewrite length_take. lia.
Qed.

Lemma elem_of_splice_in (l : list nat) k x y :
  y ∈ splice_in k x l ↔ y = x ∨ y ∈ l.
Proof.
  unfold splice_in. rewrite <- (take_drop k l) at 3.
  rewrite !elem_of_app, elem_of_cons. tauto.
Qed.

Lemma targetIdx_le relThing position l : (targetIdx relThing position l ≤ length l)%nat.
Proof.
  unfold targetIdx. repeat case_decide; try lia.
  - destruct relThing as [r|]; [|lia]. destruct (indexOf r l) as [k|] eqn:Hk; [|lia].
    apply indexOf_Some in Hk as [Hk%lookup_lt_Some _]. lia.
  - destruct relThing as [r|]; [|lia]. destruct (indexOf r l) as [k|] eqn:Hk; [|lia].
    apply indexOf_Some in Hk as [Hk%lookup_lt_Some _]. lia.
Qed.

(** The sweep writes every thing of the track, in order, and changes
    nothing else. *)
Lemma sweep_all (t : Track) :
  (∀ x, x ∈ things t → is_Some (heap t !! x)) →
  _updatePersistedThingsBecauseOfOrderingChange None t
  = Some (mkTrack (things t) (selectedThing t) (temporarilySelectedThing t) (serial t)
            (heap t) (metas t) (log t ++ omap (write_of (heap t)) (things t))).
Proof.
  unfold _updatePersistedThingsBecauseOfOrderingChange.
  assert (H : ∀ l acc, (∀ x, x ∈ l → is_Some (heap t !! x)) →
    foldl (λ acc thing,
             t' ← acc;
             if decide (Some thing = None) then Some t'
             else x ← heap t' !! thing;
                  Some (updatePersistedState thing (persisted x) (sessionMeta x) t'))
          (Some (mkTrack (things t) (selectedThing t) (temporarilySelectedThing t) (serial t)
                   (heap t) (metas t) (log t ++ acc))) l
    = Some (mkTrack (things t) (selectedThing t) (temporarilySelectedThing t) (serial t)
              (heap t) (metas t) (log t ++ acc ++ omap (write_of (heap t)) l))).
  { induction l as [|x l IH]; intros acc Hl.
    - simpl. by rewrite app_nil_r.
    - destruct (Hl x) as [th Hth]; [by left|].
      assert (Ho : omap (write_of (heap t)) (x :: l)
                   = UpdatePersistedState x (persisted th) (sessionMeta th)
                     :: omap (write_of (heap t)) l).
      { simpl. unfold write_of at 1. by rewrite Hth. }
      rewrite Ho. simpl. rewrite Hth. simpl. unfold updatePersistedState, emit. simpl.
      rewrite <- (app_assoc (log t)).
      rewrite IH by (intros y ?; apply Hl; by right).
      by rewrite <- !app_assoc. }
  intros Hl. specialize (H (things t) [] Hl). rewrite app_nil_r in H.
  destruct t. exact H.
Qed.

(** What a successful [addThing] leaves. *)
Lemma addThing_returns manager relThing useId params t meta :
  bindings manager !! p_type params = Some (ObjectBinding true) →
  live_track t →
  metas t !! default (makeDefaultSessionMeta manager) (p_sessionMeta params) = Some meta →
  let sm := default (makeDefaultSessionMeta manager) (p_sessionMeta params) in
  let new := length (heap t) in
  let k := targetIdx relThing (position params) (things t) in
  ∃ t', addThing manager relThing useId params t = Returns new t' ∧
    things t' = splice_in k new (things t) ∧
    selectedThing t' = (if selected meta then Some new else selectedThing t) ∧
    temporarilySelectedThing t' = temporarilySelectedThing t ∧
    serial t' = S (serial t) ∧
    heap t' = heap t ++ [mkSessionThing
                           (if falsy_id useId then allocId manager else default 0 useId)
                           (p_type params) (p_persisted params) sm] ∧
    metas t' = metas t ∧
    log t' = log t ++ asked useId params
             ++ (if restored params then []
                 else [UpdatePersistedState new (p_persisted params) sm])
             ++ (if (k <? length (things t))%nat
                 then omap (write_of (heap t')) (things t') else [])
             ++ [SessionThingAdded new; EmitDirty true].
Proof.
  intros Hb [Hnd Hlive] Hmeta sm new k. unfold addThing. rewrite Hb.
  fold sm new k.
  set (t0 := match p_sessionMeta params with
             | Some _ => if falsy_id useId then emit AllocId t else t
             | None => emit MakeDefaultSessionMeta (if falsy_id useId then emit AllocId t else t)
             end).
  assert (Ht0 : things t0 = things t ∧ selectedThing t0 = selectedThing t ∧
                temporarilySelectedThing t0 = temporarilySelectedThing t ∧
                serial t0 = serial t ∧ heap t0 = heap t ∧ metas t0 = metas t ∧
                log t0 = log t ++ asked useId params).
  { subst t0. unfold asked. destruct (p_sessionMeta params), (falsy_id useId); simpl;
      rewrite ?app_nil_r, <- ?app_assoc; by split_and!. }
  destruct Ht0 as (E1 & E2 & E3 & E4 & E5 & E6 & E7).
  rewrite E1, E5. fold new k.
  set (th := mkSessionThing _ _ _ _).
  set (t1 := set_things _ (set_heap _ t0)).
  set (t2 := if restored params then t1 else updatePersistedState new (p_persisted params) sm t1).
  assert (Ht2 : things t2 = splice_in k new (things t) ∧ heap t2 = heap t ++ [th] ∧
                selectedThing t2 = selectedThing t ∧
                temporarilySelectedThing t2 = temporarilySelectedThing t ∧
                serial t2 = serial t ∧ metas t2 = metas t ∧
                log t2 = log t ++ asked useId params
                         ++ (if restored params then []
                             else [UpdatePersistedState new (p_persisted params) sm])).
  { subst t2 t1. destruct (restored params); simpl;
      rewrite ?E1, ?E2, ?E3, ?E4, ?E5, ?E6, ?E7, ?app_nil_r, <- ?app_assoc; by split_and!. }
  destruct Ht2 as (F1 & F2 & F3 & F4 & F5 & F6 & F7).
  assert (Hlive2 : ∀ x, x ∈ things t2 → is_Some (heap t2 !! x)).
  { intros x. rewrite F1, F2, elem_of_splice_in. intros [->|Hx].
    - exists th. by apply list_lookup_middle.
    - destruct (Hlive x Hx) as (y & Hy & _). exists y. by apply lookup_app_l_Some. }
  assert (∃ t3, (if (k <? length (things t))%nat
                 then _updatePersistedThingsBecauseOfOrderingChange None t2 else Some t2)
                = Some t3 ∧
                things t3 = things t2 ∧ heap t3 = heap t2 ∧
                selectedThing t3 = selectedThing t2 ∧
                temporarilySelectedThing t3 = temporarilySelectedThing t2 ∧
                serial t3 = serial t2 ∧ metas t3 = metas t2 ∧
                log t3 = log t2 ++ (if (k <? length (things t))%nat
                                    then omap (write_of (heap t2)) (things t2) else []))
    as (t3 & -> & G1 & G2 & G3 & G4 & G5 & G6 & G7).
  { destruct (k <? length (things t))%nat.
    - rewrite (sweep_all t2 Hlive2). eexists. split; [done|]. by split_and!.
    - exists t2. rewrite app_nil_r. by split_and!. }
  assert (Hm3 : metas t2 !! sm = Some meta) by (by rewrite F6).
  rewrite Hm3. eexists. split; [done|].
  destruct (selected meta); simpl;
    rewrite ?G1, ?G2, ?G3, ?G4, ?G5, ?G6, ?G7, ?F1, ?F2, ?F3, ?F4, ?F5, ?F6, ?F7,
      <- ?app_assoc; by split_and!.
Qed.

End SessionTrackFacts.

Section SessionTrackClaims.

Import SessionTrack.

Lemma addThing_Returns_inv manager relThing useId params t new t' :
  addThing manager relThing useId params t = Returns new t' →
  bindings manager !! p_type params = Some (ObjectBinding true) ∧
  ∃ meta, metas t !! default (makeDefaultSessionMeta manager) (p_sessionMeta params)
          = Some meta.
Proof.
  unfold addThing.
  destruct (bindings manager !! p_type params) as [[| |[]]|]; try done.
  intros H. split; [done|].
  repeat case_match; try done; simpl in *; eauto.
Qed.

Lemma live_fresh t : live_track t → length (heap t) ∉ things t.
Proof.
  intros [_ Hlive] Hin. destruct (Hlive _ Hin) as (th & Hth%lookup_lt_Some & _). lia.
Qed.

Lemma NoDup_splice_in (l : list nat) k x : NoDup l → x ∉ l → NoDup (splice_in k x l).
Proof.
  intros Hnd Hx. unfold splice_in. rewrite <- (take_drop k l) in Hnd, Hx.
  apply NoDup_app in Hnd as (H1 & H2 & H3). rewrite elem_of_app in Hx.
  apply NoDup_app. split_and!; [done| |].
  - intros y Hy [->|Hy2]%elem_of_cons; [tauto|by eapply H2].
  - apply NoDup_cons. split; [tauto|done].
Qed.

Lemma delete_splice_in (l : list nat) k x : (k ≤ length l)%nat → delete k (splice_in k x l) = l.
Proof.
  intros Hk. unfold splice_in.
  assert (Hlen : length (take k l) = k) by (rewrite length_take; lia).
  rewrite <- Hlen at 1. rewrite delete_middle. apply take_drop.
Qed.

Lemma indexOf_splice_in (l : list nat) k x :
  (k ≤ length l)%nat → x ∉ l → indexOf x (splice_in k x l) = Some k.
Proof.
  intros Hk Hx. unfold splice_in.
  assert (Hlen : length (take k l) = k) by (rewrite length_take; lia).
  rewrite <- Hlen at 3. apply indexOf_middle. intros Hin. apply Hx.
  by apply (subseteq_take k l).
Qed.

(** [X18] Where [addThing] puts the new thing.  With a usable binding the
    call returns a new thing that was not in the track; position ['end']
    appends it, ['start'] puts it first; otherwise it goes right before the
    thing it is relative to, or right after it for position ['after'], and
    at the end when there is no such thing in the track.  The other things
    keep their order, and the track still holds no thing twice. *)
Theorem addThing_places (manager : Manager) (relThing : option nat) (useId : option Z)
    (params : Params) (t : Track) (meta : SessionMeta)
    (Hbinding : bindings manager !! p_type params = Some (ObjectBinding true))
    (Hlive : live_track t)
    (Hmeta : metas t !! default (makeDefaultSessionMeta manager) (p_sessionMeta params)
             = Some meta) :
  let new := length (heap t) in
  ∃ t', addThing manager relThing useId params t = Returns new t' ∧
    live_track t' ∧ (new ∉ things t) ∧ serial t' = S (serial t) ∧
    (position params = Some "end"%string → things t' = things t ++ [new]) ∧
    (position params = Some "start"%string → things t' = new :: things t) ∧
    (position params ≠ Some "end"%string → position params ≠ Some "start"%string →
     ∀ r l1 l2, relThing = Some r → things t = l1 ++ r :: l2 →
       things t' = if decide (position params = Some "after"%string)
                   then l1 ++ r :: new :: l2 else l1 ++ new :: r :: l2) ∧
    (position params ≠ Some "start"%string →
     (∀ r, relThing = Some r → r ∉ things t) → things t' = things t ++ [new]).
Proof.
  intros new.
  destruct (addThing_returns manager relThing useId params t meta Hbinding Hlive Hmeta)
    as (t' & Hrun & Hth & _ & _ & Hser & Hheap & Hmetas & _).
  pose proof (live_fresh t Hlive) as Hfresh. fold new in Hfresh, Hrun, Hth.
  exists t'. split_and!; try done.
  - destruct Hlive as [Hnd Hlive]. split.
    + rewrite Hth. by apply NoDup_splice_in.
    + intros x. rewrite Hth, elem_of_splice_in, Hheap, Hmetas. intros [->|Hx].
      * eexists. split; [by apply list_lookup_middle|]. simpl. by eexists.
      * destruct (Hlive x Hx) as (th & Hx' & ?). exists th.
        split; [by apply lookup_app_l_Some|done].
  - intros Hp. rewrite Hth. unfold targetIdx. rewrite decide_True by done.
    apply splice_in_end.
  - intros Hp. rewrite Hth. unfold targetIdx.
    rewrite decide_False, decide_True by congruence. done.
  - intros Hp1 Hp2 r l1 l2 -> Hl. rewrite Hth. unfold targetIdx.
    rewrite !decide_False by done.
    assert (Hr : r ∉ l1).
    { destruct Hlive as [Hnd _]. rewrite Hl in Hnd.
      apply NoDup_app in Hnd as (_ & Hd & _). intros Hin. apply (Hd r Hin). by left. }
    rewrite Hl, (indexOf_middle r l1 l2 Hr). case_decide.
    + change (S (length l1)) with (length [r] + length l1)%nat.
      rewrite Nat.add_comm, <- length_app, (app_assoc l1 [r] l2 : l1 ++ r :: l2 = _).
      rewrite splice_in_middle. by rewrite <- app_assoc.
    + apply splice_in_middle.
  - intros Hp Hrel. rewrite Hth.
    assert (targetIdx relThing (position params) (things t) = length (things t)) as ->;
      [|apply splice_in_end].
    unfold targetIdx. case_decide; [done|]. rewrite decide_False by done.
    destruct relThing as [r|]; [|done].
    by rewrite (proj2 (indexOf_None r (things t)) (Hrel r eq_refl)).
Qed.

Lemma two_sheets_live : live_track two_sheets.
Proof.
  split; [compute_done|].
  intros x [->|[->|[]%elem_of_nil]%elem_of_cons]%elem_of_cons;
    (eexists; split; [reflexivity|by eexists]).
Qed.

Lemma addThing_places_witness :
  bindings sheet_manager !! p_type after_first = Some (ObjectBinding true) ∧
  live_track two_sheets ∧
  ∃ t', addThing sheet_manager (Some 0%nat) None after_first two_sheets = Returns 2%nat t' ∧
        things t' = [0; 2; 1]%nat.
Proof.
  assert (Hb : bindings sheet_manager !! p_type after_first = Some (ObjectBinding true))
    by done.
  pose proof two_sheets_live as Hl.
  split_and!; [done|done|].
  destruct (addThing_places sheet_manager (Some 0%nat) None after_first two_sheets
              (mkSessionMeta false) Hb Hl eq_refl) as (t' & Hrun & _ & _ & _ & _ & _ & Hrel & _).
  exists t'. split; [exact Hrun|].
  by apply (Hrel ltac:(done) ltac:(done) 0%nat [] [1%nat]).
Defined.

(** [X19] Adding and removing.  Removing the thing [addThing] has just
    returned gives back the list of things as it was; the serial has moved
    by two, the manager has been told of the removal, and the track still
    holds no thing twice. *)
Theorem addThing_removeThing (manager : Manager) (relThing : option nat) (useId : option Z)
    (params : Params) (t t' : Track) (new : nat)
    (Hlive : live_track t)
    (Hadd : addThing manager relThing useId params t = Returns new t') :
  let t'' := removeThing new t' in
  things t'' = things t ∧ serial t'' = S (S (serial t)) ∧
  log t'' = log t' ++ [SessionThingRemoved new; EmitDirty true] ∧
  live_track t''.
Proof.
  destruct (addThing_Returns_inv _ _ _ _ _ _ _ Hadd) as (Hb & meta & Hmeta).
  destruct (addThing_returns manager relThing useId params t meta Hb Hlive Hmeta)
    as (t1 & Hrun & Hth & _ & _ & Hser & Hheap & Hmetas & _).
  rewrite Hrun in Hadd. injection Hadd as <- <-.
  pose proof (live_fresh t Hlive) as Hfresh.
  pose proof (targetIdx_le relThing (position params) (things t)) as Hk.
  unfold removeThing. rewrite Hth, (indexOf_splice_in _ _ _ Hk Hfresh).
  simpl. rewrite (delete_splice_in _ _ _ Hk), Hser, <- app_assoc.
  split_and!; try done. destruct Hlive as [Hnd Hlive]. split; [done|].
  intros x Hx. simpl. rewrite Hheap, Hmetas. destruct (Hlive x Hx) as (th & Hx' & ?).
  exists th. split; [by apply lookup_app_l_Some|done].
Qed.

Lemma addThing_removeThing_witness :
  live_track two_sheets ∧
  ∃ t', addThing sheet_manager (Some 0%nat) None after_first two_sheets = Returns 2%nat t' ∧
        things (removeThing 2 t') = things two_sheets.
Proof.
  pose proof two_sheets_live as Hl. split; [done|].
  eexists. split; [reflexivity|].
  exact (proj1 (addThing_removeThing sheet_manager (Some 0%nat) None after_first two_sheets
                  _ 2%nat Hl eq_refl)).
Defined.

(** [X20] What [addThing] writes.  A thing that did not come from the
    database is written through once; when the new thing does not go to the
    end, every thing of the track is written again, in order, the new one
    included, since the sweep is asked to skip no thing.  So a restored
    thing that is appended is not written at all, and a new thing put
    before the end is written twice. *)
Theorem addThing_writes (manager : Manager) (relThing : option nat) (useId : option Z)
    (params : Params) (t t' : Track) (new : nat)
    (Hlive : live_track t)
    (Hadd : addThing manager relThing useId params t = Returns new t') :
  let sm := default (makeDefaultSessionMeta manager) (p_sessionMeta params) in
  let k := targetIdx relThing (position params) (things t) in
  log t' = log t ++ asked useId params
           ++ (if restored params then []
               else [UpdatePersistedState new (p_persisted params) sm])
           ++ (if (k <? length (things t))%nat
               then omap (write_of (heap t')) (things t') else [])
           ++ [SessionThingAdded new; EmitDirty true] ∧
  UpdatePersistedState new (p_persisted params) sm ∈ omap (write_of (heap t')) (things t').
Proof.
  destruct (addThing_Returns_inv _ _ _ _ _ _ _ Hadd) as (Hb & meta & Hmeta).
  destruct (addThing_returns manager relThing useId params t meta Hb Hlive Hmeta)
    as (t1 & Hrun & Hth & _ & _ & _ & Hheap & _ & Hlog).
  rewrite Hrun in Hadd. injection Hadd as <- <-. split; [done|].
  apply list_elem_of_omap. exists (length (heap t)). split.
  - rewrite Hth. apply elem_of_splice_in. by left.
  - unfold write_of. rewrite Hheap, list_lookup_middle by done. done.
Qed.

Lemma addThing_writes_witness :
  live_track two_sheets ∧
  ∃ t', addThing sheet_manager (Some 0%nat) None after_first two_sheets = Returns 2%nat t' ∧
        log t' = [AllocId; MakeDefaultSessionMeta;
                  UpdatePersistedState 2 (Some "c"%string) 2;
                  UpdatePersistedState 0 (Some "a"%string) 0;
                  UpdatePersistedState 2 (Some "c"%string) 2;
                  UpdatePersistedState 1 (Some "b"%string) 1;
                  SessionThingAdded 2; EmitDirty true].
Proof.
  pose proof two_sheets_live as Hl. split; [done|].
  eexists. split; [reflexivity|].
  rewrite (proj1 (addThing_writes sheet_manager (Some 0%nat) None after_first two_sheets
                    _ 2%nat Hl eq_refl)).
  reflexivity.
Defined.

(** [X21] A binding that cannot make a model.  When the manager has no
    binding for the type, or one that is not an object, or one whose
    [makeModel] is not a function, [addThing] throws and leaves the track
    as it was: no thing is created, nothing is written, no listener is
    told; all it has done is ask the manager for an id or a default
    session-meta object and warn on the console. *)
Theorem addThing_bad_binding (manager : Manager) (relThing : option nat) (useId : option Z)
    (params : Params) (t : Track)
    (Hbinding : bindings manager !! p_type params ≠ Some (ObjectBinding true)) :
  ∃ message t' more, addThing manager relThing useId params t = Throws message t' ∧
    things t' = things t ∧ selectedThing t' = selectedThing t ∧
    temporarilySelectedThing t' = temporarilySelectedThing t ∧ serial t' = serial t ∧
    heap t' = heap t ∧ metas t' = metas t ∧
    log t' = log t ++ more ∧ Forall is_quiet more.
Proof.
  unfold addThing.
  set (t0 := match p_sessionMeta params with
             | Some _ => if falsy_id useId then emit AllocId t else t
             | None => emit MakeDefaultSessionMeta (if falsy_id useId then emit AllocId t else t)
             end).
  assert (Ht0 : things t0 = things t ∧ selectedThing t0 = selectedThing t ∧
                temporarilySelectedThing t0 = temporarilySelectedThing t ∧
                serial t0 = serial t ∧ heap t0 = heap t ∧ metas t0 = metas t ∧
                log t0 = log t ++ asked useId params ∧ Forall is_quiet (asked useId params)).
  { subst t0. unfold asked. destruct (p_sessionMeta params), (falsy_id useId); simpl;
      rewrite ?app_nil_r, <- ?app_assoc; split_and!; try done; by repeat constructor. }
  destruct Ht0 as (E1 & E2 & E3 & E4 & E5 & E6 & E7 & E8).
  destruct (bindings manager !! p_type params) as [[| |[]]|]; try done.
  - eexists _, _, (asked useId params ++ [ConsoleWarn _]). split; [done|]. simpl.
    rewrite E7, <- app_assoc. split_and!; try done.
    apply Forall_app. split; [done|by repeat constructor].
  - eexists _, _, (asked useId params). split; [done|]. by split_and!.
  - eexists _, _, (asked useId params ++ [ConsoleWarn _]). split; [done|]. simpl.
    rewrite E7, <- app_assoc. split_and!; try done.
    apply Forall_app. split; [done|by repeat constructor].
  - eexists _, _, (asked useId params ++ [ConsoleWarn _]). split; [done|]. simpl.
    rewrite E7, <- app_assoc. split_and!; try done.
    apply Forall_app. split; [done|by repeat constructor].
Qed.

Lemma addThing_bad_binding_witness :
  bindings sheet_manager !! "searchfox-code"%string ≠ Some (ObjectBinding true) ∧
  ∃ message t' more,
    addThing sheet_manager None None (mkParams None "searchfox-code" None None false) two_sheets
      = Throws message t' ∧
    things t' = things two_sheets ∧ log t' = log two_sheets ++ more.
Proof.
  assert (Hb : bindings sheet_manager !! "searchfox-code"%string ≠ Some (ObjectBinding true))
    by done.
  split; [done|].
  destruct (addThing_bad_binding sheet_manager None None
              (mkParams None "searchfox-code" None None false) two_sheets Hb)
    as (message & t' & more & ? & ? & _ & _ & _ & _ & _ & ? & _).
  by exists message, t', more.
Defined.

(** [X22] What a tabbed display is told.  [computeTabbedThingToDisplay]
    changes nothing of the track but the explicit selection, and a second
    call changes nothing at all.  On a track where nothing is selected, the
    first call answers with no thing although it makes the first thing of
    the track the selection; it is the second call that answers with that
    thing. *)
Theorem display_selects_late (t : Track) :
  let first := computeTabbedThingToDisplay t in
  let second := computeTabbedThingToDisplay first.2 in
  second.2 = first.2 ∧
  first.2 = set_selectedThing (selectedThing first.2) t ∧
  (temporarilySelectedThing t = None → selectedThing t = None →
   first.1 = None ∧ selectedThing first.2 = head (things t) ∧ second.1 = head (things t)).
Proof.
  unfold computeTabbedThingToDisplay.
  destruct t as [ths sel tmp n h m l].
  destruct tmp as [y|], sel as [s|], ths as [|x ths]; simpl; split_and!; try done;
    intros; simplify_eq; done.
Qed.

(** [X23] Removing the selected thing.  [removeThing] takes the thing out
    of the track and keeps every other thing, but it leaves the selection
    alone: the removed thing is still the selected one, and a tabbed
    display is still told to show it. *)
Theorem removeThing_keeps_selection (x : nat) (t : Track)
    (Hnd : NoDup (things t))
    (Hin : x ∈ things t)
    (Hsel : selectedThing t = Some x) :
  let t' := removeThing x t in
  (x ∉ things t') ∧ (∀ y, y ≠ x → y ∈ things t' ↔ y ∈ things t) ∧
  selectedThing t' = Some x ∧
  (temporarilySelectedThing t = None → computeTabbedThingToDisplay t' = (Some x, t')).
Proof.
  unfold removeThing.
  destruct (indexOf x (things t)) as [k|] eqn:Hk;
    [|by apply indexOf_None in Hk].
  destruct (indexOf_split _ _ _ Hk) as (l1 & l2 & Hl & Hlen & Hx1).
  simpl. rewrite Hl, <- Hlen, delete_middle.
  rewrite Hl in Hnd. apply NoDup_app in Hnd as (_ & Hd & [Hx2 _]%NoDup_cons).
  split_and!.
  - rewrite elem_of_app. tauto.
  - intros y Hy. rewrite !elem_of_app, elem_of_cons. tauto.
  - done.
  - intros Htmp. unfold computeTabbedThingToDisplay. simpl. by rewrite Htmp, Hsel.
Qed.

Lemma removeThing_keeps_selection_witness :
  NoDup (things two_sheets) ∧ 1%nat ∈ things two_sheets ∧
  selectedThing two_sheets = Some 1%nat ∧
  things (removeThing 1 two_sheets) = [0%nat] ∧
  computeTabbedThingToDisplay (removeThing 1 two_sheets)
  = (Some 1%nat, removeThing 1 two_sheets).
Proof.
  assert (Hnd : NoDup (things two_sheets)) by compute_done.
  assert (Hin : 1%nat ∈ things two_sheets) by compute_done.
  split_and!; [done|done|done|done|].
  exact (proj2 (proj2 (proj2
    (removeThing_keeps_selection 1 two_sheets Hnd Hin eq_refl))) eq_refl).
Defined.

(** [X24] [ensureThing] makes a thing only on an empty track.  On a track
    that has things it returns the first of them and changes nothing,
    whatever its parameters; on an empty track it leaves a track of exactly
    the one new thing.  So on every later state of the track whose first
    thing is still the thing returned, a call returns that thing again and
    changes nothing.  It does not make a thing once and for all: when the
    thing it has made is removed again, the next call makes another
    thing. *)
Theorem ensureThing_first_thing (manager : Manager) (params : Params)
    (t t' : Track) (x : nat)
    (Hrun : ensureThing manager params t = Returns x t') :
  head (things t') = Some x ∧
  (things t ≠ [] → t' = t) ∧
  (things t = [] → things t' = [x]) ∧
  (∀ manager' params' later,
     head (things later) = Some x → ensureThing manager' params' later = Returns x later) ∧
  (things t = [] →
   things (removeThing x t') = [] ∧
   ∀ manager' params' y t'',
     ensureThing manager' params' (removeThing x t') = Returns y t'' → y ≠ x).
Proof.
  assert (Hlater : ∀ manager' params' later,
            head (things later) = Some x → ensureThing manager' params' later = Returns x later).
  { intros manager' params' later Hh. unfold ensureThing.
    destruct (things later) as [|first l]; [done|]. by injection Hh as ->. }
  unfold ensureThing in Hrun. destruct (things t) as [|first l] eqn:Hth.
  - destruct (addThing_Returns_inv _ _ _ _ _ _ _ Hrun) as (Hb & meta & Hmeta).
    assert (Hlive : live_track t).
    { split; rewrite Hth; [constructor|]. by intros y ?%elem_of_nil. }
    destruct (addThing_returns manager None None params t meta Hb Hlive Hmeta)
      as (t1 & Hrun' & Hth' & _ & _ & _ & Hheap & Hmetas & _).
    rewrite Hrun' in Hrun. injection Hrun as <- <-.
    rewrite Hth in Hth'. unfold splice_in in Hth'. rewrite take_nil, drop_nil in Hth'.
    simpl in Hth'.
    assert (Hrem : things (removeThing (length (heap t)) t1) = [] ∧
                   heap (removeThing (length (heap t)) t1) = heap t1 ∧
                   metas (removeThing (length (heap t)) t1) = metas t1).
    { unfold removeThing. rewrite Hth'. unfold indexOf. simpl.
      rewrite decide_True by done. simpl. done. }
    destruct Hrem as (Hr1 & Hr2 & Hr3).
    rewrite Hth'. split_and!; try done. intros _. split; [done|].
    intros manager' params' y t'' Hagain. unfold ensureThing in Hagain.
    rewrite Hr1 in Hagain.
    destruct (addThing_Returns_inv _ _ _ _ _ _ _ Hagain) as (Hb' & meta' & Hmeta').
    assert (Hlive' : live_track (removeThing (length (heap t)) t1)).
    { split; rewrite Hr1; [constructor|]. by intros z ?%elem_of_nil. }
    destruct (addThing_returns manager' None None params' _ meta' Hb' Hlive' Hmeta')
      as (t2 & Hrun2 & _).
    rewrite Hrun2 in Hagain. injection Hagain as <- <-.
    rewrite Hr2, Hheap, length_app. simpl. lia.
  - injection Hrun as <- <-. rewrite Hth. by split_and!.
Qed.

Lemma ensureThing_first_thing_witness :
  ∃ t', ensureThing sheet_manager after_first (new_SessionTrack (metas two_sheets))
        = Returns 0%nat t' ∧
        ensureThing sheet_manager after_first t' = Returns 0%nat t' ∧ things t' = [0%nat] ∧
        things (removeThing 0 t') = [].
Proof.
  destruct (ensureThing sheet_manager after_first (new_SessionTrack (metas two_sheets)))
    as [x t'| |] eqn:Hrun; [|vm_compute in Hrun; discriminate..].
  assert (x = 0%nat) as -> by (vm_compute in Hrun; by injection Hrun as <- _).
  exists t'. split; [done|].
  destruct (ensureThing_first_thing sheet_manager after_first
              (new_SessionTrack (metas two_sheets)) t' 0%nat Hrun)
    as (Hh & _ & Hone & Hlater & Hgone).
  split_and!; [exact (Hlater sheet_manager after_first t' Hh)|exact (Hone eq_refl)|].
  exact (proj1 (Hgone eq_refl)).
Defined.

Lemma set_selected_spec x v t t' :
  set_selected x v t = Some t' →
  ∃ th, heap t !! x = Some th ∧ (sessionMeta th < length (metas t))%nat ∧
        t' = set_metas (<[sessionMeta th := mkSessionMeta v]> (metas t)) t.
Proof.
  unfold set_selected. destruct (heap t !! x) as [th|]; [|done]. simpl.
  destruct (metas t !! sessionMeta th) as [m|] eqn:Hm; [|done]. simpl.
  intros [= <-]. exists th. split_and!; [done|by eapply lookup_lt_Some|done].
Qed.

(** [X25] What [selectThing] marks.  Selecting a thing that is not the
    selected one makes it the selection, sets the flag of its session-meta
    object and stores it, and moves the serial by one; the thing selected
    before has its flag cleared and stored first, so its flag ends up
    cleared unless the two things share one session-meta object.  The
    things of the track stay as they are, and selecting the same thing
    again does nothing. *)
Theorem selectThing_marks (x : nat) (t t' : Track)
    (Hother : selectedThing t ≠ Some x)
    (Hrun : selectThing x t = Returns tt t') :
  selectedThing t' = Some x ∧ things t' = things t ∧ heap t' = heap t ∧
  serial t' = S (serial t) ∧
  selectThing x t' = Returns tt t' ∧
  (∃ th, heap t !! x = Some th ∧ metas t' !! sessionMeta th = Some (mkSessionMeta true) ∧
     ∀ old tho, selectedThing t = Some old → heap t !! old = Some tho →
       log t' = log t ++ [StoreUpdatedSessionMeta old; StoreUpdatedSessionMeta x;
                          EmitDirty true] ∧
       (sessionMeta tho ≠ sessionMeta th →
        metas t' !! sessionMeta tho = Some (mkSessionMeta false))) ∧
  (selectedThing t = None →
   log t' = log t ++ [StoreUpdatedSessionMeta x; EmitDirty true]).
Proof.
  unfold selectThing in Hrun. rewrite decide_False in Hrun by done.
  destruct (selectedThing t) as [old|] eqn:Hsel.
  - destruct (set_selected old false t) as [t1|] eqn:H1; [|done]. simpl in Hrun.
    destruct (set_selected x true _) as [t2|] eqn:H2; [|done].
    injection Hrun as <-.
    apply set_selected_spec in H1 as (tho & Hold & Hlt1 & ->).
    apply set_selected_spec in H2 as (th & Hx & Hlt2 & ->). simpl in *.
    split_and!; try done.
    + unfold selectThing. simpl. by rewrite decide_True.
    + exists th. split; [done|]. split.
      * apply list_lookup_insert_eq. done.
      * intros ? ? [= <-] Ho. rewrite Hold in Ho. injection Ho as <-.
        split; [by rewrite <- !app_assoc|]. intros Hne.
        rewrite list_lookup_insert_ne by done. by apply list_lookup_insert_eq.
  - simpl in Hrun. destruct (set_selected x true _) as [t2|] eqn:H2; [|done].
    injection Hrun as <-.
    apply set_selected_spec in H2 as (th & Hx & Hlt2 & ->). simpl in *.
    split_and!; try done.
    + unfold selectThing. simpl. by rewrite decide_True.
    + exists th. split; [done|]. split; [by apply list_lookup_insert_eq|]. done.
    + intros _. by rewrite <- !app_assoc.
Qed.

Lemma selectThing_marks_witness :
  selectedThing two_sheets ≠ Some 0%nat ∧
  ∃ t', selectThing 0 two_sheets = Returns tt t' ∧ selectedThing t' = Some 0%nat ∧
        selectThing 0 t' = Returns tt t'.
Proof.
  assert (Hne : selectedThing two_sheets ≠ Some 0%nat) by done.
  split; [done|]. eexists. split; [reflexivity|].
  destruct (selectThing_marks 0 two_sheets _ Hne eq_refl) as (H1 & _ & _ & _ & H2 & _).
  by split.
Defined.

(** [X26] Hovering over a selection.  Once a thing is selected, a
    temporarily selected thing is what a tabbed display shows, with the
    selected thing kept as the occluded one; when the temporary selection
    is taken back, the display shows the selected thing again and nothing
    is occluded.  Each of the two steps moves the serial by one, and
    asking what to display changes nothing. *)
Theorem hover_over_selection (x y : nat) (t t' : Track)
    (Hrun : selectThing x t = Returns tt t') :
  let hovered := temporarilySelectThing (Some y) t' in
  let back := temporarilySelectThing None hovered in
  computeTabbedThingToDisplay hovered = (Some y, hovered) ∧
  computeTabbedOccludedThing hovered = Some x ∧
  computeTabbedThingToDisplay back = (Some x, back) ∧
  computeTabbedOccludedThing back = None ∧
  serial back = S (S (serial t')) ∧ things back = things t.
Proof.
  assert (Hsel : selectedThing t' = Some x ∧ things t' = things t).
  { unfold selectThing in Hrun. case_decide as Hd.
    - by injection Hrun as <-.
    - destruct (selectedThing t) as [old|].
      + destruct (set_selected old false t) as [t1|] eqn:H1; [|done]. simpl in Hrun.
        destruct (set_selected x true _) as [t2|] eqn:H2; [|done].
        injection Hrun as <-.
        apply set_selected_spec in H1 as (tho & Hold & Hlt1 & ->).
        by apply set_selected_spec in H2 as (th & Hx & Hlt2 & ->).
      + simpl in Hrun. destruct (set_selected x true _) as [t2|] eqn:H2; [|done].
        injection Hrun as <-.
        by apply set_selected_spec in H2 as (th & Hx & Hlt2 & ->). }
  destruct Hsel as [Hsel Hth].
  unfold computeTabbedThingToDisplay, computeTabbedOccludedThing, temporarilySelectThing.
  simpl. rewrite Hsel. by split_and!.
Qed.

Lemma hover_over_selection_witness :
  ∃ t', selectThing 0 two_sheets = Returns tt t' ∧
        computeTabbedOccludedThing (temporarilySelectThing (Some 1%nat) t') = Some 0%nat.
Proof.
  eexists. split; [reflexivity|].
  exact (proj1 (proj2 (hover_over_selection 0 1 two_sheets _ eq_refl))).
Defined.

End SessionTrackClaims.

(** ** The message bridge *)

Section FrontendFacts.

Import Frontend.

Lemma after_calls_snoc cs c fe : after_calls (cs ++ [c]) fe = do_call (after_calls cs fe) c.
Proof. unfold after_calls. by rewrite foldl_app. Qed.

Lemma after_calls_app cs1 cs2 fe :
  after_calls (cs1 ++ cs2) fe = after_calls cs2 (after_calls cs1 fe).
Proof. unfold after_calls. by rewrite foldl_app. Qed.

Lemma resolve_fields p v fe :
  _awaitingReplies (resolve p v fe) = _awaitingReplies fe ∧
  _nextMsgId (resolve p v fe) = _nextMsgId fe ∧
  posted (resolve p v fe) = posted fe ∧ console (resolve p v fe) = console fe ∧
  length (promises (resolve p v fe)) = length (promises fe).
Proof.
  unfold resolve. destruct (promises fe !! p) as [[]|]; try done.
  case_decide; simpl; by rewrite length_insert.
Qed.

Lemma reject_fields p v fe :
  _awaitingReplies (reject p v fe) = _awaitingReplies fe ∧
  _nextMsgId (reject p v fe) = _nextMsgId fe ∧
  posted (reject p v fe) = posted fe ∧ console (reject p v fe) = console fe ∧
  length (promises (reject p v fe)) = length (promises fe) ∧
  initCompleted (reject p v fe) = initCompleted fe.
Proof.
  unfold reject. destruct (promises fe !! p) as [[]|]; try done.
  simpl; by rewrite length_insert.
Qed.

Lemma onMessage_fields debug data fe :
  _awaitingReplies (_onMessage debug data fe) = _awaitingReplies fe ∧
  _nextMsgId (_onMessage debug data fe) = _nextMsgId fe ∧
  posted (_onMessage debug data fe) = posted fe ∧
  length (promises (_onMessage debug data fe)) = length (promises fe).
Proof.
  unfold _onMessage. case_decide; [|done].
  destruct (_awaitingReplies fe !! d_msgId data) as [p|]; [|done].
  destruct (success data).
  - destruct (resolve_fields p (d_payload data)
                (if debug then print (LogReply (d_msgId data) (d_type data) (d_payload data)) fe
                 else fe)) as (-> & -> & -> & _ & ->).
    by destruct debug.
  - destruct (reject_fields p (d_payload data)
                (if debug then print (LogReply (d_msgId data) (d_type data) (d_payload data)) fe
                 else fe)) as (-> & -> & -> & _ & -> & _).
    by destruct debug.
Qed.

Lemma sendAndAwaitReply_fields debug type payload fe :
  let r := _sendAndAwaitReply debug type payload fe in
  r.1 = length (promises fe) ∧
  _awaitingReplies r.2 = <[_nextMsgId fe := length (promises fe)]> (_awaitingReplies fe) ∧
  _nextMsgId r.2 = incr (_nextMsgId fe) ∧
  promises r.2 = promises fe ++ [Pending] ∧
  posted r.2 = posted fe ++ [mkMessage type (_nextMsgId fe) payload] ∧
  initCompleted r.2 = initCompleted fe.
Proof. unfold _sendAndAwaitReply. by destruct debug. Qed.

Lemma request_ids_snoc fe m :
  filter (λ i, i ≠ 0) (msgId <$> (posted fe ++ [m]))
  = request_ids fe ++ (if decide (msgId m = 0) then [] else [msgId m]).
Proof.
  unfold request_ids. rewrite fmap_app, filter_app. f_equal. simpl.
  unfold filter, list_filter. simpl. repeat case_decide; done.
Qed.

Lemma bridge_ok_new debug treeName :
  bridge_ok (new_GrokAnalysisFrontend debug treeName) ∧
  _nextMsgId (new_GrokAnalysisFrontend debug treeName) = 2.
Proof.
  split; [|by destruct debug].
  assert (Hn : _nextMsgId (new_GrokAnalysisFrontend debug treeName) = 2) by (by destruct debug).
  assert (Ha : _awaitingReplies (new_GrokAnalysisFrontend debug treeName) = {[ 1 := 0%nat ]})
    by (by destruct debug).
  unfold bridge_ok. rewrite Hn, Ha.
  split_and!; try (destruct debug; done).
  intros i. destruct (decide (i = 1)) as [->|].
  - by rewrite lookup_singleton_eq.
  - rewrite lookup_singleton_ne by done. rewrite decide_False by lia. done.
Qed.

Lemma bridge_ok_call c fe :
  bridge_ok fe → _nextMsgId fe < 2 ^ 53 →
  bridge_ok (do_call fe c) ∧ _nextMsgId (do_call fe c) ≤ _nextMsgId fe + 1.
Proof.
  intros (Hn & Hlen & Htab & Hids) Hlt. destruct c as [debug type payload|type payload|debug data].
  - cbn [do_call].
    destruct (sendAndAwaitReply_fields debug type payload fe) as (_ & Ha & Hnx & Hp & Hpo & _).
    assert (Hinc : incr (_nextMsgId fe) = _nextMsgId fe + 1).
    { unfold incr. by rewrite (proj2 (Z.ltb_lt _ _) Hlt). }
    split; [|lia]. unfold bridge_ok, request_ids. rewrite Ha, Hnx, Hp, Hpo, Hinc.
    split_and!; [lia|lia|rewrite length_app; simpl; lia| |].
    + intros i. destruct (decide (i = _nextMsgId fe)) as [->|Hne].
      * rewrite lookup_insert_eq, decide_True by lia. f_equal. lia.
      * rewrite lookup_insert_ne, Htab by done. repeat case_decide; try done; lia.
    + rewrite request_ids_snoc, Hids. simpl. rewrite decide_False by lia.
      rewrite length_app. simpl. rewrite Nat.add_1_r, seq_S, fmap_app. simpl.
      do 3 f_equal. lia.
  - cbn [do_call]. split; [|simpl; lia]. unfold bridge_ok, _sendNoReply, request_ids. simpl.
    pose proof (request_ids_snoc fe (mkMessage type 0 payload)) as Hs.
    simpl in Hs. rewrite app_nil_r in Hs.
    split_and!; [lia|lia|done|done|by rewrite Hs].
  - cbn [do_call]. destruct (onMessage_fields debug data fe) as (Ha & Hnx & Hpo & Hl).
    split; [|lia]. unfold bridge_ok, request_ids. by rewrite Ha, Hnx, Hpo, Hl.
Qed.

Lemma bridge_ok_run debug treeName cs :
  Z.of_nat (length cs) + 2 ≤ 2 ^ 53 →
  bridge_ok (after_calls cs (new_GrokAnalysisFrontend debug treeName)) ∧
  _nextMsgId (after_calls cs (new_GrokAnalysisFrontend debug treeName))
  ≤ 2 + Z.of_nat (length cs).
Proof.
  induction cs as [|c cs IH] using rev_ind; intros Hfew.
  - destruct (bridge_ok_new debug treeName) as [H Hn]. split; [done|].
    unfold after_calls. cbn [foldl length]. rewrite Hn. lia.
  - rewrite length_app in Hfew |- *. simpl in Hfew |- *.
    destruct IH as [IH1 IH2]; [lia|]. rewrite after_calls_snoc.
    destruct (bridge_ok_call c _ IH1) as [H1 H2]; [lia|]. split; [done|lia].
Qed.

(** A settled promise stays as it is. *)
Lemma settled_call c fe p s :
  promises fe !! p = Some s → s ≠ Pending → promises (do_call fe c) !! p = Some s.
Proof.
  intros Hp Hs. destruct c as [debug type payload|type payload|debug data]; cbn [do_call].
  - destruct (sendAndAwaitReply_fields debug type payload fe) as (_ & _ & _ & -> & _).
    by apply lookup_app_l_Some.
  - done.
  - unfold _onMessage. case_decide; [|done].
    destruct (_awaitingReplies fe !! d_msgId data) as [q|]; [|done].
    assert (Hp' : promises (if debug
                            then print (LogReply (d_msgId data) (d_type data) (d_payload data)) fe
                            else fe) !! p = Some s) by (by destruct debug).
    revert Hp'. generalize (if debug
                            then print (LogReply (d_msgId data) (d_type data) (d_payload data)) fe
                            else fe). intros fe' Hp'.
    destruct (success data); unfold resolve, reject.
    + destruct (promises fe' !! q) as [[]|] eqn:Hq; try done.
      assert (p ≠ q) by congruence.
      case_decide; simpl; by rewrite list_lookup_insert_ne.
    + destruct (promises fe' !! q) as [[]|] eqn:Hq; try done.
      assert (p ≠ q) by congruence. simpl. by rewrite list_lookup_insert_ne.
Qed.

Lemma awaited_call c fe i p :
  awaited i p fe → ¬ is_reply_to i c → promises fe !! p = Some Pending →
  awaited i p (do_call fe c) ∧ promises (do_call fe c) !! p = Some Pending.
Proof.
  intros (Hi & Hnext & Hip & Hlt & Hinj) Hnot Hpend.
  destruct c as [debug type payload|type payload|debug data]; cbn [do_call].
  - destruct (sendAndAwaitReply_fields debug type payload fe) as (_ & Ha & Hnx & Hp & _).
    split; [|rewrite Hp; by apply lookup_app_l_Some].
    assert (Hle : _nextMsgId fe ≤ incr (_nextMsgId fe)).
    { unfold incr. case_match; lia. }
    unfold awaited. rewrite Ha, Hnx, Hp, length_app. simpl.
    split_and!; [done|lia| |lia|].
    + rewrite lookup_insert_ne by lia. done.
    + intros j q. destruct (decide (j = _nextMsgId fe)) as [->|Hne].
      * rewrite lookup_insert_eq. intros [= <-]. split; [lia|]. intros Heq. lia.
      * rewrite lookup_insert_ne by done. intros Hj.
        destruct (Hinj j q Hj) as [? ?]. split; [lia|done].
  - done.
  - destruct (onMessage_fields debug data fe) as (Ha & Hnx & _ & Hl).
    split; [unfold awaited; by rewrite Ha, Hnx, Hl|].
    unfold _onMessage. case_decide as Hty; [|done].
    destruct (_awaitingReplies fe !! d_msgId data) as [q|] eqn:Hq; [|done].
    assert (q ≠ p).
    { intros ->. apply Hnot. exists debug, data. split_and!; [done|done|].
      by apply (Hinj _ _ Hq). }
    assert (Hp' : promises (if debug
                            then print (LogReply (d_msgId data) (d_type data) (d_payload data)) fe
                            else fe) !! p = Some Pending) by (by destruct debug).
    revert Hp'. generalize (if debug
                            then print (LogReply (d_msgId data) (d_type data) (d_payload data)) fe
                            else fe). intros fe' Hp'.
    destruct (success data); unfold resolve, reject.
    + destruct (promises fe' !! q) as [[]|] eqn:Hq'; try done.
      case_decide; simpl; by rewrite list_lookup_insert_ne.
    + destruct (promises fe' !! q) as [[]|] eqn:Hq'; try done.
      simpl. by rewrite list_lookup_insert_ne.
Qed.

Lemma awaited_run cs fe i p :
  awaited i p fe → Forall (λ c, ¬ is_reply_to i c) cs → promises fe !! p = Some Pending →
  awaited i p (after_calls cs fe) ∧ promises (after_calls cs fe) !! p = Some Pending.
Proof.
  revert fe. induction cs as [|c cs IH]; intros fe Ha Hcs Hp; [done|].
  apply Forall_cons in Hcs as [Hc Hcs].
  destruct (awaited_call c fe i p Ha Hc Hp) as [Ha' Hp']. by apply IH.
Qed.

Lemma awaited_fresh debug type payload fe :
  bridge_ok fe → _nextMsgId fe < 2 ^ 53 →
  awaited (_nextMsgId fe) (length (promises fe)) (_sendAndAwaitReply debug type payload fe).2.
Proof.
  intros (Hn & Hlen & Htab & Hids) Hlt.
  destruct (sendAndAwaitReply_fields debug type payload fe) as (_ & Ha & Hnx & Hp & _).
  unfold awaited. rewrite Ha, Hnx, Hp, length_app. simpl.
  assert (Hinc : incr (_nextMsgId fe) = _nextMsgId fe + 1).
  { unfold incr. by rewrite (proj2 (Z.ltb_lt _ _) Hlt). }
  split_and!; [done|lia|by rewrite lookup_insert_eq|lia|].
  intros j q. destruct (decide (j = _nextMsgId fe)) as [->|Hne].
  - rewrite lookup_insert_eq. intros [= <-]. split; [lia|done].
  - rewrite lookup_insert_ne, Htab by done. case_decide; [|done].
    intros [= <-]. split; lia.
Qed.

Lemma init_in_step_call c fe : init_in_step fe → init_in_step (do_call fe c).
Proof.
  intros [Hlen Hinit]. destruct c as [debug type payload|type payload|debug data]; cbn [do_call].
  - destruct (sendAndAwaitReply_fields debug type payload fe) as (_ & _ & _ & Hp & _ & Hi).
    unfold init_in_step. rewrite Hp, Hi, length_app. split; [lia|].
    rewrite lookup_app_l by done. done.
  - done.
  - unfold _onMessage. case_decide; [|done].
    destruct (_awaitingReplies fe !! d_msgId data) as [q|]; [|done].
    assert (H' : init_in_step
                   (if debug then print (LogReply (d_msgId data) (d_type data) (d_payload data)) fe
                    else fe)) by (by destruct debug).
    revert H'. generalize (if debug
                           then print (LogReply (d_msgId data) (d_type data) (d_payload data)) fe
                           else fe). intros fe' [Hlen' Hinit'].
    unfold init_in_step, init_promise in *.
    destruct (success data); unfold resolve, reject.
    + destruct (promises fe' !! q) as [[]|] eqn:Hq; try done.
      unfold init_promise. case_decide as Hq0; simpl; rewrite length_insert; (split; [done|]).
      * subst q. rewrite Hq in Hinit'. rewrite Hinit', list_lookup_insert_eq by done. done.
      * by rewrite list_lookup_insert_ne.
    + destruct (promises fe' !! q) as [[]|] eqn:Hq; try done.
      simpl; rewrite length_insert; (split; [done|]).
      destruct (decide (q = 0%nat)) as [->|].
      * rewrite Hq in Hinit'. rewrite Hinit', list_lookup_insert_eq by done. done.
      * by rewrite list_lookup_insert_ne.
Qed.

(** [X27] Request ids.  After any calls and messages (fewer than 2^53),
    the requests sent with [_sendAndAwaitReply] carry the ids 1, 2, 3, ...
    in the order of sending, so no id is used twice and none is 0, the id
    of [_sendNoReply].  The table of awaited replies has an entry for every
    id handed out, answered or not, each with the promise made for that
    request; a reply with any other id is only warned about. *)
Theorem request_ids_count_up (debug : bool) (treeName : string) (cs : list call)
    (Hfew : Z.of_nat (length cs) + 2 ≤ 2 ^ 53) :
  let fe := after_calls cs (new_GrokAnalysisFrontend debug treeName) in
  request_ids fe = Z.of_nat <$> seq 1 (length (promises fe)) ∧
  Z.of_nat (length (promises fe)) = _nextMsgId fe - 1 ∧
  (∀ i, _awaitingReplies fe !! i
        = if decide (1 ≤ i < _nextMsgId fe) then Some (Z.to_nat (i - 1)) else None) ∧
  ∀ debug' data, d_type data = "reply"%string → ¬ (1 ≤ d_msgId data < _nextMsgId fe) →
    _onMessage debug' data fe = print (WarnNoEntry data) fe.
Proof.
  intros fe. destruct (bridge_ok_run debug treeName cs Hfew) as [(Hn & Hlen & Htab & Hids) _].
  fold fe in Hn, Hlen, Htab, Hids. split_and!; try done.
  intros debug' data Hty Hid. unfold _onMessage.
  rewrite decide_True, Htab, decide_False by done. done.
Qed.

Lemma request_ids_count_up_witness :
  Z.of_nat (length [SendNoReply "bye" "x"; SendAndAwaitReply false "search" "symbol:f"]) + 2
    ≤ 2 ^ 53 ∧
  request_ids (after_calls [SendNoReply "bye" "x"; SendAndAwaitReply false "search" "symbol:f"]
                 (new_GrokAnalysisFrontend false "mozilla-central")) = [1; 2].
Proof.
  assert (H : Z.of_nat (length [SendNoReply "bye" "x";
                                SendAndAwaitReply false "search" "symbol:f"]) + 2 ≤ 2 ^ 53)
    by (by vm_compute).
  split; [exact H|].
  exact (proj1 (request_ids_count_up false "mozilla-central" _ H)).
Defined.

(** [X28] A reply settles its request.  A promise returned by
    [_sendAndAwaitReply] stays pending through any other calls and
    messages, as long as no reply with the request's id arrives; the first
    reply with that id fulfils it with the payload when the reply reports
    success, and rejects it with the payload otherwise. *)
Theorem reply_settles_request (debug : bool) (treeName : string) (cs0 cs1 : list call)
    (debug1 debug2 : bool) (type payload result : string) (ok : bool)
    (Hfew : Z.of_nat (length cs0) + 3 ≤ 2 ^ 53)
    (Hnone : Forall (λ c, ¬ is_reply_to
                (_nextMsgId (after_calls cs0 (new_GrokAnalysisFrontend debug treeName))) c) cs1) :
  let fe := after_calls cs0 (new_GrokAnalysisFrontend debug treeName) in
  let sent := _sendAndAwaitReply debug1 type payload fe in
  let fe' := after_calls cs1 sent.2 in
  promises fe' !! sent.1 = Some Pending ∧
  promises (_onMessage debug2 (mkData "reply" (_nextMsgId fe) result ok) fe') !! sent.1
  = Some (settled_as ok result).
Proof.
  intros fe sent fe'.
  destruct (bridge_ok_run debug treeName cs0) as [Hok Hnext]; [lia|]. fold fe in Hok, Hnext.
  assert (Hlt : _nextMsgId fe < 2 ^ 53) by lia.
  pose proof (awaited_fresh debug1 type payload fe Hok Hlt) as Haw. fold sent in Haw.
  destruct (sendAndAwaitReply_fields debug1 type payload fe) as (H1 & _ & _ & Hp & _).
  fold sent in H1, Hp. rewrite H1.
  assert (Hpend : promises sent.2 !! length (promises fe) = Some Pending).
  { rewrite Hp. by apply list_lookup_middle. }
  destruct (awaited_run cs1 sent.2 _ _ Haw Hnone Hpend) as [(_ & _ & Hip & _) Hpend'].
  fold fe' in Hip, Hpend'. split; [done|].
  unfold _onMessage. simpl. rewrite Hip.
  assert (Hp' : promises (if debug2 then print (LogReply (_nextMsgId fe) "reply" result) fe'
                          else fe') !! length (promises fe) = Some Pending)
    by (by destruct debug2).
  revert Hp'. generalize (if debug2 then print (LogReply (_nextMsgId fe) "reply" result) fe'
                          else fe'). intros fe2 Hp2.
  apply lookup_lt_Some in Hp2 as Hlen.
  destruct ok; unfold resolve, reject; rewrite Hp2; simpl.
  - case_decide; simpl; by rewrite list_lookup_insert_eq.
  - by rewrite list_lookup_insert_eq.
Qed.

Lemma reply_settles_request_witness :
  promises served !! 1%nat = Some (Fulfilled "hits").
Proof.
  assert (Hfew : Z.of_nat (length (@nil call)) + 3 ≤ 2 ^ 53) by (by vm_compute).
  exact (proj2 (reply_settles_request false "mozilla-central" [] [] false false
                  "search" "symbol:f" "hits" true Hfew (Forall_nil_2 _))).
Defined.

(** [X29] The first reply wins.  Once a promise is fulfilled or rejected,
    no later reply, whether it reports success or failure, and no other
    call changes what it was settled with. *)
Theorem first_reply_wins (cs : list call) (fe : Frontend) (p : nat) (s : PromiseState)
    (Hp : promises fe !! p = Some s)
    (Hsettled : s ≠ Pending) :
  promises (after_calls cs fe) !! p = Some s.
Proof.
  revert fe Hp. induction cs as [|c cs IH]; intros fe Hp; [done|].
  simpl. apply IH. by apply settled_call.
Qed.

Lemma first_reply_wins_witness :
  promises served !! 1%nat = Some (Fulfilled "hits") ∧
  promises (after_calls [OnMessage false (mkData "reply" 2 "other" false)] served) !! 1%nat
  = Some (Fulfilled "hits").
Proof.
  assert (Hp : promises served !! 1%nat = Some (Fulfilled "hits")) by reflexivity.
  assert (Hs : Fulfilled "hits" ≠ Pending) by discriminate.
  split; [exact Hp|].
  exact (first_reply_wins [OnMessage false (mkData "reply" 2 "other" false)] served 1
           (Fulfilled "hits") Hp Hs).
Defined.

(** [X30] The session data is consumed at most once.  After any calls
    and messages, [_initCompleted] has been called exactly when the promise
    of the constructor's init request is fulfilled, once, and with the
    payload the promise was fulfilled with; it has not been called while
    the promise is pending or when it was rejected. *)
Theorem initCompleted_once (debug : bool) (treeName : string) (cs : list call) :
  let fe := after_calls cs (new_GrokAnalysisFrontend debug treeName) in
  initCompleted fe = match promises fe !! init_promise with
                     | Some (Fulfilled initData) => [initData]
                     | _ => []
                     end.
Proof.
  intros fe. assert (H : init_in_step fe); [|by destruct H].
  subst fe. induction cs as [|c cs IH] using rev_ind.
  - unfold init_in_step. destruct debug; simpl; (split; [lia|done]).
  - rewrite after_calls_snoc. by apply init_in_step_call.
Qed.

End FrontendFacts.
